(** * Weather-Telemetry: a shallow embedding of the fetcher and processor

    The pipeline is two Node.js processes that cooperate through a Redis
    broker.  This development embeds the parts of the TypeScript sources
    that carry the pipeline's contract and states the contract as theorems:

    - [Redis]        the broker commands the sources issue, as functions on
                     a keyspace with lazily expired keys;
    - [RateLimiter]  rate-limiter.ts: the token-bucket Lua script, one
                     round of [acquire] and its loop, [notifyThrottled];
    - [Scheduler]    scheduler.ts: [enqueueLocations];
    - [Consumer]     consumer.ts: [parseMessage], [processMessages] and the
                     two-phase loop of [startConsumer];
    - [Fetcher]      fetcher.ts and mock-weather.ts: retry policy, WMO
                     table, [fetchWeather];
    - [InfluxWriter] influx-writer.ts: [write];
    - [Worker]       worker.ts: one iteration of [runWorker] and the
                     tick of the analytics reporter;
    - [Group]        consumer.ts: [ensureGroup] and the start of
                     [startConsumer].

    Conventions.  Numbers of the Lua script and of JavaScript are exact
    rationals ([Q]): arithmetic on them is not rounded, but [parseFloat]
    and [parseInt] return the double nearest to the text they read
    ([JS.to_double]).  A string is UTF-8 text, byte by byte, as the
    broker holds it and as the clients encode and decode it.  Wall
    clocks are integers in milliseconds.  A broker command is modelled by
    its effect on the keyspace and a lost connection is not modelled,
    but for the [XACK] of the consumer, whose reply is an input of its
    turn, and for [Worker], whose turn takes the replies of the broker,
    of the limiter and of the upstream as inputs, failures included.
    What the sources import and do not define (the catalog of locations,
    [JSON.stringify], [String] on a number, the network class of
    axios-retry) is a parameter; the retry loop of axios-retry, which
    fetcher.ts configures, is [Fetcher.request]. *)

From Stdlib Require Import ZArith QArith Qminmax Qround Qreduction Qpower.
From Stdlib Require Import Lia Lqa List.
From Stdlib Require Qcanon.
From Stdlib Require Import Ascii String DecimalString DecimalZ.
From stdpp Require Import gmap strings list sorting.
From Equations Require Import Equations.

Set Default Proof Using "Type".
Set Warnings "-clear-no-such-hyp".
Open Scope Z_scope.

(* ===================================================================== *)
(** * Results of fallible operations *)
(* ===================================================================== *)

Inductive result (E A : Type) : Type :=
| Ok (a : A)
| Err (e : E).
Arguments Ok {E A} a.
Arguments Err {E A} e.

#[global] Instance result_ret {E} : MRet (result E) := fun _ a => Ok a.
#[global] Instance result_bind {E} : MBind (result E) := fun _ _ k r =>
  match r with
  | Ok a => k a
  | Err e => Err e
  end.

Definition is_ok {E A} (r : result E A) : bool :=
  match r with Ok _ => true | Err _ => false end.

(* ===================================================================== *)
(** * Decimal text of integers, as [String(n)] and Redis print them *)
(* ===================================================================== *)

Module Dec.

Definition string_of_Z (z : Z) : string :=
  NilZero.string_of_int (Z.to_int z).

(** Redis' [string2ll] is strict: an optional minus sign and digits with
    no redundant leading zero, nothing else.  That is exactly the image
    of [string_of_Z]. *)
Definition Z_of_string (s : string) : option Z :=
  match NilZero.int_of_string s with
  | Some d =>
      let z := Z.of_int d in
      if String.eqb (string_of_Z z) s then Some z else None
  | None => None
  end.

End Dec.

(* ===================================================================== *)
(** * The JavaScript runtime: numbers, [parseFloat], [Date] *)
(* ===================================================================== *)

Module JS.

(** A Number: a rational, [NaN] or an infinity.  There is no negative
    zero. *)
Inductive number : Type :=
| Finite (q : Q)
| NaN
| Infinity (negative : bool).

(** The exponent of the binade of [a], for [0 < a]: the [e] with
    [2^e <= a < 2^(e+1)]. *)
Definition floor_log2 (a : Q) : Z :=
  let e := Z.log2 (Qnum a) - Z.log2 (Zpos (Qden a)) in
  if Qle_bool (Qpower 2 e) a then e else e - 1.

Definition round_half_even (x : Q) : Z :=
  let f := Qfloor x in
  match (x - inject_Z f ?= 1 # 2)%Q with
  | Lt => f
  | Gt => f + 1
  | Eq => if Z.even f then f else f + 1
  end.

(** The Number value of a real: the nearest IEEE 754 double, ties to the
    even significand; 53 bits of significand down to the exponent -1022,
    multiples of [2^-1074] below, an infinity from [2^1024 - 2^970]
    on. *)
Definition to_double (q : Q) : number :=
  let q := Qred q in
  let neg := negb (Qle_bool 0 q) in
  let a := (if neg then - q else q)%Q in
  if Qeq_bool a 0 then Finite 0
  else
    let e := Z.max (floor_log2 a) (-1022) in
    let ulp := Qpower 2 (e - 52) in
    let r := (inject_Z (round_half_even (a / ulp)) * ulp)%Q in
    if Qle_bool (Qpower 2 1024) r then Infinity neg
    else Finite (Qred (if neg then - r else r)).

(** [x * y] for a finite [y]. *)
Definition times (x : number) (y : Q) : number :=
  match x with
  | Finite q => Finite (q * y)
  | NaN => NaN
  | Infinity neg =>
      match (y ?= 0)%Q with
      | Eq => NaN
      | Gt => Infinity neg
      | Lt => Infinity (negb neg)
      end
  end.

(** [x - y] *)
Definition minus (x y : number) : number :=
  match x, y with
  | Finite a, Finite b => Finite (a - b)
  | NaN, _ | _, NaN => NaN
  | Infinity n, Finite _ => Infinity n
  | Finite _, Infinity m => Infinity (negb m)
  | Infinity n, Infinity m => if Bool.eqb n m then NaN else Infinity n
  end.

(** [x <= 0] *)
Definition le0 (x : number) : bool :=
  match x with
  | Finite q => Qle_bool q 0
  | NaN => false
  | Infinity neg => neg
  end.

(** A number as a condition: 0 and [NaN] are falsy. *)
Definition truthy (x : number) : bool :=
  match x with
  | Finite q => negb (Qeq_bool q 0)
  | NaN => false
  | Infinity _ => true
  end.

(** The white space and line terminators of [StrWhiteSpaceChar], by the
    bytes of their UTF-8 encoding.  One byte: TAB, LF, VT, FF, CR and
    the space. *)
Definition is_ws (c : ascii) : bool :=
  let n := nat_of_ascii c in
  ((9 <=? n) && (n <=? 13))%nat || (n =? 32)%nat.

(** Two bytes: U+00A0. *)
Definition is_ws2 (c1 c2 : ascii) : bool :=
  ((nat_of_ascii c1 =? 194) && (nat_of_ascii c2 =? 160))%nat.

(** Three bytes: U+1680; U+2000 to U+200A, U+2028, U+2029 and U+202F;
    U+205F; U+3000; U+FEFF. *)
Definition is_ws3 (c1 c2 c3 : ascii) : bool :=
  let n1 := nat_of_ascii c1 in
  let n2 := nat_of_ascii c2 in
  let n3 := nat_of_ascii c3 in
  ((n1 =? 225) && (n2 =? 154) && (n3 =? 128)
   || (n1 =? 226) && (n2 =? 128)
      && ((128 <=? n3) && (n3 <=? 138) || (n3 =? 168) || (n3 =? 169) || (n3 =? 175))
   || (n1 =? 226) && (n2 =? 129) && (n3 =? 159)
   || (n1 =? 227) && (n2 =? 128) && (n3 =? 128)
   || (n1 =? 239) && (n2 =? 187) && (n3 =? 191))%nat.

(** The text without its leading white space.  Bytes that are not UTF-8
    decode to U+FFFD, which is no white space. *)
Fixpoint trim_start (s : string) : string :=
  match s with
  | String c1 s1 =>
      if is_ws c1 then trim_start s1
      else
        match s1 with
        | String c2 s2 =>
            if is_ws2 c1 c2 then trim_start s2
            else
              match s2 with
              | String c3 s3 => if is_ws3 c1 c2 c3 then trim_start s3 else s
              | EmptyString => s
              end
        | EmptyString => s
        end
  | EmptyString => s
  end.

Definition digit_value (c : ascii) : option Z :=
  let n := nat_of_ascii c in
  if ((48 <=? n) && (n <=? 57))%nat then Some (Z.of_nat n - 48) else None.

(** The longest run of decimal digits at the head of [s]: its value, its
    length and what follows it. *)
Fixpoint digits_from (acc : Z) (len : nat) (s : string) : Z * nat * string :=
  match s with
  | String c s' =>
      match digit_value c with
      | Some v => digits_from (acc * 10 + v) (S len) s'
      | None => (acc, len, s)
      end
  | EmptyString => (acc, len, s)
  end.

Definition digits (s : string) : Z * nat * string := digits_from 0 0%nat s.

Definition sign_of (s : string) : bool * string :=
  match s with
  | String "-" r => (true, r)
  | String "+" r => (false, r)
  | _ => (false, s)
  end.

Fixpoint starts_with (p s : string) : bool :=
  match p, s with
  | EmptyString, _ => true
  | String a p', String b s' => Ascii.eqb a b && starts_with p' s'
  | _, _ => false
  end.

(** [ExponentPart]: read only when complete, else the literal ends before
    the [e]. *)
Definition exponent (s : string) : Z :=
  match s with
  | String c r =>
      if Ascii.eqb c "e" || Ascii.eqb c "E" then
        let '(neg, r1) := sign_of r in
        let '(v, len, _) := digits r1 in
        match len with
        | O => 0
        | S _ => if neg then - v else v
        end
      else 0
  | EmptyString => 0
  end.

(** [parseFloat]: the Number value of the longest prefix of the trimmed
    text that is a [StrDecimalLiteral]; [NaN] when there is none. *)
Definition parseFloat (s : string) : number :=
  let '(neg, s1) := sign_of (trim_start s) in
  if starts_with "Infinity" s1 then Infinity neg
  else
    let '(ip, ilen, s2) := digits s1 in
    let '(fp, flen, s3) :=
      match s2 with
      | String "." r => digits r
      | _ => (0, O, s2)
      end in
    match ilen, flen with
    | O, O => NaN
    | _, _ =>
        let mant := (inject_Z ip + inject_Z fp / inject_Z (10 ^ Z.of_nat flen))%Q in
        let v := (mant * Qpower 10 (exponent s3))%Q in
        to_double (if neg then - v else v)%Q
    end.

(** The value of a digit in a radix up to 16. *)
Definition digit_in (radix : Z) (c : ascii) : option Z :=
  let n := Z.of_nat (nat_of_ascii c) in
  let v :=
    if (48 <=? n) && (n <=? 57) then n - 48
    else if (97 <=? n) && (n <=? 102) then n - 87
    else if (65 <=? n) && (n <=? 70) then n - 55
    else 16 in
  if v <? radix then Some v else None.

Fixpoint digits_in (radix acc : Z) (len : nat) (s : string) : Z * nat :=
  match s with
  | String c s' =>
      match digit_in radix c with
      | Some v => digits_in radix (acc * radix + v) (S len) s'
      | None => (acc, len)
      end
  | EmptyString => (acc, len)
  end.

(** [parseInt(s)] with no radix given: white space, a sign, [0x] or [0X]
    for radix 16, then the longest run of digits, whose integer is
    returned as a Number; [NaN] when the run is empty. *)
Definition parseInt (s : string) : number :=
  let '(neg, s1) := sign_of (trim_start s) in
  let '(radix, s2) :=
    match s1 with
    | String "0" (String "x" r) => (16, r)
    | String "0" (String "X" r) => (16, r)
    | _ => (10, s1)
    end in
  match digits_in radix 0 O s2 with
  | (_, O) => NaN
  | (v, S _) => to_double (inject_Z (if neg then - v else v))
  end.

(** ** Dates

    A time value is a count of milliseconds since the epoch, at most
    8.64e15 in magnitude.  The calendar arithmetic is the usual one on
    days counted from 1 March of year 0. *)

Definition msPerDay : Z := 86400000.
Definition maxTime : Z := 8640000000000000.

(** The calendar runs in eras of 400 years, 146097 days each, that start
    on a 1 March.  [civil_of_era] takes a day of the era, from 0, to the
    (year of the era, month, day) that starts the year in January. *)
Definition civil_of_era (doe : Z) : Z * Z * Z :=
  let yoe := (doe - doe / 1460 + doe / 36524 - doe / 146096) / 365 in
  let doy := doe - (365 * yoe + yoe / 4 - yoe / 100) in
  let mp := (5 * doy + 2) / 153 in
  let d := doy - (153 * mp + 2) / 5 + 1 in
  let m := if mp <? 10 then mp + 3 else mp - 9 in
  (if m <=? 2 then yoe + 1 else yoe, m, d).

(** The day of the era of a date whose year, counted from March, is
    [yoe] in the era. *)
Definition day_of_era (yoe m d : Z) : Z :=
  let doy := (153 * (if 2 <? m then m - 3 else m + 9) + 2) / 5 + d - 1 in
  yoe * 365 + yoe / 4 - yoe / 100 + doy.

(** Day number to proleptic Gregorian (year, month, day), months from 1. *)
Definition civil_from_days (z : Z) : Z * Z * Z :=
  let z := z + 719468 in
  let era := z / 146097 in
  let '(y, m, d) := civil_of_era (z mod 146097) in
  (y + era * 400, m, d).

(** [MakeDay] on a calendar date. *)
Definition days_from_civil (y m d : Z) : Z :=
  let y := if m <=? 2 then y - 1 else y in
  let era := y / 400 in
  era * 146097 + day_of_era (y mod 400) m d - 719468.

Definition is_leap (y : Z) : bool :=
  ((y mod 4 =? 0) && negb (y mod 100 =? 0)) || (y mod 400 =? 0).

Definition days_in_month (y m : Z) : Z :=
  if m =? 2 then (if is_leap y then 29 else 28)
  else if (m =? 4) || (m =? 6) || (m =? 9) || (m =? 11) then 30
  else 31.

Definition digit_char (v : Z) : ascii := ascii_of_nat (48 + Z.to_nat v).

(** [n] on [w] digits, zero padded. *)
Fixpoint fixed (w : nat) (n : Z) : string :=
  match w with
  | O => EmptyString
  | S w' => String (digit_char (n / 10 ^ Z.of_nat w' mod 10)) (fixed w' n)
  end.

(** Exactly [w] digits at the head of [s]. *)
Fixpoint read_fixed (w : nat) (s : string) : option (Z * string) :=
  match w with
  | O => Some (0, s)
  | S w' =>
      match s with
      | String c r =>
          match digit_value c, read_fixed w' r with
          | Some v, Some (n, r') => Some (v * 10 ^ Z.of_nat w' + n, r')
          | _, _ => None
          end
      | EmptyString => None
      end
  end.

Definition expect (c : ascii) (s : string) : option string :=
  match s with
  | String c' r => if Ascii.eqb c c' then Some r else None
  | EmptyString => None
  end.

(** The year of the date-time format: four digits from 0 to 9999, else a
    sign and six digits. *)
Definition year_text (y : Z) : string :=
  if (0 <=? y) && (y <=? 9999) then fixed 4 y
  else if y <? 0 then String "-" (fixed 6 (- y))
  else String "+" (fixed 6 y).

Definition read_year (s : string) : option (Z * string) :=
  match s with
  | String "+" r => read_fixed 6 r
  | String "-" r =>
      match read_fixed 6 r with
      | Some (0, _) => None        (* -000000 is not a year *)
      | Some (y, r') => Some (- y, r')
      | None => None
      end
  | _ => read_fixed 4 s
  end.

(** [new Date(ms).toISOString()]; a time value out of range is an
    invalid date, on which [toISOString] throws a RangeError. *)
Definition toISOString (ms : Z) : option string :=
  if (ms <? - maxTime) || (maxTime <? ms) then None
  else
    let day := ms / msPerDay in
    let t := ms mod msPerDay in
    let '(y, m, d) := civil_from_days day in
    Some (year_text y +:+ "-" +:+ fixed 2 m +:+ "-" +:+ fixed 2 d +:+ "T"
          +:+ fixed 2 (t / 3600000) +:+ ":" +:+ fixed 2 (t / 60000 mod 60) +:+ ":"
          +:+ fixed 2 (t / 1000 mod 60) +:+ "." +:+ fixed 3 (t mod 1000) +:+ "Z").

(** [Date.parse] on the complete form [YYYY-MM-DDTHH:mm:ss.sssZ] of the
    date-time string format; [None] is [NaN].  The shorter forms, the
    offsets and the fallbacks an engine may add are read as [NaN]. *)
Definition Date_parse (s : string) : option Z :=
  '(y, s) ← read_year s;
  s ← expect "-" s;
  '(m, s) ← read_fixed 2 s;
  s ← expect "-" s;
  '(d, s) ← read_fixed 2 s;
  s ← expect "T" s;
  '(h, s) ← read_fixed 2 s;
  s ← expect ":" s;
  '(mi, s) ← read_fixed 2 s;
  s ← expect ":" s;
  '(sec, s) ← read_fixed 2 s;
  s ← expect "." s;
  '(milli, s) ← read_fixed 3 s;
  s ← expect "Z" s;
  if negb (String.eqb s "") then None
  else if negb ((1 <=? m) && (m <=? 12) && (1 <=? d) && (d <=? days_in_month y m))
  then None
  else if negb ((h <=? 23) && (mi <=? 59) && (sec <=? 59)
                || (h =? 24) && (mi =? 0) && (sec =? 0) && (milli =? 0))
  then None
  else
    let ms := days_from_civil y m d * msPerDay
              + h * 3600000 + mi * 60000 + sec * 1000 + milli in
    if (ms <? - maxTime) || (maxTime <? ms) then None else Some ms.

End JS.

(* ===================================================================== *)
(** * The broker: a Redis keyspace *)
(* ===================================================================== *)

Module Redis.

(** A hash field written by a script holds the text of a number or some
    other text; [HNum q] stands for the text that Lua's [tonumber] reads
    as [q]. *)
Inductive hval : Type :=
| HNum (q : Q)
| HText (s : string).

Inductive rvalue : Type :=
| RString (s : string)
| RList (l : list string)
| RHash (h : gmap string hval).

Record entry : Type := Entry {
  value : rvalue;
  expire_at : option Z          (* server clock, ms *)
}.

Abbreviation db := (gmap string entry).

Inductive error : Type :=
| WRONGTYPE
| NotAnInteger
| Overflow.

Definition live (clock : Z) (e : entry) : bool :=
  match expire_at e with
  | None => true
  | Some t => clock <? t
  end.

(** Keys are expired lazily: an entry whose deadline has passed reads
    as absent. *)
Definition lookup (clock : Z) (k : string) (d : db) : option entry :=
  match d !! k with
  | Some e => if live clock e then Some e else None
  | None => None
  end.

(** [SET k v EX secs NX] *)
Definition set_ex_nx (clock : Z) (k v : string) (secs : Z) (d : db) : bool * db :=
  match lookup clock k d with
  | Some _ => (false, d)
  | None => (true, <[k := Entry (RString v) (Some (clock + secs * 1000))]> d)
  end.

(** [SET k v] *)
Definition set (k v : string) (d : db) : db :=
  <[k := Entry (RString v) None]> d.

(** [DEL k] *)
Definition del (k : string) (d : db) : db := delete k d.

Definition int64_max : Z := 9223372036854775807.

(** [INCR k] *)
Definition incr (clock : Z) (k : string) (d : db) : result error (Z * db) :=
  match lookup clock k d with
  | None => Ok (1, <[k := Entry (RString (Dec.string_of_Z 1)) None]> d)
  | Some (Entry (RString s) ex) =>
      match Dec.Z_of_string s with
      | Some n =>
          if (n <? - int64_max - 1) || (int64_max <? n) then Err NotAnInteger
          else if n =? int64_max then Err Overflow
          else Ok (n + 1, <[k := Entry (RString (Dec.string_of_Z (n + 1))) ex]> d)
      | None => Err NotAnInteger
      end
  | Some _ => Err WRONGTYPE
  end.

(** [LPUSH k v] *)
Definition lpush (clock : Z) (k v : string) (d : db) : result error (Z * db) :=
  match lookup clock k d with
  | None => Ok (1, <[k := Entry (RList [v]) None]> d)
  | Some (Entry (RList l) ex) =>
      Ok (Z.of_nat (S (length l)), <[k := Entry (RList (v :: l)) ex]> d)
  | Some _ => Err WRONGTYPE
  end.

(** [LLEN k] *)
Definition llen (clock : Z) (k : string) (d : db) : result error Z :=
  match lookup clock k d with
  | None => Ok 0
  | Some (Entry (RList l) _) => Ok (Z.of_nat (length l))
  | Some _ => Err WRONGTYPE
  end.

(** [PTTL k]: -2 when the key is absent, -1 when it has no deadline. *)
Definition pttl (clock : Z) (k : string) (d : db) : Z :=
  match lookup clock k d with
  | None => -2
  | Some e =>
      match expire_at e with
      | None => -1
      | Some t => t - clock
      end
  end.

(** [HMGET k f1 f2] *)
Definition hmget2 (clock : Z) (k f1 f2 : string) (d : db)
  : result error (option hval * option hval) :=
  match lookup clock k d with
  | None => Ok (None, None)
  | Some (Entry (RHash h) _) => Ok (h !! f1, h !! f2)
  | Some _ => Err WRONGTYPE
  end.

(** [HMSET k f1 v1 f2 v2] *)
Definition hmset2 (clock : Z) (k f1 : string) (v1 : hval) (f2 : string) (v2 : hval)
    (d : db) : result error db :=
  match lookup clock k d with
  | None => Ok (<[k := Entry (RHash (<[f2 := v2]> (<[f1 := v1]> ∅))) None]> d)
  | Some (Entry (RHash h) ex) =>
      Ok (<[k := Entry (RHash (<[f2 := v2]> (<[f1 := v1]> h))) ex]> d)
  | Some _ => Err WRONGTYPE
  end.

(** [EXPIRE k secs] *)
Definition expire (clock : Z) (k : string) (secs : Z) (d : db) : db :=
  match lookup clock k d with
  | None => d
  | Some e => <[k := Entry (value e) (Some (clock + secs * 1000))]> d
  end.

(** [RPOP k], which is what [BRPOP k timeout] does on a list that is
    not empty (on an empty one it waits and answers nil): the element at
    the right end; a list left empty goes with its key. *)
Definition rpop (clock : Z) (k : string) (d : db) : result error (option string * db) :=
  match lookup clock k d with
  | None => Ok (None, d)
  | Some (Entry (RList l) ex) =>
      match last l with
      | None => Ok (None, d)
      | Some x =>
          match take (pred (length l)) l with
          | [] => Ok (Some x, delete k d)
          | l' => Ok (Some x, <[k := Entry (RList l') ex]> d)
          end
      end
  | Some _ => Err WRONGTYPE
  end.

(** [MGET k1 k2]: nil for a key that is absent or holds no string. *)
Definition mget2 (clock : Z) (k1 k2 : string) (d : db) : option string * option string :=
  let get k :=
    match lookup clock k d with
    | Some (Entry (RString s) _) => Some s
    | _ => None
    end in
  (get k1, get k2).

End Redis.

(* ===================================================================== *)
(** * rate-limiter.ts *)
(* ===================================================================== *)

Module RateLimiter.
Import Redis.

Definition BUCKET_KEY : string := "rate_limiter:weather_api:bucket".
Definition COOLDOWN_KEY : string := "rate_limiter:weather_api:cooldown".

Definition MAX_RPS : Q := 8%Q.
Definition CAPACITY : Q := 8%Q.
Definition COOLDOWN_S : Z := 30.

(** Lua 5.1 [tonumber] on a reply of [HMGET]: [false] (no field) and
    text that is no number give [nil]. *)
Definition tonumber (v : option hval) : option Q :=
  match v with
  | Some (HNum q) => Some q
  | _ => None
  end.

(** Lua's [a or b] on an optional number. *)
Definition lua_or (a : option Q) (b : Q) : Q :=
  match a with Some q => q | None => b end.

(** [math.max(a, b)]: start from [a], take [b] when [b > a]. *)
Definition math_max (a b : Q) : Q :=
  match (b ?= a)%Q with Gt => b | _ => a end.

(** [math.min(a, b)]: start from [a], take [b] when [b < a]. *)
Definition math_min (a b : Q) : Q :=
  match (b ?= a)%Q with Lt => b | _ => a end.

(** The script, run atomically at server time [clock]. *)
Definition CONSUME_LUA (clock : Z) (key : string) (capacity refill_rate now : Q)
    (d : db) : result error (Z * db) :=
  data ← hmget2 clock key "tokens" "last_refill" d;
  let tokens := lua_or (tonumber (fst data)) capacity in
  let last_refill := lua_or (tonumber (snd data)) now in
  let elapsed := math_max 0 (now - last_refill)%Q in
  let new_tokens := math_min capacity (tokens + elapsed * refill_rate)%Q in
  if Qle_bool 1 new_tokens then
    let new_tokens := (new_tokens - 1)%Q in
    d1 ← hmset2 clock key "tokens" (HNum new_tokens) "last_refill" (HNum now) d;
    let d2 := expire clock key 60 d1 in
    Ok (1, d2)
  else
    d1 ← hmset2 clock key "tokens" (HNum new_tokens) "last_refill" (HNum now) d;
    let d2 := expire clock key 60 d1 in
    Ok (0, d2).

(** What one turn of the [while (true)] loop of [acquire] does. *)
Inductive acquire_round : Type :=
| CoolingDown (ttlMs : Z)       (* sleep(ttlMs); continue *)
| Granted                       (* return *)
| Denied.                       (* denials.inc(); sleep(40) *)

(** One turn of [acquire]: [date_now] is the caller's [Date.now()],
    [clock] the server's time when the commands run. *)
Definition acquire_turn (clock date_now : Z) (d : db)
  : result error (acquire_round * db) :=
  let ttlMs := pttl clock COOLDOWN_KEY d in
  if 0 <? ttlMs then Ok (CoolingDown ttlMs, d)
  else
    let now := (inject_Z date_now / 1000)%Q in
    r ← CONSUME_LUA clock BUCKET_KEY CAPACITY MAX_RPS now d;
    if fst r =? 1 then Ok (Granted, snd r) else Ok (Denied, snd r).

(** [notifyThrottled]: [SET COOLDOWN_KEY "1" EX 30 NX]. *)
Definition notifyThrottled (clock : Z) (d : db) : db :=
  snd (set_ex_nx clock COOLDOWN_KEY "1" COOLDOWN_S d).

(** [acquire] with no other client at work: the clock of the caller and
    of the broker agree, and a [sleep(ms)] takes [ms].  The answer is
    the time at which the call returns and the keyspace it leaves;
    [None] when [fuel] turns of the loop were not enough. *)
Fixpoint acquire (fuel : nat) (clock : Z) (d : db) : result error (option (Z * db)) :=
  match fuel with
  | O => Ok None
  | S fuel' =>
      r ← acquire_turn clock clock d;
      match fst r with
      | CoolingDown ttlMs => acquire fuel' (clock + ttlMs) (snd r)
      | Granted => Ok (Some (clock, snd r))
      | Denied => acquire fuel' (clock + 40) (snd r)
      end
  end.

End RateLimiter.

(* ===================================================================== *)
(** * locations.ts *)
(* ===================================================================== *)

Module Locations.

(** [interface Location]: the three attributes the sources read. *)
Record Location : Type := {
  city_name : string;
  latitude : Q;
  longitude : Q
}.

End Locations.

(* ===================================================================== *)
(** * scheduler.ts *)
(* ===================================================================== *)

Module Scheduler.
Import Redis Locations.

Definition QUEUE_KEY : string := "weather:locations:queue".
Definition CYCLE_KEY : string := "weather:cycle:id".
Definition CYCLE_START : string := "weather:cycle:start_ms".

(** The commands [enqueueLocations] queues on an ioredis pipeline. *)
Inductive command : Type :=
| SET (k v : string)
| DEL (k : string)
| LPUSH (k v : string).

(** The reply of one pipelined command: an error or nothing worth
    keeping (the scheduler ignores the replies). *)
Definition run_command (clock : Z) (c : command) (d : db) : option error * db :=
  match c with
  | SET k v => (None, set k v d)
  | DEL k => (None, del k d)
  | LPUSH k v =>
      match lpush clock k v d with
      | Ok (_, d') => (None, d')
      | Err e => (Some e, d)
      end
  end.

(** [pipeline.exec()]: the server runs the queued commands in order; a
    command that fails does not stop the batch. *)
Fixpoint exec (clock : Z) (p : list command) (d : db) : list (option error) * db :=
  match p with
  | [] => ([], d)
  | c :: p' =>
      let '(r, d1) := run_command clock c d in
      let '(rs, d2) := exec clock p' d1 in
      (r :: rs, d2)
  end.

Section Enqueue.
(** The catalog of locations.ts and [JSON.stringify] on its elements. *)
Variable ALL_LOCATIONS : list Location.
Variable JSON_stringify : Location → string.

(** The batch built between [redis.pipeline()] and [pipeline.exec()]. *)
Definition pipeline (startMs : Z) : list command :=
  SET CYCLE_START (Dec.string_of_Z startMs)
  :: DEL QUEUE_KEY
  :: map (fun loc => LPUSH QUEUE_KEY (JSON_stringify loc)) ALL_LOCATIONS.

(** [enqueueLocations]: [date_now] is [Date.now()], [clock] the server's
    time.  A failing [INCR] rejects the promise before the batch is
    built; the result is the cycle id that is logged. *)
Definition enqueueLocations (clock date_now : Z) (d : db) : result error (Z * db) :=
  r ← incr clock CYCLE_KEY d;
  let cycleId := fst r in
  let startMs := date_now in
  let '(_, d') := exec clock (pipeline startMs) (snd r) in
  Ok (cycleId, d').

End Enqueue.

(** The cycle counter as [INCR] reads it: 0 for an absent key. *)
Definition cycle_id (clock : Z) (d : db) : option Z :=
  match lookup clock CYCLE_KEY d with
  | None => Some 0
  | Some (Entry (RString s) _) => Dec.Z_of_string s
  | Some _ => None
  end.

(** The queue as a list, left end first; [None] when the key holds
    something else. *)
Definition queue (clock : Z) (d : db) : option (list string) :=
  match lookup clock QUEUE_KEY d with
  | None => Some []
  | Some (Entry (RList l) _) => Some l
  | Some _ => None
  end.

End Scheduler.

(* ===================================================================== *)
(** * The broker: a stream with one consumer group *)
(* ===================================================================== *)

Module Stream.

(** A stream entry: its id and its flat array of field names and values. *)
Definition message : Type := string * list string.

(** The stream [weather:raw] with the group [processor-group], in which
    [processor-1] is the only consumer: the entries in append order, how
    many of them the group has delivered, and the pending entries list
    of the consumer in delivery order. *)
Record stream : Type := Stream_ {
  entries : list message;
  delivered : nat;
  pel : list message
}.

(** [XADD] *)
Definition xadd (m : message) (s : stream) : stream :=
  Stream_ (entries s ++ [m]) (delivered s) (pel s).

(** [XREADGROUP ... COUNT count STREAMS key 0]: the oldest pending
    entries of the consumer; nothing changes hands. *)
Definition xreadgroup_pending (count : nat) (s : stream) : list message :=
  take count (pel s).

(** [XREADGROUP ... COUNT count BLOCK ms STREAMS key >]: entries never
    delivered to the group, which become pending; [None] is the null
    reply when the block times out on none. *)
Definition xreadgroup_new (count : nat) (s : stream) : option (list message) * stream :=
  match take count (drop (delivered s) (entries s)) with
  | [] => (None, s)
  | batch =>
      (Some batch,
       Stream_ (entries s) (delivered s + length batch) (pel s ++ batch))
  end.

(** [XACK key group id] *)
Definition xack (id : string) (s : stream) : stream :=
  Stream_ (entries s) (delivered s)
          (filter (fun m => m.1 ≠ id) (pel s)).

End Stream.

(* ===================================================================== *)
(** * consumer.ts *)
(* ===================================================================== *)

Module Consumer.
Import Stream.

Definition STREAM_KEY : string := "weather:raw".
Definition GROUP_NAME : string := "processor-group".
Definition CONSUMER_NAME : string := "processor-1".
Definition BATCH_SIZE : nat := 50.
Definition BLOCK_MS : Z := 5000.

Record WeatherRecord : Type := {
  id : string;
  city_name : string;
  latitude : JS.number;
  longitude : JS.number;
  temperature : JS.number;
  weather_condition : string;
  recorded_at : string
}.

(** The object [map]: its own properties; [None] is the value
    [undefined]. *)
Abbreviation jsobject := (gmap string (option string)).

(** [map[k] = v].  The name [__proto__] reaches the accessor of
    [Object.prototype], which ignores a value that is no object. *)
Definition assign (m : jsobject) (k : string) (v : option string) : jsobject :=
  if String.eqb k "__proto__" then m else <[k := v]> m.

(** [map.k ?? dflt], for a name [Object.prototype] does not define. *)
Definition get_or (m : jsobject) (k : string) (dflt : string) : string :=
  match m !! k with
  | Some (Some v) => v
  | _ => dflt
  end.

(** Matching on a value while keeping what it is equal to. *)
Definition inspect {A : Type} (x : A) : {y : A | x = y} := exist _ x eq_refl.

(** [for (let i = 0; i < fields.length; i += 2) map[fields[i]] = fields[i + 1]],
    entered at index [i]. *)
Equations? fill (fields : list string) (i : nat) (m : jsobject) : jsobject
  by wf (length fields - i)%nat lt :=
fill fields i m with inspect (fields !! i) := {
  | exist _ (Some k) _ => fill fields (i + 2) (assign m k (fields !! (i + 1)%nat));
  | exist _ None _ => m
}.
Proof. apply lookup_lt_Some in e. lia. Qed.

(** [parseMessage]; [now_iso] is what [new Date().toISOString()] gives
    when it is evaluated. *)
Definition parseMessage (id : string) (fields : list string) (now_iso : string)
  : WeatherRecord :=
  let map := fill fields 0 ∅ in
  {| id := id;
     city_name := get_or map "city_name" "unknown";
     latitude := JS.parseFloat (get_or map "latitude" "0");
     longitude := JS.parseFloat (get_or map "longitude" "0");
     temperature := JS.parseFloat (get_or map "temperature" "0");
     weather_condition := get_or map "weather_condition" "unknown";
     recorded_at := get_or map "recorded_at" now_iso |}.

(** What the consumer does, in the order it does it. *)
Inductive read_id : Type :=
| FromPending      (* "0" *)
| FromNew.         (* ">" *)

Inductive event : Type :=
| EvRead (from : read_id) (ids : list string)   (* XREADGROUP and its reply *)
| EvHandled (id : string) (ok : bool)           (* onRecord returned / threw *)
| EvAck (id : string)                           (* XACK is sent *)
| EvLog (id : string).                          (* console.error *)

(** What becomes of an [XACK]: the broker answers and the promise
    resolves, or the promise rejects (the connection was lost, the
    broker refused), the broker having run the command or not. *)
Inductive xack_reply : Type :=
| Acked
| Rejected (applied : bool).

Definition applied (r : xack_reply) : bool :=
  match r with
  | Acked => true
  | Rejected a => a
  end.

Section WithHandler.
(** The record handler and the state it works on. *)
Variable St : Type.
Variable onRecord : WeatherRecord → St → result string () * St.

Record cstate : Type := CState {
  broker : stream;
  hstate : St;
  log : list event
}.

(** The body of the [for] loop of [processMessages]: nothing in the
    [try] block can throw before [onRecord], [XACK] is reached only
    when [onRecord] returned, and the [catch] logs what [onRecord] or
    [XACK] threw.  [replies] tells what becomes of the [XACK] of each
    id. *)
Definition processMessage (now_iso : string) (replies : string → xack_reply)
    (st : cstate) (m : message) : cstate :=
  let '(id, fields) := m in
  let record := parseMessage id fields now_iso in
  match onRecord record (hstate st) with
  | (Ok _, h) =>
      match replies id with
      | Acked =>
          CState (xack id (broker st)) h (log st ++ [EvHandled id true; EvAck id])
      | Rejected applied =>
          CState (if applied then xack id (broker st) else broker st) h
                 (log st ++ [EvHandled id true; EvAck id; EvLog id])
      end
  | (Err _, h) =>
      CState (broker st) h (log st ++ [EvHandled id false; EvLog id])
  end.

Definition processMessages (now_iso : string) (replies : string → xack_reply)
    (messages : list message) (st : cstate) : cstate :=
  foldl (processMessage now_iso replies) st messages.

(** Where [startConsumer] stands, after [ensureGroup]: in its first
    [while (true)], which drains the pending entries, or in its second,
    which reads new ones. *)
Inductive phase : Type :=
| Draining (pendingCount : nat)
| Listening.

(** One turn of the loop [startConsumer] is in; [replies] are those of
    the [XACK]s of the turn. *)
Definition turn (now_iso : string) (replies : string → xack_reply)
    (c : phase * cstate) : phase * cstate :=
  let '(ph, st) := c in
  match ph with
  | Draining pendingCount =>
      let messages := xreadgroup_pending BATCH_SIZE (broker st) in
      let st1 := CState (broker st) (hstate st)
                        (log st ++ [EvRead FromPending (messages.*1)]) in
      match messages with
      | [] => (Listening, st1)                                     (* break *)
      | _ => (Draining (pendingCount + length messages),
              processMessages now_iso replies messages st1)
      end
  | Listening =>
      let '(response, b) := xreadgroup_new BATCH_SIZE (broker st) in
      let st1 := CState b (hstate st)
                        (log st ++ [EvRead FromNew (default [] response).*1]) in
      match response with
      | None => (Listening, st1)                                   (* continue *)
      | Some messages => (Listening, processMessages now_iso replies messages st1)
      end
  end.

(** A run of the processor next to the fetcher: turns of the consumer,
    whatever becomes of their [XACK]s, and entries appended to the
    stream by the workers in between. *)
Inductive reaches : phase * cstate → phase * cstate → Prop :=
| reaches_here c : reaches c c
| reaches_turn c c' now_iso replies :
    reaches c c' → reaches c (turn now_iso replies c')
| reaches_xadd c ph st m :
    reaches c (ph, st) →
    reaches c (ph, CState (xadd m (broker st)) (hstate st) (log st)).

(** The state in which [startConsumer] enters its first loop. *)
Definition start (b : stream) (h : St) : phase * cstate :=
  (Draining 0, CState b h []).

End WithHandler.

Arguments CState {St} _ _ _.
Arguments broker {St} _.
Arguments hstate {St} _.
Arguments log {St} _.

End Consumer.

(* ===================================================================== *)
(** * influx-writer.ts *)
(* ===================================================================== *)

Module InfluxWriter.

Record WeatherPoint : Type := {
  city_name : string;
  latitude : JS.number;
  longitude : JS.number;
  temperature : JS.number;
  weather_condition : string;
  recorded_at : string
}.

(** A [Point] of the InfluxDB client: measurement, tags, fields and a
    timestamp in the precision of the write API (ms); [None] is the
    [NaN] that [Date.parse] gives on text it cannot read. *)
Record Point : Type := {
  measurement : string;
  tags : gmap string string;
  fields : gmap string Q;
  timestamp : option Z
}.

Definition new_Point (name : string) : Point :=
  {| measurement := name; tags := ∅; fields := ∅; timestamp := None |}.

Definition tag (name value : string) (p : Point) : Point :=
  {| measurement := measurement p; tags := <[name := value]> (tags p);
     fields := fields p; timestamp := timestamp p |}.

(** [Point.floatField] throws on a value that is not finite. *)
Definition floatField (name : string) (value : JS.number) (p : Point)
  : result string Point :=
  match value with
  | JS.Finite q =>
      Ok {| measurement := measurement p; tags := tags p;
            fields := <[name := q]> (fields p); timestamp := timestamp p |}
  | _ => Err ("invalid float value for field '" +:+ name +:+ "'")
  end.

Definition with_timestamp (t : option Z) (p : Point) : Point :=
  {| measurement := measurement p; tags := tags p;
     fields := fields p; timestamp := t |}.

(** The point [write] builds and hands to [writeApi.writePoint]. *)
Definition write (point : WeatherPoint) : result string Point :=
  let p := new_Point "weather" in
  let p := tag "city_name" (city_name point) p in
  let p := tag "weather_condition" (weather_condition point) p in
  p ← floatField "temperature" (temperature point) p;
  p ← floatField "latitude" (latitude point) p;
  p ← floatField "longitude" (longitude point) p;
  Ok (with_timestamp (JS.Date_parse (recorded_at point)) p).

End InfluxWriter.

(* ===================================================================== *)
(** * The processor's main.ts: the record handler *)
(* ===================================================================== *)

Module Processor.

(** A [WeatherRecord] passed where a [WeatherPoint] is expected. *)
Definition as_point (r : Consumer.WeatherRecord) : InfluxWriter.WeatherPoint :=
  {| InfluxWriter.city_name := Consumer.city_name r;
     InfluxWriter.latitude := Consumer.latitude r;
     InfluxWriter.longitude := Consumer.longitude r;
     InfluxWriter.temperature := Consumer.temperature r;
     InfluxWriter.weather_condition := Consumer.weather_condition r;
     InfluxWriter.recorded_at := Consumer.recorded_at r |}.

(** The handler given to [startConsumer]; its state is the buffer of
    the write API. *)
Definition onRecord (record : Consumer.WeatherRecord) (buffer : list InfluxWriter.Point)
  : result string () * list InfluxWriter.Point :=
  match InfluxWriter.write (as_point record) with
  | Ok p => (Ok (), buffer ++ [p])
  | Err e => (Err e, buffer)
  end.

End Processor.

(* ===================================================================== *)
(** * fetcher.ts and mock-weather.ts *)
(* ===================================================================== *)

Module Fetcher.
Import Locations.

Record WeatherPayload : Type := {
  city_name : string;
  latitude : JS.number;
  longitude : JS.number;
  temperature : JS.number;
  weather_condition : string;
  recorded_at : string
}.

(** What the worker's [catch] and the retry policy read of an error. *)
Record AxiosResponse : Type := {
  status : Z;
  retry_after : option string       (* headers["retry-after"] *)
}.

Record AxiosError : Type := {
  response : option AxiosResponse;
  code : option string;
  message : string
}.

(** [err.response?.status ?? 0] *)
Definition status_of (err : AxiosError) : Z :=
  match response err with
  | Some r => status r
  | None => 0
  end.

Definition RETRIES : nat := 5.

(** [timeout] of [axios.create], in milliseconds. *)
Definition TIMEOUT : Z := 10000.

Section RetryPolicy.
(** [axiosRetry.isNetworkError] *)
Variable isNetworkError : AxiosError → bool.

Definition retryCondition (err : AxiosError) : bool :=
  let status := status_of err in
  isNetworkError err || bool_decide (status ∈ [429; 500; 502; 503; 504]).

(** [retryDelay]; [random] is the draw of [Math.random()].  A header
    that is present and not empty is truthy. *)
Definition retryDelay (random : Q) (retryCount : Z) (err : AxiosError) : JS.number :=
  let retryAfter :=
    match response err with
    | Some r => retry_after r
    | None => None
    end in
  match retryAfter with
  | Some (String c s) => JS.times (JS.parseFloat (String c s)) 1000
  | _ =>
      let cap := Z.min 32000 (1000 * 2 ^ retryCount) in
      JS.Finite (random * inject_Z cap)
  end.

(** The interceptors of axios-retry, with the options given to
    [axiosRetry] and the defaults for the others.  A failed request
    is issued again while fewer than [retries] retries were made and
    [retryCondition] holds of the error, after the delay [retryDelay]
    gives for the count of the retry; else the request fails with that
    error.  As [shouldResetTimeout] is left false, the retries share the
    [timeout] of the client: before a retry the time the failed attempt
    took and the delay are taken off [config.timeout], the request fails
    with the error at hand, without the wait, when nothing is left, and
    what is left is the timeout of the retry.

    [outcomes] are the results of the successive attempts, [durations]
    what [Date.now() - lastRequestTime] gives after each failure,
    [randoms] the draws of [Math.random()]; the answer comes with the
    delays that were waited. *)
Fixpoint request {A : Type} (retryCount : nat) (timeout : JS.number)
    (outcomes : list (result AxiosError A)) (durations : list Z) (randoms : list Q)
  : option (result AxiosError A) * list JS.number :=
  match outcomes with
  | [] => (None, [])                       (* the attempt is still in flight *)
  | Ok a :: _ => (Some (Ok a), [])
  | Err e :: rest =>
      if (retryCount <? RETRIES)%nat && retryCondition e then
        let delay := retryDelay (default 0%Q (head randoms))
                                (Z.of_nat (S retryCount)) e in
        let lastRequestDuration := default 0 (head durations) in
        let left :=
          JS.minus (JS.minus timeout (JS.Finite (inject_Z lastRequestDuration))) delay in
        if JS.truthy timeout && JS.le0 left then (Some (Err e), [])
        else
          let timeout' := if JS.truthy timeout then left else timeout in
          let '(r, delays) :=
            request (S retryCount) timeout' rest (tail durations) (tail randoms) in
          (r, delay :: delays)
      else (Some (Err e), [])
  end.

(** [httpClient.get(url)]: no retry was made yet, and the timeout is
    that of the client. *)
Definition httpClient_get {A : Type} (outcomes : list (result AxiosError A))
    (durations : list Z) (randoms : list Q)
  : option (result AxiosError A) * list JS.number :=
  request 0 (JS.Finite (inject_Z TIMEOUT)) outcomes durations randoms.

End RetryPolicy.

(** The body of the upstream's answer. *)
Record CurrentWeather : Type := {
  cw_temperature : Q;
  cw_weathercode : Z;
  cw_time : Z                        (* epoch seconds *)
}.

Record Body : Type := {
  current_weather : option CurrentWeather
}.

Definition WMO_CODES : gmap Z string :=
  list_to_map
    [ (0, "Clear sky");
      (1, "Mainly clear"); (2, "Partly cloudy"); (3, "Overcast");
      (45, "Fog"); (48, "Rime fog");
      (51, "Light drizzle"); (53, "Moderate drizzle"); (55, "Dense drizzle");
      (61, "Slight rain"); (63, "Moderate rain"); (65, "Heavy rain");
      (71, "Slight snow"); (73, "Moderate snow"); (75, "Heavy snow");
      (80, "Slight showers"); (81, "Moderate showers"); (82, "Violent showers");
      (95, "Thunderstorm"); (96, "Thunderstorm with hail");
      (99, "Thunderstorm with heavy hail") ].

(** [WMO_CODES[code] ?? `WMO-${code}`] *)
Definition condition_of (code : Z) : string :=
  default ("WMO-" +:+ Dec.string_of_Z code) (WMO_CODES !! code).

Inductive fetch_error : Type :=
| Http (e : AxiosError)              (* the request failed, retries included *)
| EmptyResponse (city : string)      (* no current_weather in the body *)
| RangeError.                        (* toISOString on an invalid date *)

(** ** mock-weather.ts *)

Definition CONDITIONS : list (string * Z) :=
  [ ("Clear sky", 20); ("Mainly clear", 18); ("Partly cloudy", 16);
    ("Overcast", 12); ("Fog", 4); ("Light drizzle", 6);
    ("Moderate rain", 7); ("Heavy rain", 4); ("Slight showers", 5);
    ("Thunderstorm", 3); ("Slight snow", 3); ("Moderate snow", 1);
    ("Rime fog", 1) ].

Definition TOTAL_WEIGHT : Z := foldl (fun s p => s + p.2) 0 CONDITIONS.

(** [s.includes(t)] *)
Fixpoint includes (t s : string) : bool :=
  JS.starts_with t s
  || match s with
     | String _ s' => includes t s'
     | EmptyString => false
     end.

Definition Qabs_ (q : Q) : Q := if Qle_bool 0 q then q else (- q)%Q.

Fixpoint pick (conditions : list (string * Z)) (roll : Q) (canSnow : bool) : string :=
  match conditions with
  | [] => "Clear sky"
  | (condition, weight) :: rest =>
      let roll := (roll - inject_Z weight)%Q in
      if Qle_bool roll 0 then
        if includes "snow" condition && negb canSnow then "Moderate rain"
        else condition
      else pick rest roll canSnow
  end.

(** What the mock reads of its surroundings: the clock, the month of the
    local date (0 to 11) and two draws of [Math.random()]. *)
Record MockEnv : Type := {
  date_now : Z;
  month : Z;
  random_noise : Q;
  random_roll : Q
}.

Definition pickCondition (env : MockEnv) (lat : Q) : string :=
  let canSnow := negb (Qle_bool (Qabs_ lat) 45) in
  pick CONDITIONS (random_roll env * inject_Z TOTAL_WEIGHT)%Q canSnow.

(** [Math.round]: the integer nearest, ties upwards. *)
Definition Math_round (q : Q) : Z := Qfloor (q + (1 # 2)).

Definition mockTemperature (env : MockEnv) (lat : Q) : Q :=
  let base := (30 - Qabs_ lat * (1 # 2))%Q in
  let isSummer := (5 <=? month env) && (month env <=? 8) in
  let isNH := Qle_bool 0 lat in
  let seasonal : Q := if Bool.eqb isSummer isNH then 5%Q else (- (5))%Q in
  let noise := ((random_noise env - (1 # 2)) * 8)%Q in
  (inject_Z (Math_round ((base + seasonal + noise) * 10)) / 10)%Q.

Definition mockFetchWeather (env : MockEnv) (location : Location)
  : result fetch_error WeatherPayload :=
  match JS.toISOString (date_now env) with
  | Some iso =>
      Ok {| city_name := Locations.city_name location;
            latitude := JS.Finite (Locations.latitude location);
            longitude := JS.Finite (Locations.longitude location);
            temperature := JS.Finite (mockTemperature env (Locations.latitude location));
            weather_condition := pickCondition env (Locations.latitude location);
            recorded_at := iso |}
  | None => Err RangeError
  end.

(** [fetchWeather]; [reply] is what [httpClient.get(url)] settles to,
    retries included. *)
Definition fetchWeather (USE_MOCK : bool) (env : MockEnv) (location : Location)
    (reply : result AxiosError Body) : result fetch_error WeatherPayload :=
  if USE_MOCK then mockFetchWeather env location
  else
    match reply with
    | Err e => Err (Http e)
    | Ok data =>
        match current_weather data with
        | None => Err (EmptyResponse (Locations.city_name location))
        | Some cw =>
            match JS.toISOString (cw_time cw * 1000) with
            | Some iso =>
                Ok {| city_name := Locations.city_name location;
                      latitude := JS.Finite (Locations.latitude location);
                      longitude := JS.Finite (Locations.longitude location);
                      temperature := JS.Finite (cw_temperature cw);
                      weather_condition := condition_of (cw_weathercode cw);
                      recorded_at := iso |}
            | None => Err RangeError
            end
        end
    end.

(** A [WeatherPayload] passed where a [WeatherPoint] is expected. *)
Definition as_point (r : WeatherPayload) : InfluxWriter.WeatherPoint :=
  {| InfluxWriter.city_name := city_name r;
     InfluxWriter.latitude := latitude r;
     InfluxWriter.longitude := longitude r;
     InfluxWriter.temperature := temperature r;
     InfluxWriter.weather_condition := weather_condition r;
     InfluxWriter.recorded_at := recorded_at r |}.

End Fetcher.

(* ===================================================================== *)
(** * worker.ts *)
(* ===================================================================== *)

Module Worker.
Import Locations.

Definition NUM_WORKERS : nat := 50.

(** A record of [analyticsMap]. *)
Record bucket : Type := Bucket {
  ok : Z;
  fail : Z;
  timeout : Z;
  latencies : list Z
}.

(** The module's mutable state; the key [`${cycleId}:${secondOffset}`]
    is kept as the pair it renders. *)
Record analytics : Type := Analytics {
  analyticsMap : gmap (Z * Z) bucket;
  activeCycleId : Z;
  cycleStartMs : Z
}.

(** [getBucket]: the record under the key, which is created empty when
    missing; the map comes back with it. *)
Definition getBucket (cycleId secondOffset : Z) (m : gmap (Z * Z) bucket)
  : bucket * gmap (Z * Z) bucket :=
  match m !! (cycleId, secondOffset) with
  | Some b => (b, m)
  | None => (Bucket 0 0 0 [], <[(cycleId, secondOffset) := Bucket 0 0 0 []]> m)
  end.

(** [getBucket] for its effect on the state alone. *)
Definition touch (cycleId secondOffset : Z) (a : analytics) : analytics :=
  Analytics (getBucket cycleId secondOffset (analyticsMap a)).2
            (activeCycleId a) (cycleStartMs a).

(** What an error shows to the [catch] block. *)
Record thrown : Type := Thrown {
  status : option Z;                 (* err?.response?.status *)
  code : option string;              (* err?.code *)
  message : string                   (* err.message *)
}.

Definition of_fetch_error (e : Fetcher.fetch_error) : thrown :=
  match e with
  | Fetcher.Http e =>
      Thrown (Fetcher.status <$> Fetcher.response e) (Fetcher.code e) (Fetcher.message e)
  | Fetcher.EmptyResponse city => Thrown None None ("Empty response for " +:+ city)
  | Fetcher.RangeError => Thrown None None "Invalid time value"
  end.

(** What one turn of the loop is given by its surroundings: the replies
    of the broker (here a command may fail), of the limiter and of the
    upstream, the parsed job, the mode of the fetcher and the readings
    of the clock. *)
Record env : Type := Env {
  brpop : result thrown (option (string * string));
  mget : result thrown (option Z * option Z);   (* cycle id, start, as integers *)
  mget_now : Z;
  acquire : result thrown ();
  fetchStart : Z;
  parsed : result thrown Location;              (* JSON.parse(item[1]) *)
  USE_MOCK : bool;
  mock_env : Fetcher.MockEnv;
  reply : result Fetcher.AxiosError Fetcher.Body;   (* httpClient.get(url) *)
  fetchEnd : Z;
  xadd : result thrown ();
  catch_now : Z;
  notified : result thrown ()
}.

(** What the worker does, in the order it does it. *)
Inductive event : Type :=
| PopReturned (item : option (string * string))
| CycleRead
| AcquireCalled
| AcquireReturned
| FetchCalled (city : string)
| FetchReturned
| OkCounted (cycleId secondOffset : Z)           (* bucket.ok++ *)
| AppendCalled (fields : list string)            (* redis.xadd(...) *)
| AppendReturned
| Printed
| NotifyCalled
| FailCounted (cycleId secondOffset : Z)         (* bucket.fail++ *)
| TimeoutCounted (cycleId secondOffset : Z)      (* bucket.timeout++ *)
| ErrorPrinted
| WorkerDied.                                    (* the catch block threw *)

Section Turn.
(** [String(x)] on a number. *)
Variable String_of_number : JS.number → string.

(** The arguments of [redis.xadd] after the key and the id. *)
Definition stream_fields (result : Fetcher.WeatherPayload) : list string :=
  [ "city_name"; Fetcher.city_name result;
    "latitude"; String_of_number (Fetcher.latitude result);
    "longitude"; String_of_number (Fetcher.longitude result);
    "temperature"; String_of_number (Fetcher.temperature result);
    "weather_condition"; Fetcher.weather_condition result;
    "recorded_at"; Fetcher.recorded_at result ].

Definition count_ok (cycleId secondOffset latencyMs : Z) (a : analytics) : analytics :=
  let found := getBucket cycleId secondOffset (analyticsMap a) in
  let b := found.1 in
  Analytics (<[(cycleId, secondOffset) :=
                 Bucket (ok b + 1) (fail b) (timeout b) (latencies b ++ [latencyMs])]>
               found.2)
            (activeCycleId a) (cycleStartMs a).

Definition count_fail (cycleId secondOffset : Z) (a : analytics) : analytics :=
  let found := getBucket cycleId secondOffset (analyticsMap a) in
  let b := found.1 in
  Analytics (<[(cycleId, secondOffset) :=
                 Bucket (ok b) (fail b + 1) (timeout b) (latencies b)]>
               found.2)
            (activeCycleId a) (cycleStartMs a).

Definition count_timeout (cycleId secondOffset : Z) (a : analytics) : analytics :=
  let found := getBucket cycleId secondOffset (analyticsMap a) in
  let b := found.1 in
  Analytics (<[(cycleId, secondOffset) :=
                 Bucket (ok b) (fail b) (timeout b + 1) (latencies b)]>
               found.2)
            (activeCycleId a) (cycleStartMs a).

(** The [catch] block. *)
Definition on_error (e : env) (err : thrown) (a : analytics) (tr : list event)
  : analytics * list event :=
  let secondOffset := (catch_now e - cycleStartMs a) / 1000 in
  let cycleId := activeCycleId a in
  if bool_decide (status err = Some 429) then
    match notified e with
    | Ok _ =>
        (count_fail cycleId secondOffset a,
         tr ++ [NotifyCalled; FailCounted cycleId secondOffset; ErrorPrinted])
    | Err _ => (touch cycleId secondOffset a, tr ++ [NotifyCalled; WorkerDied])
    end
  else if bool_decide (code err = Some "ECONNABORTED")
          || Fetcher.includes "timeout" (message err) then
    (count_timeout cycleId secondOffset a,
     tr ++ [TimeoutCounted cycleId secondOffset; ErrorPrinted])
  else
    (count_fail cycleId secondOffset a,
     tr ++ [FailCounted cycleId secondOffset; ErrorPrinted]).

(** One turn of the [while (true)] of [runWorker]: the [try] block,
    statement by statement, and the [catch] block on the first throw. *)
Definition turn (e : env) (a : analytics) : analytics * list event :=
  match brpop e with
  | Err err => on_error e err a []
  | Ok None => (a, [PopReturned None])                           (* continue *)
  | Ok (Some item) =>
      let tr := [PopReturned (Some item)] in
      match mget e with
      | Err err => on_error e err a tr
      | Ok (cycleIdStr, startMsStr) =>
          let cycleId := default 0 cycleIdStr in
          let a :=
            if bool_decide (cycleId ≠ activeCycleId a) then
              Analytics (analyticsMap a) cycleId (default (mget_now e) startMsStr)
            else a in
          let tr := tr ++ [CycleRead; AcquireCalled] in
          match acquire e with
          | Err err => on_error e err a tr
          | Ok _ =>
              let tr := tr ++ [AcquireReturned] in
              match parsed e with
              | Err err => on_error e err a tr
              | Ok location =>
                  let tr := tr ++ [FetchCalled (Locations.city_name location)] in
                  match Fetcher.fetchWeather (USE_MOCK e) (mock_env e) location (reply e) with
                  | Err err => on_error e (of_fetch_error err) a tr
                  | Ok result =>
                      let latencyMs := fetchEnd e - fetchStart e in
                      let secondOffset := (fetchStart e - cycleStartMs a) / 1000 in
                      let a := count_ok (activeCycleId a) secondOffset latencyMs a in
                      let tr := tr ++ [FetchReturned;
                                       OkCounted (activeCycleId a) secondOffset;
                                       AppendCalled (stream_fields result)] in
                      match xadd e with
                      | Err err => on_error e err a tr
                      | Ok _ => (a, tr ++ [AppendReturned; Printed])
                      end
                  end
              end
          end
      end
  end.

End Turn.

(** What a line of the reporter shows. *)
Record report : Type := Report {
  r_cycle : Z;
  r_second : Z;
  r_ok : Z;
  r_fail : Z;
  r_timeout : Z;
  r_avg : Z;
  r_p99 : option Z;                  (* [None] is [undefined] *)
  r_totalOk : Z;
  r_totalFail : Z
}.

(** The loop [for (let s = 0; s <= reportSecond; s++)], entered at [s]
    with [n] turns to go. *)
Fixpoint totals (m : gmap (Z * Z) bucket) (cycleId s : Z) (n : nat) (totalOk totalFail : Z)
  : Z * Z :=
  match n with
  | O => (totalOk, totalFail)
  | S n' =>
      match m !! (cycleId, s) with
      | Some b => totals m cycleId (s + 1) n' (totalOk + ok b) (totalFail + (fail b + timeout b))
      | None => totals m cycleId (s + 1) n' totalOk totalFail
      end
  end.

(** The callback of [setInterval] in [startAnalyticsReporter], run at
    time [now] with the [lastReportedSecond] it finds: the line it
    writes, if any, the [lastReportedSecond] it leaves, and the
    analytics, in which [sort] has put the latencies of the reported
    second in order. *)
Definition reporter_tick (now lastReportedSecond : Z) (a : analytics)
  : option report * Z * analytics :=
  if (activeCycleId a =? 0) || (cycleStartMs a =? 0) then (None, lastReportedSecond, a)
  else
    let currentSecond := (now - cycleStartMs a) / 1000 in
    if currentSecond =? lastReportedSecond then (None, lastReportedSecond, a)
    else
      let reportSecond := currentSecond - 1 in
      if reportSecond <? 0 then (None, lastReportedSecond, a)
      else
        let bucket := analyticsMap a !! (activeCycleId a, reportSecond) in
        let lats := from_option latencies [] bucket in
        let avg :=
          match lats with
          | [] => 0
          | _ => Fetcher.Math_round (inject_Z (foldl Z.add 0 lats)
                                     / inject_Z (Z.of_nat (length lats)))
          end in
        let sorted := merge_sort Z.le lats in
        let p99 :=
          match lats with
          | [] => Some 0
          | _ => sorted !! Z.to_nat (Qfloor (inject_Z (Z.of_nat (length lats)) * (99 # 100)))
          end in
        let m :=
          match bucket, lats with
          | Some b, _ :: _ =>
              <[(activeCycleId a, reportSecond) :=
                  Bucket (ok b) (fail b) (timeout b) sorted]> (analyticsMap a)
          | _, _ => analyticsMap a
          end in
        let '(totalOk, totalFail) :=
          totals m (activeCycleId a) 0 (Z.to_nat (reportSecond + 1)) 0 0 in
        (Some (Report (activeCycleId a) reportSecond
                      (from_option ok 0 bucket) (from_option fail 0 bucket)
                      (from_option timeout 0 bucket) avg p99 totalOk totalFail),
         currentSecond,
         Analytics m (activeCycleId a) (cycleStartMs a)).

End Worker.

(* ===================================================================== *)
(** * consumer.ts: the consumer group at startup *)
(* ===================================================================== *)

Module Group.
Import Stream.

(** What the key [weather:raw] may hold when the processor starts: no
    key, a value that is no stream, a stream on which the group was
    never created, or the stream with its group. *)
Inductive key : Type :=
| Absent
| WrongType
| NoGroup (entries : list message)
| Grouped (s : stream).

(** [XGROUP CREATE key group $ MKSTREAM]: the new group starts after the
    last entry of the stream. *)
Definition xgroup_create_mkstream (k : key) : result string key :=
  match k with
  | Absent => Ok (Grouped (Stream_ [] 0 []))
  | WrongType => Err "WRONGTYPE Operation against a key holding the wrong kind of value"
  | NoGroup es => Ok (Grouped (Stream_ es (length es) []))
  | Grouped _ => Err "BUSYGROUP Consumer Group name already exists"
  end.

(** [ensureGroup]: the error of a group that exists is swallowed, any
    other is thrown again. *)
Definition ensureGroup (k : key) : result string key :=
  match xgroup_create_mkstream k with
  | Ok k' => Ok k'
  | Err message =>
      if Fetcher.includes "BUSYGROUP" message then Ok k else Err message
  end.

Section WithHandler.
Variable St : Type.
Variable onRecord : Consumer.WeatherRecord → St → result string () * St.

(** [startConsumer] up to its first loop: [ensureGroup], then the state
    in which the draining starts.  A read on a key without the group
    would fail with NOGROUP. *)
Definition startConsumer (k : key) (h : St)
  : result string (Consumer.phase * Consumer.cstate St) :=
  k' ← ensureGroup k;
  match k' with
  | Grouped b => Ok (Consumer.start St b h)
  | _ => Err "NOGROUP No such key or consumer group"
  end.

End WithHandler.

End Group.


(* ===================================================================== *)
(** * The vocabulary of the statements

    What the theorems below speak of beside the code: views of the
    keyspace, the pairs of a field array, the outcomes of a batch, the
    shape of the consumer's log, the order of a worker's steps, and the
    samples the statements are tried on. *)
(* ===================================================================== *)

(** ** The token bucket of the specification (section 4.1), in its words *)

Module TokenBucketSpec.

Inductive verdict : Type := GRANTED | DENIED.

(** What the script answers to the caller. *)
Definition reply (v : verdict) : Z :=
  match v with GRANTED => 1 | DENIED => 0 end.

(** Steps 1 to 4: [stored] is the pair (tokens, last_refill) under the
    key, [None] when the key is absent. *)
Definition step (C R t : Q) (stored : option (Q * Q)) : verdict * (Q * Q) :=
  let '(tokens, last_refill) := default (C, t) stored in
  let elapsed := Qmax 0 (t - last_refill) in
  let tokens' := Qmin C (tokens + elapsed * R) in
  if Qle_bool 1 tokens' then (GRANTED, ((tokens' - 1)%Q, t))
  else (DENIED, (tokens', t)).

Definition TTL_MS : Z := 60 * 1000.

End TokenBucketSpec.

Section RateLimiterTerms.
Import Redis RateLimiter.

(** The content of the bucket key as the script reads it: [None] for an
    absent (or expired) key, else the two numbers of the hash [h]. *)
Definition holds_bucket (clock : Z) (key : string) (d : db)
    (h : gmap string hval) (stored : option (Q * Q)) : Prop :=
  match stored with
  | None => lookup clock key d = None ∧ h = ∅
  | Some (tokens, last_refill) =>
      (∃ ex, lookup clock key d = Some (Entry (RHash h) ex))
      ∧ h !! "tokens" = Some (HNum tokens)
      ∧ h !! "last_refill" = Some (HNum last_refill)
  end.

(** A run of notifications, each at its own server time. *)
Definition notify_all (cs : list Z) (d : db) : db :=
  foldl (fun d c => notifyThrottled c d) d cs.

End RateLimiterTerms.

Section SchedulerTerms.
Import Redis Locations Scheduler.
Variable JSON_stringify : Location → string.

Definition pushes (locs : list Location) : list command :=
  map (fun loc => LPUSH QUEUE_KEY (JSON_stringify loc)) locs.

End SchedulerTerms.

Section ParseMessageTerms.
Import Consumer.

(** The name/value pairs of a flat field array; a trailing name has no
    value. *)
Fixpoint pairs (fields : list string) : list (string * option string) :=
  match fields with
  | k :: v :: rest => (k, Some v) :: pairs rest
  | [k] => [(k, None)]
  | [] => []
  end.

(** The value an entry gives to the name [k]: that of the last pair
    named [k]; [None] when no pair is named [k] or the last one is a
    trailing name. *)
Definition value_of (k : string) (fields : list string) : option string :=
  foldl (fun acc p => if String.eqb p.1 k then p.2 else acc) None (pairs fields).

(** Text in which [parseFloat] finds no number: empty but for white
    space, or starting with a character that opens no decimal literal. *)
Definition non_numeric (v : string) : bool :=
  match JS.trim_start v with
  | EmptyString => true
  | String c _ =>
      match JS.digit_value c with
      | Some _ => false
      | None =>
          negb (Ascii.eqb c "+" || Ascii.eqb c "-" || Ascii.eqb c "."
                || Ascii.eqb c "I")
      end
  end.

End ParseMessageTerms.

Section ConsumerTerms.
Import Stream Consumer.
Context {St : Type}.
Variable onRecord : WeatherRecord → St → result string () * St.
Variable now_iso : string.

(** What the handler answers on each entry of a batch, in order: it is
    called once per entry, on the state its earlier calls left. *)
Fixpoint outcomes (messages : list message) (h : St) : list (string * bool) :=
  match messages with
  | [] => []
  | (id, fields) :: rest =>
      let '(r, h') := onRecord (parseMessage id fields now_iso) h in
      (id, is_ok r) :: outcomes rest h'
  end.

Fixpoint hstate_after (messages : list message) (h : St) : St :=
  match messages with
  | [] => h
  | (id, fields) :: rest =>
      hstate_after rest (onRecord (parseMessage id fields now_iso) h).2
  end.

(** What the consumer does about one outcome: an [XACK] when the
    handler returned, and an error line when the handler or the [XACK]
    threw. *)
Definition reaction (replies : string → xack_reply) (o : string * bool) : list event :=
  let '(id, ok) := o in
  if ok then
    EvHandled id true :: EvAck id
      :: match replies id with Acked => [] | Rejected _ => [EvLog id] end
  else [EvHandled id false; EvLog id].

(** The stream after the [XACK]s of a batch that reached the broker. *)
Definition acked (replies : string → xack_reply) (outs : list (string * bool))
    (b : stream) : stream :=
  foldl (fun b (o : string * bool) =>
           if o.2 && applied (replies o.1) then xack o.1 b else b) b outs.

(** The logs of the first loop: batches of pending entries, none empty
    and none above [BATCH_SIZE], each followed by the handling of every
    entry it returned. *)
Inductive drain_log : list event → Prop :=
| drain_nil : drain_log []
| drain_batch (l : list event) (ids : list string) (outs : list (string * bool))
    (replies : string → xack_reply) :
    drain_log l → ids ≠ [] → (length ids ≤ BATCH_SIZE)%nat → outs.*1 = ids →
    drain_log (l ++ EvRead FromPending ids :: (outs ≫= reaction replies)).

(** The logs of the second loop: a log of the first loop, the pending
    read that returned none, then reads of new entries, each followed by
    the handling of every entry it returned. *)
Inductive listen_log : list event → Prop :=
| listen_start (l : list event) :
    drain_log l → listen_log (l ++ [EvRead FromPending []])
| listen_batch (l : list event) (ids : list string) (outs : list (string * bool))
    (replies : string → xack_reply) :
    listen_log l → (length ids ≤ BATCH_SIZE)%nat → outs.*1 = ids →
    listen_log (l ++ EvRead FromNew ids :: (outs ≫= reaction replies)).

Definition phase_log (c : phase * cstate St) : Prop :=
  match c.1 with
  | Draining _ => drain_log (log c.2)
  | Listening => listen_log (log c.2)
  end.

End ConsumerTerms.

Section DateTerms.
Import JS.

(** What [civil_of_era] owes on a day of the era. *)
Definition era_day_ok (doe : Z) : bool :=
  let '(y, m, d) := civil_of_era doe in
  let yoe := if m <=? 2 then y - 1 else y in
  (0 <=? yoe) && (yoe <=? 399)
  && (1 <=? m) && (m <=? 12)
  && (1 <=? d) && (d <=? days_in_month y m)
  && (day_of_era yoe m d =? doe).

(** [P] on the [n] integers from [z] on. *)
Fixpoint all_from (P : Z → bool) (n : nat) (z : Z) : bool :=
  match n with
  | O => true
  | S n' => if P z then all_from P n' (z + 1) else false
  end.

End DateTerms.

Section PointTerms.
Import Locations Fetcher.

(** The point the writer builds from an observation whose numbers are
    finite. *)
Definition point_of (city condition : string) (temperature latitude longitude : Q)
    (timestamp : option Z) : InfluxWriter.Point :=
  {| InfluxWriter.measurement := "weather";
     InfluxWriter.tags :=
       <["weather_condition" := condition]> (<["city_name" := city]> ∅);
     InfluxWriter.fields :=
       <["longitude" := longitude]>
         (<["latitude" := latitude]> (<["temperature" := temperature]> ∅));
     InfluxWriter.timestamp := timestamp |}.

(** The time an observation is stamped with: the clock of the fetcher
    in mock mode, the time the upstream reports otherwise. *)
Definition source_time (USE_MOCK : bool) (env : MockEnv)
    (reply : result AxiosError Body) : option Z :=
  if USE_MOCK then Some (date_now env)
  else
    match reply with
    | Ok {| current_weather := Some cw |} => Some (cw_time cw * 1000)
    | _ => None
    end.

End PointTerms.

Section WorkerTerms.
Import Worker.

Definition is_acquire_returned (e : event) : bool :=
  match e with AcquireReturned => true | _ => false end.
Definition is_fetch_called (e : event) : bool :=
  match e with FetchCalled _ => true | _ => false end.
Definition is_ok_counted (e : event) : bool :=
  match e with OkCounted _ _ => true | _ => false end.
Definition is_append_called (e : event) : bool :=
  match e with AppendCalled _ => true | _ => false end.
Definition is_append_returned (e : event) : bool :=
  match e with AppendReturned => true | _ => false end.

(** Every step of kind [later] in the trace has a step of kind
    [earlier] strictly before it. *)
Definition preceded_by (earlier later : event → bool) (tr : list event) : Prop :=
  ∀ (j : nat) e, tr !! j = Some e → later e = true →
    ∃ (i : nat) e', (i < j)%nat ∧ tr !! i = Some e' ∧ earlier e' = true.

(** Every step of kind [first] comes strictly before every step of
    kind [second]. *)
Definition strictly_before (first second : event → bool) (tr : list event) : Prop :=
  ∀ (i j : nat) e e', tr !! i = Some e → tr !! j = Some e' →
    first e = true → second e' = true → (i < j)%nat.

(** The steps the [catch] block adds are none of the five above. *)
Definition quiet (e : event) : bool :=
  negb (is_acquire_returned e || is_fetch_called e || is_ok_counted e
        || is_append_called e || is_append_returned e).

(** The steps of a turn whose [try] block runs to its end. *)
Definition full_trace (item : string * string) (city : string) (cycleId secondOffset : Z)
    (fields : list string) : list event :=
  [PopReturned (Some item); CycleRead; AcquireCalled; AcquireReturned;
   FetchCalled city; FetchReturned; OkCounted cycleId secondOffset;
   AppendCalled fields; AppendReturned; Printed].

End WorkerTerms.

(** ** Runs of the rate limiter *)

Section RateLimiterRuns.
Import Redis RateLimiter.

(** The bucket key as the script leaves it after a call at server time
    [c0]: absent, or a hash with a count between 0 and the capacity, the
    time of the call and a deadline 60 s after it. *)
Definition bucket_ok (c0 : Z) (d : db) : Prop :=
  d !! BUCKET_KEY = None
  ∨ ∃ h T,
      d !! BUCKET_KEY = Some (Entry (RHash h) (Some (c0 + 60000)))
      ∧ h !! "tokens" = Some (HNum T)
      ∧ h !! "last_refill" = Some (HNum (inject_Z c0 / 1000))
      ∧ (0 <= T)%Q ∧ (T <= 8)%Q.

(** The count the bucket key stores; a key that is absent counts as
    full. *)
Definition bucket_level (d : db) : Q :=
  match d !! BUCKET_KEY with
  | Some (Entry (RHash h) _) =>
      match h !! "tokens" with Some (HNum T) => T | _ => 8%Q end
  | _ => 8%Q
  end.

(** The tokens a call at [c] finds, after a last call at [c0]. *)
Definition bucket_stock (c0 c : Z) (d : db) : Q :=
  Qmin 8 (bucket_level d + (inject_Z c / 1000 - inject_Z c0 / 1000) * 8).

(** What the clients of the limiter do to the keyspace: a turn of
    [acquire] or a [notifyThrottled], each at its time (the clocks of
    the clients and of the server agree). *)
Inductive limiter_op : Type :=
| Turn (c : Z)
| Throttled (c : Z).

Definition time_of (o : limiter_op) : Z :=
  match o with Turn c => c | Throttled c => c end.

(** A run of operations: the rounds of the turns, in order, and the
    keyspace left. *)
Fixpoint limiter_run (ops : list limiter_op) (d : db)
  : result error (list acquire_round * db) :=
  match ops with
  | [] => Ok ([], d)
  | Turn c :: ops' =>
      r ← acquire_turn c c d;
      rest ← limiter_run ops' (snd r);
      Ok (fst r :: fst rest, snd rest)
  | Throttled c :: ops' => limiter_run ops' (notifyThrottled c d)
  end.

Definition is_granted (r : acquire_round) : bool :=
  match r with Granted => true | _ => false end.

Definition grants (rounds : list acquire_round) : nat :=
  length (filter (fun r => is_granted r = true) rounds).

(** Times that never go back, starting at [c]. *)
Fixpoint in_order (c : Z) (ops : list limiter_op) : Prop :=
  match ops with
  | [] => True
  | o :: ops' => c ≤ time_of o ∧ in_order (time_of o) ops'
  end.

Definition last_time (c : Z) (ops : list limiter_op) : Z :=
  foldl (fun _ o => time_of o) c ops.

(** The time at which a cooldown found at [c] is over. *)
Definition resume (c : Z) (d : db) : Z :=
  if 0 <? pttl c COOLDOWN_KEY d then c + pttl c COOLDOWN_KEY d else c.

End RateLimiterRuns.

(** ** The queue of a cycle *)

Section QueueTerms.
Import Redis Scheduler.

(** The workers' pops, one per time of [cs], in the order the server
    runs them: what each returned and the keyspace left. *)
Fixpoint pops (cs : list Z) (d : db) : result error (list (option string) * db) :=
  match cs with
  | [] => Ok ([], d)
  | c :: cs' =>
      r ← rpop c QUEUE_KEY d;
      rest ← pops cs' (snd r);
      Ok (fst r :: fst rest, snd rest)
  end.

(** The queue key holds exactly the list [l], with no deadline; an empty
    list is no key at all. *)
Definition queue_is (l : list string) (d : db) : Prop :=
  match l with
  | [] => d !! QUEUE_KEY = None
  | _ => d !! QUEUE_KEY = Some (Entry (RList l) None)
  end.

End QueueTerms.

(** ** Decimal text *)

(** The value of a run of decimal digits read from the left. *)
Fixpoint uint_acc (u : Decimal.uint) (acc : Z) : Z :=
  match u with
  | Decimal.Nil => acc
  | Decimal.D0 u => uint_acc u (acc * 10 + 0)
  | Decimal.D1 u => uint_acc u (acc * 10 + 1)
  | Decimal.D2 u => uint_acc u (acc * 10 + 2)
  | Decimal.D3 u => uint_acc u (acc * 10 + 3)
  | Decimal.D4 u => uint_acc u (acc * 10 + 4)
  | Decimal.D5 u => uint_acc u (acc * 10 + 5)
  | Decimal.D6 u => uint_acc u (acc * 10 + 6)
  | Decimal.D7 u => uint_acc u (acc * 10 + 7)
  | Decimal.D8 u => uint_acc u (acc * 10 + 8)
  | Decimal.D9 u => uint_acc u (acc * 10 + 9)
  end.

(** Two numbers with the same value. *)
Definition same_number (x y : JS.number) : Prop :=
  match x, y with
  | JS.Finite p, JS.Finite q => (p == q)%Q
  | JS.NaN, JS.NaN => True
  | JS.Infinity a, JS.Infinity b => a = b
  | _, _ => False
  end.

(** ** What the consumer was given *)

Section DeliveryTerms.
Import Stream Consumer.

(** The ids the handler was called on, in order. *)
Definition handled_ids (l : list event) : list string :=
  omap (fun e => match e with EvHandled id _ => Some id | _ => None end) l.

(** The entries the group has delivered. *)
Definition delivered_entries (s : stream) : list message :=
  take (delivered s) (entries s).

End DeliveryTerms.

(** ** The waits of a request *)

(** The sum of a list of delays. *)
Definition total_wait (ds : list Q) : Q := foldr Qplus 0%Q ds.

(** The caps, in ms, of the delays before the retries after retry [k]. *)
Definition caps_after (k : nat) : list Z :=
  drop k [2000; 4000; 8000; 16000; 32000].

(** An error whose answer, if it has one, carries no Retry-After header
    or an empty one: the delay of its retry is drawn. *)
Definition no_retry_after (e : Fetcher.AxiosError) : Prop :=
  ∀ r, Fetcher.response e = Some r →
    Fetcher.retry_after r = None ∨ Fetcher.retry_after r = Some "".

(** The time, in ms, that [n] failed attempts and the delays drawn after
    them take, [k] retries having been made before: for each failure
    what the attempt took and the draw times the cap of the retry. *)
Fixpoint spent (k n : nat) (durations : list Z) (randoms : list Q) : Q :=
  match n with
  | O => 0
  | S n' =>
      inject_Z (default 0 (head durations))
      + default 0%Q (head randoms) * inject_Z (Z.min 32000 (1000 * 2 ^ Z.of_nat (S k)))
      + spent (S k) n' (tail durations) (tail randoms)
  end.

(** ** The analytics of the workers *)

Section AnalyticsTerms.
Import Worker.

(** A counter summed over all the records of [analyticsMap]. *)
Definition sum_of (f : bucket → Z) (a : analytics) : Z :=
  map_fold (fun _ b s => s + f b) 0 (analyticsMap a).

Definition is_fail_counted (e : event) : bool :=
  match e with FailCounted _ _ => true | _ => false end.
Definition is_timeout_counted (e : event) : bool :=
  match e with TimeoutCounted _ _ => true | _ => false end.
Definition is_notify_called (e : event) : bool :=
  match e with NotifyCalled => true | _ => false end.

(** The steps other than a call of [notifyThrottled] and the death of
    the worker. *)
Definition is_plain (x : event) : bool :=
  match x with NotifyCalled | WorkerDied => false | _ => true end.

(** How many steps of a kind a trace has. *)
Definition count_steps (kind : event → bool) (tr : list event) : Z :=
  Z.of_nat (length (List.filter kind tr)).

(** Ticks of the reporter, each at its time and on the analytics it
    finds: the lines written. *)
Fixpoint reporter_run (ticks : list (Z * analytics)) (lastReportedSecond : Z)
  : list report :=
  match ticks with
  | [] => []
  | (now, a) :: rest =>
      let r := reporter_tick now lastReportedSecond a in
      match r.1.1 with
      | Some line => line :: reporter_run rest r.1.2
      | None => reporter_run rest r.1.2
      end
  end.

(** Times that follow [t] with no step back and none above 1000 ms. *)
Fixpoint paced (t : Z) (ts : list Z) : Prop :=
  match ts with
  | [] => True
  | t' :: rest => t ≤ t' ≤ t + 1000 ∧ paced t' rest
  end.

End AnalyticsTerms.

(** ** Samples *)

(** A batch of two entries handled by the processor: the first is
    written and acknowledged, the second has a latitude that is no
    number, the writer refuses it and it stays pending. *)
Definition sample_good : Stream.message :=
  ("1700000000000-0",
   ["city_name"; "Oslo"; "latitude"; "59.91"; "longitude"; "10.75";
    "temperature"; "-3.5"; "weather_condition"; "Overcast";
    "recorded_at"; "2023-11-14T22:13:20.000Z"]).

Definition sample_bad : Stream.message :=
  ("1700000000000-1",
   ["city_name"; "Oslo"; "latitude"; "n/a"; "longitude"; "10.75";
    "temperature"; "-3.5"; "weather_condition"; "Overcast";
    "recorded_at"; "2023-11-14T22:13:20.000Z"]).

(** The network class of axios-retry, in short: an error without a
    response that carries a code other than a timeout's. *)
Definition sample_isNetworkError (e : Fetcher.AxiosError) : bool :=
  match Fetcher.response e, Fetcher.code e with
  | None, Some c => negb (String.eqb c "ECONNABORTED")
  | _, _ => false
  end.

Definition http_error (status : Z) (retry_after : option string) : Fetcher.AxiosError :=
  {| Fetcher.response := Some {| Fetcher.status := status;
                                 Fetcher.retry_after := retry_after |};
     Fetcher.code := Some "ERR_BAD_RESPONSE";
     Fetcher.message := "Request failed with status code " +:+ Dec.string_of_Z status |}.

Definition sample_env : Fetcher.MockEnv :=
  {| Fetcher.date_now := 1700000050123; Fetcher.month := 10;
     Fetcher.random_noise := 1 # 2; Fetcher.random_roll := 1 # 2 |}.

Definition sample_oslo : Locations.Location :=
  {| Locations.city_name := "Oslo";
     Locations.latitude := 5991 # 100;
     Locations.longitude := 1075 # 100 |}.

Definition sample_reply : result Fetcher.AxiosError Fetcher.Body :=
  Ok {| Fetcher.current_weather :=
          Some {| Fetcher.cw_temperature := - (7 # 2);
                  Fetcher.cw_weathercode := 3;
                  Fetcher.cw_time := 1700000000 |} |}.

(** A turn in which every step succeeds. *)
Definition sample_turn : Worker.env :=
  {| Worker.brpop := Ok (Some ("weather:locations:queue", "{...}"));
     Worker.mget := Ok (Some 42, Some 1700000040000);
     Worker.mget_now := 1700000050000;
     Worker.acquire := Ok ();
     Worker.fetchStart := 1700000050010;
     Worker.parsed := Ok sample_oslo;
     Worker.USE_MOCK := false;
     Worker.mock_env := sample_env;
     Worker.reply := sample_reply;
     Worker.fetchEnd := 1700000050123;
     Worker.xadd := Ok ();
     Worker.catch_now := 1700000050200;
     Worker.notified := Ok () |}.

(** The same turn in mock mode. *)
Definition sample_turn_mock : Worker.env :=
  {| Worker.brpop := Ok (Some ("weather:locations:queue", "{...}"));
     Worker.mget := Ok (Some 42, Some 1700000040000);
     Worker.mget_now := 1700000050000;
     Worker.acquire := Ok ();
     Worker.fetchStart := 1700000050010;
     Worker.parsed := Ok sample_oslo;
     Worker.USE_MOCK := true;
     Worker.mock_env := sample_env;
     Worker.reply := sample_reply;
     Worker.fetchEnd := 1700000050123;
     Worker.xadd := Ok ();
     Worker.catch_now := 1700000050200;
     Worker.notified := Ok () |}.

(** A catalog of two locations, and the name of the city standing for
    the JSON text of a location. *)
Definition sample_quito : Locations.Location :=
  {| Locations.city_name := "Quito";
     Locations.latitude := - (18 # 100);
     Locations.longitude := - (7847 # 100) |}.

Definition sample_catalog : list Locations.Location := [sample_oslo; sample_quito].

Definition sample_stringify (loc : Locations.Location) : string :=
  Locations.city_name loc.

(** A handler that keeps the ids of the records it is given and never
    fails. *)
Definition sample_keep (r : Consumer.WeatherRecord) (h : list string)
  : result string () * list string :=
  (Ok (), h ++ [Consumer.id r]).

(** A stream of two entries, both delivered and pending. *)
Definition sample_stream : Stream.stream :=
  Stream.Stream_ [sample_good; sample_bad] 2 [sample_good; sample_bad].

(** Every [XACK] is answered. *)
Definition sample_replies (id : string) : Consumer.xack_reply := Consumer.Acked.

(** A turn whose request fails, retries included, with status 429. *)
Definition sample_turn_429 : Worker.env :=
  {| Worker.brpop := Ok (Some ("weather:locations:queue", "{...}"));
     Worker.mget := Ok (Some 42, Some 1700000040000);
     Worker.mget_now := 1700000050000;
     Worker.acquire := Ok ();
     Worker.fetchStart := 1700000050010;
     Worker.parsed := Ok sample_oslo;
     Worker.USE_MOCK := false;
     Worker.mock_env := sample_env;
     Worker.reply := Err (http_error 429 None);
     Worker.fetchEnd := 1700000050123;
     Worker.xadd := Ok ();
     Worker.catch_now := 1700000050200;
     Worker.notified := Ok () |}.

(** The analytics of cycle 42 after three successes and a failure in
    its first second. *)
Definition sample_analytics : Worker.analytics :=
  Worker.Analytics (<[(42, 0) := Worker.Bucket 3 1 0 [120; 80; 100]]> ∅)
                   42 1700000040000.

(* ===================================================================== *)
(** * Theorems: rate limiter *)
(* ===================================================================== *)

Section RateLimiterFacts.
Import Redis RateLimiter.

Lemma math_max_Qmax (a b : Q) : math_max a b = Qmax a b.
Proof.
  unfold math_max, Qmax, GenericMinMax.gmax.
  rewrite <- (Qcompare_antisym a b). by destruct (a ?= b)%Q.
Qed.

Lemma math_min_Qmin (a b : Q) : math_min a b = Qmin a b.
Proof.
  unfold math_min, Qmin, GenericMinMax.gmin.
  rewrite <- (Qcompare_antisym a b). by destruct (a ?= b)%Q.
Qed.

Lemma lookup_live clock k (d : db) e :
  lookup clock k d = Some e → live clock e = true.
Proof.
  unfold lookup. destruct (d !! k) as [e'|]; [|done].
  destruct (live clock e') eqn:Hl; naive_solver.
Qed.

Lemma lookup_insert_live clock k (d : db) e :
  live clock e = true → lookup clock k (<[k := e]> d) = Some e.
Proof. intros Hl. unfold lookup. by rewrite lookup_insert_eq, Hl. Qed.

(** C1.  Run with capacity 8, rate 8 per second and time [t], the script
    computes the refill of the specification from the stored pair (or
    from (C, t) when the key is absent), writes the new pair under the
    key with a deadline 60 s ahead and answers 1 (granted) exactly when
    the refilled count reaches 1.  Outside a cooldown a turn of
    [acquire] runs it so on the bucket key, with [t = Date.now() / 1000],
    and returns exactly when it is granted. *)
Theorem C1_consume_lua_refines_spec
    (clock : Z) (key : string) (t : Q) (d : db)
    (h : gmap string hval) (stored : option (Q * Q)) :
  holds_bucket clock key d h stored →
  let '(v, (tokens1, t1)) := TokenBucketSpec.step 8 8 t stored in
  let d' := <[key := Entry (RHash (<["last_refill" := HNum t1]>
                                   (<["tokens" := HNum tokens1]> h)))
                           (Some (clock + TokenBucketSpec.TTL_MS))]> d in
  CONSUME_LUA clock key CAPACITY MAX_RPS t d = Ok (TokenBucketSpec.reply v, d')
  ∧ ∀ date_now,
      key = BUCKET_KEY → t = (inject_Z date_now / 1000)%Q →
      pttl clock COOLDOWN_KEY d ≤ 0 →
      acquire_turn clock date_now d
      = Ok (match v with
            | TokenBucketSpec.GRANTED => Granted
            | TokenBucketSpec.DENIED => Denied
            end, d').
Proof.
  intros Hb.
  destruct (TokenBucketSpec.step 8 8 t stored) as [v [tokens1 t1]] eqn:Hstep.
  cbv zeta.
  assert (Hscript :
    CONSUME_LUA clock key CAPACITY MAX_RPS t d
    = Ok (TokenBucketSpec.reply v,
          <[key := Entry (RHash (<["last_refill" := HNum t1]>
                                 (<["tokens" := HNum tokens1]> h)))
                         (Some (clock + TokenBucketSpec.TTL_MS))]> d)).
  { revert Hstep.
    unfold TokenBucketSpec.step, CONSUME_LUA, CAPACITY, MAX_RPS.
    destruct stored as [[tk lr]|]; simpl in Hb; simpl default; cbv iota beta.
    - destruct Hb as ([ex Hl] & Htk & Hlr).
      pose proof (lookup_live _ _ _ _ Hl) as Hlive.
      unfold hmget2, hmset2. rewrite Hl. simpl. rewrite Htk, Hlr. simpl.
      rewrite math_max_Qmax, math_min_Qmin.
      destruct (Qle_bool 1 _); intros [= <- <- <-]; simpl; unfold expire;
        rewrite lookup_insert_live by done; simpl;
        by rewrite insert_insert_eq.
    - destruct Hb as [Hl ->].
      unfold hmget2, hmset2. rewrite Hl. simpl.
      rewrite math_max_Qmax, math_min_Qmin.
      destruct (Qle_bool 1 _); intros [= <- <- <-]; simpl; unfold expire;
        rewrite lookup_insert_live by done; simpl;
        by rewrite insert_insert_eq. }
  split; [exact Hscript|].
  intros date_now -> -> Hcool. unfold acquire_turn.
  replace (0 <? pttl clock COOLDOWN_KEY d) with false by lia.
  rewrite Hscript. by destruct v.
Qed.

(** A bucket holding half a token, read 50 ms after its last refill:
    the refill brings 0.9 tokens, the script denies. *)
Lemma C1_consume_lua_witness :
  let h : gmap string hval :=
    <["last_refill" := HNum 10]> (<["tokens" := HNum (1 # 2)]> ∅) in
  let d : db := <[BUCKET_KEY := Entry (RHash h) (Some 70000)]> ∅ in
  holds_bucket 10050 BUCKET_KEY d h (Some ((1 # 2)%Q, 10%Q))
  ∧ ∃ tokens1 d',
      CONSUME_LUA 10050 BUCKET_KEY CAPACITY MAX_RPS (201 # 20) d = Ok (0, d')
      ∧ d' !! BUCKET_KEY
        = Some (Entry (RHash (<["last_refill" := HNum (201 # 20)]>
                              (<["tokens" := HNum tokens1]> h)))
                      (Some 70050))
      ∧ (tokens1 == 9 # 10)%Q.
Proof.
  intros h d.
  assert (Hb : holds_bucket 10050 BUCKET_KEY d h (Some ((1 # 2)%Q, 10%Q))).
  { split; [|split]; [by eexists | done | done]. }
  split; [exact Hb|].
  pose proof (C1_consume_lua_refines_spec 10050 BUCKET_KEY (201 # 20) d h _ Hb) as H.
  remember (TokenBucketSpec.step 8 8 (201 # 20) (Some ((1 # 2)%Q, 10%Q))) as r eqn:Hr.
  vm_compute in Hr. subst r. cbv beta iota zeta in H. destruct H as [H _].
  eexists _, _. split; [exact H|]. split; [by rewrite lookup_insert_eq|].
  reflexivity.
Defined.

(** [SET ... NX] on a live key changes nothing. *)
Lemma notifyThrottled_active (clock : Z) (d : db) :
  lookup clock COOLDOWN_KEY d ≠ None → notifyThrottled clock d = d.
Proof.
  intros Hl. unfold notifyThrottled, set_ex_nx.
  by destruct (lookup clock COOLDOWN_KEY d).
Qed.

Lemma notifyThrottled_fresh (clock : Z) (d : db) :
  lookup clock COOLDOWN_KEY d = None →
  notifyThrottled clock d
  = <[COOLDOWN_KEY := Entry (RString "1") (Some (clock + 30000))]> d.
Proof. intros Hl. unfold notifyThrottled, set_ex_nx. by rewrite Hl. Qed.

(** C8.  [notifyThrottled] writes the cooldown key, with a deadline 30 s
    ahead, only when the key is absent.  Called while a cooldown is
    active it changes nothing, so the time the cooldown has left is the
    same before and after; and whatever notifications follow a first
    one within its 30 s, the keyspace stays the one the first
    notification left. *)
Theorem C8_first_throttle_wins (c1 : Z) (cs : list Z) (d : db) :
  lookup c1 COOLDOWN_KEY d = None →
  Forall (fun c => c1 ≤ c < c1 + COOLDOWN_S * 1000) cs →
  notifyThrottled c1 d !! COOLDOWN_KEY
    = Some (Entry (RString "1") (Some (c1 + COOLDOWN_S * 1000)))
  ∧ notify_all cs (notifyThrottled c1 d) = notifyThrottled c1 d
  ∧ (∀ c (d0 : db), lookup c COOLDOWN_KEY d0 ≠ None →
       notifyThrottled c d0 = d0
       ∧ ∀ c', pttl c' COOLDOWN_KEY (notifyThrottled c d0)
               = pttl c' COOLDOWN_KEY d0).
Proof.
  intros Hfresh Hcs.
  rewrite (notifyThrottled_fresh _ _ Hfresh).
  split; [by rewrite lookup_insert_eq|]. split.
  - induction Hcs as [|c cs Hc _ IH]; [done|].
    simpl. rewrite notifyThrottled_active; [exact IH|].
    unfold lookup. rewrite lookup_insert_eq. unfold live. simpl.
    unfold COOLDOWN_S in Hc.
    destruct (c <? c1 + 30000) eqn:E; [done|]. lia.
  - intros c d0 Hl. split; [by apply notifyThrottled_active|].
    intros c'. by rewrite notifyThrottled_active.
Qed.

Lemma C8_first_throttle_wins_witness :
  let d : db := ∅ in
  lookup 1000 COOLDOWN_KEY d = None
  ∧ Forall (fun c => 1000 ≤ c < 1000 + COOLDOWN_S * 1000) [1000; 1003; 30999]
  ∧ notify_all [1000; 1003; 30999] (notifyThrottled 1000 d)
    = notifyThrottled 1000 d.
Proof.
  intros d.
  assert (H1 : lookup 1000 COOLDOWN_KEY d = None) by done.
  assert (H2 : Forall (fun c => 1000 ≤ c < 1000 + COOLDOWN_S * 1000)
                 [1000; 1003; 30999]).
  { unfold COOLDOWN_S. repeat constructor; lia. }
  split; [exact H1|]. split; [exact H2|].
  exact (proj1 (proj2 (C8_first_throttle_wins 1000 _ d H1 H2))).
Defined.

End RateLimiterFacts.

(* ===================================================================== *)
(** * Theorems: decimal text *)
(* ===================================================================== *)

Lemma Z_to_int_proper (z : Z) :
  Z.to_int z ≠ Decimal.Pos Decimal.Nil ∧ Z.to_int z ≠ Decimal.Neg Decimal.Nil.
Proof.
  destruct z as [|p|p]; simpl; split; try discriminate;
    intros [= H]; by apply DecimalPos.Unsigned.to_uint_nonnil in H.
Qed.

Lemma Z_of_string_of_Z (z : Z) : Dec.Z_of_string (Dec.string_of_Z z) = Some z.
Proof.
  unfold Dec.Z_of_string, Dec.string_of_Z.
  destruct (Z_to_int_proper z) as [H1 H2].
  rewrite NilZero.isi by done. rewrite DecimalZ.of_to.
  by rewrite String.eqb_refl.
Qed.

Lemma Z_of_string_inv (s : string) (z : Z) :
  Dec.Z_of_string s = Some z → s = Dec.string_of_Z z.
Proof.
  unfold Dec.Z_of_string. destruct (NilZero.int_of_string s) as [d|]; [|done].
  destruct (String.eqb_spec (Dec.string_of_Z (Z.of_int d)) s); naive_solver.
Qed.

(* ===================================================================== *)
(** * Theorems: scheduler *)
(* ===================================================================== *)

Section SchedulerFacts.
Import Redis Locations Scheduler.
Variable ALL_LOCATIONS : list Location.
Variable JSON_stringify : Location → string.

(** Pushing a run of locations on a queue that is absent or a list never
    fails and stacks them on the left end. *)
Lemma exec_pushes (clock : Z) (locs : list Location) (d : db) (l : list string) :
  queue clock d = Some l →
  ∃ d', exec clock (pushes JSON_stringify locs) d = (replicate (length locs) None, d')
    ∧ queue clock d' = Some (rev (map JSON_stringify locs) ++ l)
    ∧ ∀ k, k ≠ QUEUE_KEY → d' !! k = d !! k.
Proof.
  revert d l. induction locs as [|loc locs IH]; intros d l Hq.
  - by exists d.
  - simpl. unfold lpush.
    unfold queue in Hq.
    destruct (lookup clock QUEUE_KEY d) as [[[s|l0|h] ex]|] eqn:Hl; try done.
    + injection Hq as <-.
      pose proof (lookup_live _ _ _ _ Hl) as Hlive.
      destruct (IH (<[QUEUE_KEY := Entry (RList (JSON_stringify loc :: l0)) ex]> d)
                  (JSON_stringify loc :: l0)) as (d' & He & Hq' & Hk).
      { unfold queue. by rewrite lookup_insert_live. }
      fold (pushes JSON_stringify locs). rewrite He. exists d'. split; [done|]. split.
      * rewrite Hq'. by rewrite <- app_assoc.
      * intros k Hne. rewrite Hk by done. by rewrite lookup_insert_ne.
    + injection Hq as <-.
      destruct (IH (<[QUEUE_KEY := Entry (RList [JSON_stringify loc]) None]> d)
                  [JSON_stringify loc]) as (d' & He & Hq' & Hk).
      { unfold queue. by rewrite lookup_insert_live. }
      fold (pushes JSON_stringify locs). rewrite He. exists d'. split; [done|]. split.
      * rewrite Hq'. by rewrite <- app_assoc.
      * intros k Hne. rewrite Hk by done. by rewrite lookup_insert_ne.
Qed.

Lemma lookup_other (clock : Z) (k : string) (d d' : db) :
  d' !! k = d !! k → lookup clock k d' = lookup clock k d.
Proof. unfold lookup. by intros ->. Qed.

(** C2.  When the cycle counter holds an integer below the 64-bit limit
    (or is absent), [enqueueLocations] completes; the counter is then one
    higher, the batch it issued is the write of the start time, the
    delete of the queue and then one push per location, no command of
    the batch failed, and the queue holds exactly the locations of the
    catalog, whatever it held before. *)
Theorem C2_enqueue_refreshes_queue (clock date_now n : Z) (d : db) :
  cycle_id clock d = Some n →
  - int64_max - 1 ≤ n < int64_max →
  ∃ d',
    enqueueLocations ALL_LOCATIONS JSON_stringify clock date_now d = Ok (n + 1, d')
    ∧ cycle_id clock d' = Some (n + 1)
    ∧ pipeline ALL_LOCATIONS JSON_stringify date_now
      = SET CYCLE_START (Dec.string_of_Z date_now) :: DEL QUEUE_KEY
        :: map (fun loc => LPUSH QUEUE_KEY (JSON_stringify loc)) ALL_LOCATIONS
    ∧ Forall (fun r => r = None)
        (fst (exec clock (pipeline ALL_LOCATIONS JSON_stringify date_now)
                (match incr clock CYCLE_KEY d with Ok r => snd r | Err _ => d end)))
    ∧ queue clock d' = Some (rev (map JSON_stringify ALL_LOCATIONS))
    ∧ llen clock QUEUE_KEY d' = Ok (Z.of_nat (length ALL_LOCATIONS)).
Proof.
  intros Hc Hn. unfold enqueueLocations.
  assert (∃ d1, incr clock CYCLE_KEY d = Ok (n + 1, d1)
                ∧ cycle_id clock d1 = Some (n + 1)) as (d1 & Hi & Hc1).
  { unfold cycle_id in Hc. unfold incr.
    destruct (lookup clock CYCLE_KEY d) as [[[s|l|h] ex]|] eqn:Hl; try done.
    - rewrite Hc.
      replace ((n <? - int64_max - 1) || (int64_max <? n)) with false by lia.
      replace (n =? int64_max) with false by lia.
      eexists. split; [done|]. unfold cycle_id.
      rewrite lookup_insert_live by (by apply lookup_live in Hl).
      apply Z_of_string_of_Z.
    - injection Hc as <-. eexists. split; [done|]. unfold cycle_id.
      rewrite lookup_insert_live by done. apply Z_of_string_of_Z. }
  rewrite Hi. simpl.
  set (d2 := del QUEUE_KEY (set CYCLE_START (Dec.string_of_Z date_now) d1)).
  destruct (exec_pushes clock ALL_LOCATIONS d2 []) as (d' & He & Hq & Hk).
  { unfold queue, lookup, d2, del. by rewrite lookup_delete_eq. }
  fold (pushes JSON_stringify ALL_LOCATIONS). rewrite He. exists d'.
  rewrite app_nil_r in Hq.
  split; [done|]. split.
  { unfold cycle_id. rewrite (lookup_other clock CYCLE_KEY d1 d'); [exact Hc1|].
    rewrite Hk by done. unfold d2, del, set.
    rewrite lookup_delete_ne by done. by rewrite lookup_insert_ne. }
  split; [done|]. split.
  { simpl. constructor; [done|]. constructor; [done|].
    clear. induction (length ALL_LOCATIONS); by constructor. }
  split; [done|].
  unfold queue in Hq. unfold llen.
  destruct (lookup clock QUEUE_KEY d') as [[[s|l|h] ex]|]; try done.
  - injection Hq as ->. by rewrite length_rev, length_map.
  - injection Hq as Hq. destruct ALL_LOCATIONS; [done|].
    simpl in Hq. by destruct (rev _).
Qed.

End SchedulerFacts.

(** Cycle 42 over a catalog of two, with a stale job left in the queue. *)
Lemma C2_enqueue_witness :
  let london := {| Locations.city_name := "London";
                   Locations.latitude := 5151 # 100;
                   Locations.longitude := - (13 # 100) |} in
  let tokyo := {| Locations.city_name := "Tokyo";
                  Locations.latitude := 3569 # 100;
                  Locations.longitude := 13969 # 100 |} in
  let d : Redis.db :=
    <[Scheduler.CYCLE_KEY := Redis.Entry (Redis.RString "41") None]>
      (<[Scheduler.QUEUE_KEY := Redis.Entry (Redis.RList ["stale"]) None]> ∅) in
  Scheduler.cycle_id 0 d = Some 41
  ∧ ∃ d', Scheduler.enqueueLocations [london; tokyo] Locations.city_name
            0 1700000000000 d = Ok (42, d')
          ∧ Scheduler.queue 0 d' = Some ["Tokyo"; "London"].
Proof.
  intros london tokyo d.
  assert (Hc : Scheduler.cycle_id 0 d = Some 41) by (vm_compute; reflexivity).
  split; [exact Hc|].
  destruct (C2_enqueue_refreshes_queue [london; tokyo] Locations.city_name
              0 1700000000000 41 d Hc) as (d' & He & _ & _ & _ & Hq & _).
  { unfold Redis.int64_max. lia. }
  exists d'. split; [exact He | exact Hq].
Defined.


(* ===================================================================== *)
(** * Theorems: parsing a stream entry *)
(* ===================================================================== *)

Section ParseMessageFacts.
Import Consumer.

Lemma fill_pairs (fields : list string) (i : nat) (m : jsobject) :
  fill fields i m = foldl (fun m p => assign m p.1 p.2) m (pairs (drop i fields)).
Proof.
  funelim (fill fields i m).
  - clear Heqcall. rewrite H. clear H.
    rewrite (drop_S _ _ _ e).
    replace (i + 2)%nat with (S (S i)) by lia.
    replace (i + 1)%nat with (S i) by lia.
    destruct (fields !! S i) as [v|] eqn:Hv.
    + by rewrite (drop_S _ _ _ Hv).
    + apply lookup_ge_None in Hv.
      rewrite (drop_ge fields (S i)) by lia.
      by rewrite (drop_ge fields (S (S i))) by lia.
  - clear H Heqcall. apply lookup_ge_None in e. by rewrite drop_ge.
Qed.

Lemma get_or_fold (k dflt : string) (ps : list (string * option string))
    (m : jsobject) :
  k ≠ "__proto__" →
  get_or (foldl (fun m p => assign m p.1 p.2) m ps) k dflt
  = default dflt
      (foldl (fun acc p => if String.eqb p.1 k then p.2 else acc)
             (mjoin (m !! k)) ps).
Proof.
  intros Hk. revert m. induction ps as [|[k' v] ps IH]; intros m.
  - unfold get_or. simpl. by destruct (m !! k) as [[?|]|].
  - simpl. rewrite IH. f_equal. f_equal. unfold assign.
    destruct (String.eqb_spec k' "__proto__") as [->|Hp].
    + destruct (String.eqb_spec "__proto__" k); congruence.
    + destruct (String.eqb_spec k' k) as [->|Hne].
      * by rewrite lookup_insert_eq.
      * by rewrite lookup_insert_ne.
Qed.

Lemma get_or_fill (k dflt : string) (fields : list string) :
  k ≠ "__proto__" →
  get_or (fill fields 0 ∅) k dflt = default dflt (value_of k fields).
Proof.
  intros Hk. rewrite fill_pairs, get_or_fold by done.
  by rewrite lookup_empty.
Qed.

Lemma pairs_names (fields : list string) :
  (∀ p, p ∈ pairs fields → p.1 ∈ fields)
  ∧ ∀ x, ∀ p, p ∈ pairs (x :: fields) → p.1 ∈ x :: fields.
Proof.
  induction fields as [|y fields [IH1 IH2]]; split; simpl.
  - by intros p Hp%elem_of_nil.
  - intros x p Hp%list_elem_of_singleton. subst p. simpl. set_solver.
  - apply IH2.
  - intros x p [->|Hp]%elem_of_cons; simpl; [set_solver|].
    apply IH1 in Hp. set_solver.
Qed.

Lemma value_of_absent (k : string) (fields : list string) :
  k ∉ fields → value_of k fields = None.
Proof.
  intros Hk. unfold value_of.
  assert (Hps : ∀ p, p ∈ pairs fields → p.1 ≠ k).
  { intros p Hp E. apply (proj1 (pairs_names fields)) in Hp. by rewrite E in Hp. }
  generalize (@None string) at 1 2. revert Hps.
  induction (pairs fields) as [|[k' v] ps IH]; intros Hps acc; [done|].
  cbn [foldl fst snd]. rewrite IH by set_solver.
  destruct (String.eqb_spec k' k) as [E|]; [|done].
  exfalso. apply (Hps (k', v)); [set_solver | done].
Qed.

Lemma parseFloat_non_numeric (v : string) :
  non_numeric v = true → JS.parseFloat v = JS.NaN.
Proof.
  unfold non_numeric, JS.parseFloat.
  destruct (JS.trim_start v) as [|c r]; [done|].
  destruct (JS.digit_value c) eqn:Hd; [done|].
  intros Hc%negb_true_iff.
  apply orb_false_iff in Hc as [Hc HI].
  apply orb_false_iff in Hc as [Hc Hdot].
  apply orb_false_iff in Hc as [Hplus Hminus].
  apply Ascii.eqb_neq in Hplus, Hminus, Hdot, HI.
  assert (Hs : JS.sign_of (String c r) = (false, String c r)).
  { unfold JS.sign_of.
    destruct c as [[] [] [] [] [] [] [] []]; try done. }
  rewrite Hs.
  assert (Hi : JS.starts_with "Infinity" (String c r) = false).
  { cbn [JS.starts_with]. apply andb_false_iff. left.
    apply Ascii.eqb_neq. congruence. }
  rewrite Hi. unfold JS.digits. cbn [JS.digits_from]. rewrite Hd.
  destruct (Ascii.eqb_spec c "."); [congruence|].
  destruct c as [[] [] [] [] [] [] [] []]; done.
Qed.

(** C10.  [parseMessage] is a total function of the entry id, of any
    array of strings (of odd length too) and of the clock: each text
    attribute is the value the entry gives to its name, each number is
    [parseFloat] of that value, and the defaults (["unknown"], 0, the
    current time) stand in exactly when the entry gives the name no
    value, as when the name does not occur.  A value that is present
    and holds no number reads as [NaN], not as 0. *)
Theorem C10_parseMessage_total (id : string) (fields : list string)
    (now_iso : string) :
  let text k dflt := default dflt (value_of k fields) in
  parseMessage id fields now_iso
  = {| Consumer.id := id;
       city_name := text "city_name" "unknown";
       latitude := JS.parseFloat (text "latitude" "0");
       longitude := JS.parseFloat (text "longitude" "0");
       temperature := JS.parseFloat (text "temperature" "0");
       weather_condition := text "weather_condition" "unknown";
       recorded_at := text "recorded_at" now_iso |}
  ∧ JS.parseFloat "0" = JS.Finite 0
  ∧ (∀ k, k ∉ fields → value_of k fields = None)
  ∧ (∀ k v, value_of k fields = Some v → non_numeric v = true →
       JS.parseFloat (text k "0") = JS.NaN).
Proof.
  intros text. split; [|split; [|split]].
  - unfold parseMessage, text. by rewrite !get_or_fill.
  - reflexivity.
  - intros k. apply value_of_absent.
  - intros k v Hv Hn. unfold text. rewrite Hv. simpl.
    by apply parseFloat_non_numeric.
Qed.

(** An entry of odd length whose latitude is not a number and whose
    city is given twice. *)
Example parseMessage_odd :
  parseMessage "1-0" ["city_name"; "Oslo"; "latitude"; "n/a";
                      "city_name"; "Bergen"; "temperature"] "2024-01-01T00:00:00.000Z"
  = {| Consumer.id := "1-0";
       city_name := "Bergen";
       latitude := JS.NaN;
       longitude := JS.Finite 0;
       temperature := JS.Finite 0;
       weather_condition := "unknown";
       recorded_at := "2024-01-01T00:00:00.000Z" |}.
Proof. by vm_compute. Qed.

End ParseMessageFacts.

(* ===================================================================== *)
(** * Theorems: the consumer *)
(* ===================================================================== *)

Section ConsumerFacts.
Import Stream Consumer.
Context {St : Type}.
Variable onRecord : WeatherRecord → St → result string () * St.
Variable now_iso : string.
Variable replies : string → xack_reply.

Lemma processMessages_outcomes (messages : list message) (st : cstate St) :
  processMessages St onRecord now_iso replies messages st
  = CState (acked replies (outcomes onRecord now_iso messages (hstate st)) (broker st))
           (hstate_after onRecord now_iso messages (hstate st))
           (log st
            ++ (outcomes onRecord now_iso messages (hstate st) ≫= reaction replies)).
Proof.
  revert st. induction messages as [|[id fields] ms IH]; intros [b h l].
  - simpl. by rewrite app_nil_r.
  - unfold processMessages in *. cbn [foldl]. rewrite IH. clear IH.
    unfold processMessage. cbn [hstate broker log outcomes hstate_after].
    destruct (onRecord (parseMessage id fields now_iso) h) as [[[]|e] h'];
      cbn [hstate broker log is_ok snd acked foldl fst andb];
      rewrite bind_cons; unfold reaction at 2; unfold applied;
      [destruct (replies id) as [|[]]|];
      cbn [hstate broker log]; f_equal; by rewrite <- app_assoc.
Qed.

Lemma outcomes_ids (messages : list message) (h : St) :
  (outcomes onRecord now_iso messages h).*1 = messages.*1.
Proof.
  revert h. induction messages as [|[id fields] ms IH]; intros h; [done|].
  simpl. destruct (onRecord _ h) as [r h']. simpl. by rewrite IH.
Qed.

Lemma ack_in_reactions (outs : list (string * bool)) (id : string) :
  EvAck id ∈ outs ≫= reaction replies ↔ (id, true) ∈ outs.
Proof.
  rewrite list_elem_of_bind. split.
  - intros ([id' ok] & Hin & Ho). unfold reaction in Hin.
    destruct ok.
    + apply elem_of_cons in Hin as [?|Hin]; [done|].
      apply elem_of_cons in Hin as [[= ->]|Hin]; [done|].
      destruct (replies id'); [by apply elem_of_nil in Hin|].
      by apply list_elem_of_singleton in Hin.
    + apply elem_of_cons in Hin as [?|Hin]; [done|].
      by apply list_elem_of_singleton in Hin.
  - intros Ho. exists (id, true). split; [|done].
    unfold reaction. right. left.
Qed.

Lemma acked_cons (o : string * bool) (outs : list (string * bool)) (b : stream) :
  acked replies (o :: outs) b
  = acked replies outs (if o.2 && applied (replies o.1) then xack o.1 b else b).
Proof. done. Qed.

(** What is pending after the [XACK]s of a batch: what was, less the
    entries on whose id the handler returned and whose [XACK] reached
    the broker. *)
Lemma pel_acked (outs : list (string * bool)) (b : stream) (m : message) :
  m ∈ pel (acked replies outs b)
  ↔ m ∈ pel b ∧ ¬ ((m.1, true) ∈ outs ∧ applied (replies m.1) = true).
Proof.
  revert b. induction outs as [|[id ok] outs IH]; intros b.
  - simpl. split; [|tauto]. intros Hm. split; [done|].
    intros [Hin _]. by apply elem_of_nil in Hin.
  - rewrite acked_cons, IH. cbn [fst snd]. rewrite elem_of_cons.
    destruct ok; cbn [andb]; [destruct (applied (replies id)) eqn:Ea|].
    + simpl. rewrite list_elem_of_filter. split.
      * intros [[Hne Hm] Hno]. split; [done|].
        intros [[[= E]|Hin] Hap]; [done|]. by apply Hno.
      * intros [Hm Hno]. split; [split; [|done]|].
        -- intros E. apply Hno. split; [left; by rewrite E|]. by rewrite E.
        -- intros [Hin Hap]. apply Hno. split; [by right|done].
    + split; intros [Hm Hno]; (split; [done|]).
      * intros [[[= E]|Hin] Hap]; [congruence|]. by apply Hno.
      * intros [Hin Hap]. apply Hno. split; [by right|done].
    + split; intros [Hm Hno]; (split; [done|]).
      * intros [[[= E]|Hin] Hap]. by apply Hno.
      * intros [Hin Hap]. apply Hno. split; [by right|done].
Qed.

(** C3.  On a batch of delivered entries the handler is called once per
    entry, in order; what the consumer does next is an [XACK] of the
    entry when the handler returned and an error line when it threw.
    So an [XACK] is issued for an entry if and only if the handler
    returned without error on it.  The entries that leave the pending
    list are those on whose id the handler returned and whose [XACK]
    reached the broker; the others stay in it.  With the ids of a batch
    distinct, as Redis delivers them, one outcome decides each entry:
    it stays pending when the handler failed on it, and it is no longer
    pending when the handler returned and the [XACK] was answered. *)
Theorem C3_ack_iff_handler_ok (messages : list message) (st : cstate St) :
  let st' := processMessages St onRecord now_iso replies messages st in
  let outs := outcomes onRecord now_iso messages (hstate st) in
  outs.*1 = messages.*1
  ∧ log st' = log st ++ (outs ≫= reaction replies)
  ∧ (∀ id, EvAck id ∈ outs ≫= reaction replies ↔ (id, true) ∈ outs)
  ∧ (∀ m, m ∈ pel (broker st')
          ↔ m ∈ pel (broker st)
            ∧ ¬ ((m.1, true) ∈ outs ∧ applied (replies m.1) = true))
  ∧ (NoDup (messages.*1) →
     ∀ id ok, (id, ok) ∈ outs →
       (EvAck id ∈ outs ≫= reaction replies ↔ ok = true)
       ∧ (ok = false → ∀ m, m.1 = id →
            (m ∈ pel (broker st') ↔ m ∈ pel (broker st)))
       ∧ (ok = true → replies id = Acked → ∀ m, m.1 = id →
            m ∉ pel (broker st'))).
Proof.
  intros st' outs. subst st'. rewrite processMessages_outcomes. fold outs.
  cbn [log broker].
  split; [apply outcomes_ids|]. split; [done|].
  split; [apply ack_in_reactions|]. split; [apply pel_acked|].
  intros Hnd id ok Hin.
  assert (Huniq : ∀ ok', (id, ok') ∈ outs → ok' = ok).
  { intros ok' Hin'. rewrite <- (outcomes_ids messages (hstate st)) in Hnd.
    fold outs in Hnd.
    apply list_elem_of_lookup in Hin as [i Hi], Hin' as [j Hj].
    assert (i = j) as ->.
    { eapply NoDup_lookup; [exact Hnd| |];
        rewrite list_lookup_fmap; [by rewrite Hi | by rewrite Hj]. }
    congruence. }
  split; [|split].
  - rewrite ack_in_reactions. split; [by intros Ht%Huniq | by intros ->].
  - intros -> m Hm. rewrite pel_acked. split; [naive_solver|].
    intros Hp. split; [done|]. rewrite Hm. intros [Ht%Huniq _]. done.
  - intros -> Hack m Hm. rewrite pel_acked. intros [_ Hno]. apply Hno.
    rewrite Hm. split; [done|]. by rewrite Hack.
Qed.

End ConsumerFacts.

Section DrainFacts.
Import Stream Consumer.
Context {St : Type}.
Variable onRecord : WeatherRecord → St → result string () * St.

Lemma reaction_no_read (replies : string → xack_reply) (outs : list (string * bool))
    (from : read_id) (ids : list string) :
  EvRead from ids ∉ outs ≫= reaction replies.
Proof.
  rewrite list_elem_of_bind. intros ([id ok] & Hin & _).
  unfold reaction in Hin.
  destruct ok; [destruct (replies id)|];
    repeat (apply elem_of_cons in Hin as [Hin|Hin]; [done|]);
    by apply elem_of_nil in Hin.
Qed.

Lemma drain_log_no_new (l : list event) (ids : list string) :
  drain_log l → EvRead FromNew ids ∉ l.
Proof.
  induction 1 as [|l ids' outs replies _ IH _ _ _]; [set_solver|].
  rewrite elem_of_app, elem_of_cons.
  pose proof (reaction_no_read replies outs FromNew ids). naive_solver.
Qed.





(** A turn of the loop extends a log of its phase to a log of the phase
    it leads to. *)
Lemma turn_phase_log (now_iso : string) (replies : string → xack_reply)
    (c : phase * cstate St) :
  phase_log c → phase_log (turn St onRecord now_iso replies c).
Proof.
  destruct c as [[n|] [b h l]]; unfold phase_log, turn; cbn [fst snd log broker hstate].
  - intros Hd. unfold xreadgroup_pending.
    destruct (take BATCH_SIZE (pel b)) as [|m ms] eqn:Ht.
    + cbn [fst snd log]. by constructor.
    + cbn [fst snd]. rewrite processMessages_outcomes. cbn [log hstate].
      rewrite <- app_assoc. cbn [app].
      assert (Hlen : (length (m :: ms) ≤ BATCH_SIZE)%nat).
      { rewrite <- Ht, length_take. lia. }
      constructor; [done|done| |by rewrite outcomes_ids].
      by rewrite length_fmap.
  - intros Hl. unfold xreadgroup_new.
    destruct (take BATCH_SIZE (drop (delivered b) (entries b))) as [|m ms] eqn:Ht.
    + cbn [fst snd log default fmap list_fmap].
      apply (listen_batch l [] [] replies); [done | simpl; lia | done].
    + cbn [fst snd default]. rewrite processMessages_outcomes. cbn [log hstate].
      rewrite <- app_assoc. cbn [app].
      assert (Hlen : (length (m :: ms) ≤ BATCH_SIZE)%nat).
      { rewrite <- Ht, length_take. lia. }
      constructor; [done| |by rewrite outcomes_ids].
      by rewrite length_fmap.
Qed.

Lemma reaches_phase_log (c c' : phase * cstate St) :
  reaches St onRecord c c' → phase_log c → phase_log c'.
Proof.
  induction 1 as [|c c' now_iso replies _ IH|c ph st m _ IH]; intros Hc; [done| |].
  - by apply turn_phase_log, IH.
  - specialize (IH Hc). by destruct ph.
Qed.



Lemma outcomes_all_ok (now_iso : string) (messages : list message) (h : St) :
  (∀ r h, is_ok (onRecord r h).1 = true) →
  outcomes onRecord now_iso messages h = (fun m => (m.1, true)) <$> messages.
Proof.
  intros Hok. revert h. induction messages as [|[id fields] ms IH]; intros h; [done|].
  simpl. specialize (Hok (parseMessage id fields now_iso) h).
  destruct (onRecord _ h) as [r h']. simpl in Hok. by rewrite Hok, IH.
Qed.

Lemma outcomes_all_fail (now_iso : string) (messages : list message) (h : St) :
  (∀ r h, is_ok (onRecord r h).1 = false) →
  outcomes onRecord now_iso messages h = (fun m => (m.1, false)) <$> messages.
Proof.
  intros Hok. revert h. induction messages as [|[id fields] ms IH]; intros h; [done|].
  simpl. specialize (Hok (parseMessage id fields now_iso) h).
  destruct (onRecord _ h) as [r h']. simpl in Hok. by rewrite Hok, IH.
Qed.


Lemma acked_all_fail (replies : string → xack_reply) (messages : list message)
    (b : stream) :
  acked replies ((fun m : message => (m.1, false)) <$> messages) b = b.
Proof. induction messages as [|m ms IH]; [done|]. exact IH. Qed.

(** With a handler that always fails the first loop never ends while
    an entry is pending: each turn reads the same entries again. *)
Lemma drain_stuck (now_iso : string) (replies : string → xack_reply) :
  (∀ r h, is_ok (onRecord r h).1 = false) →
  ∀ (t : nat) (st : cstate St) (k : nat),
    pel (broker st) ≠ [] →
    ∃ k' st', Nat.iter t (turn St onRecord now_iso replies) (Draining k, st)
              = (Draining k', st')
              ∧ pel (broker st') = pel (broker st).
Proof.
  intros Hfail. induction t as [|t IH]; intros st k Hp; [by eexists _, _|].
  destruct (IH st k Hp) as (k' & [b' h' l'] & Hit & Hpel).
  cbn [broker] in Hpel. rewrite Nat.iter_succ, Hit.
  unfold turn. cbn [broker hstate log]. unfold xreadgroup_pending.
  destruct (pel b') as [|m ms] eqn:Hp'; [congruence|].
  cbn [take BATCH_SIZE]. eexists _, _. split; [done|].
  rewrite processMessages_outcomes. cbn [broker hstate].
  rewrite outcomes_all_fail by done.
  rewrite acked_all_fail. congruence.
Qed.


End DrainFacts.

Lemma C3_ack_iff_handler_ok_witness :
  let messages := [sample_good; sample_bad] in
  let st := Consumer.CState (Stream.Stream_ messages 2 messages) [] [] in
  let outs := outcomes Processor.onRecord "" messages [] in
  NoDup (messages.*1)
  ∧ (sample_bad.1, false) ∈ outs
  ∧ ¬ Consumer.EvAck sample_bad.1 ∈ outs ≫= reaction sample_replies
  ∧ sample_bad ∈ Stream.pel (Consumer.broker
        (Consumer.processMessages _ Processor.onRecord "" sample_replies messages st)).
Proof.
  intros messages st outs.
  assert (Hnd : NoDup (messages.*1)).
  { apply NoDup_cons. split; [|apply NoDup_singleton].
    intros Hin%list_elem_of_singleton. discriminate Hin. }
  assert (Eo : outs = [(sample_good.1, true); (sample_bad.1, false)])
    by (vm_compute; reflexivity).
  assert (Hin : (sample_bad.1, false) ∈ outs).
  { rewrite Eo. apply elem_of_cons. right. apply elem_of_cons. by left. }
  destruct (C3_ack_iff_handler_ok Processor.onRecord "" sample_replies messages st)
    as (_ & _ & _ & _ & Huniq).
  destruct (Huniq Hnd _ _ Hin) as (Hack & Hpel & _).
  split; [exact Hnd|]. split; [exact Hin|]. split.
  - intros Hev. apply Hack in Hev. discriminate Hev.
  - apply (Hpel eq_refl sample_bad eq_refl).
    apply elem_of_cons. right. apply elem_of_cons. left. reflexivity.
Defined.


Lemma C10_parseMessage_total_witness :
  value_of "latitude" sample_bad.2 = Some "n/a"
  ∧ non_numeric "n/a" = true
  ∧ Consumer.latitude (Consumer.parseMessage sample_bad.1 sample_bad.2 "")
    = JS.NaN.
Proof.
  split; [reflexivity|]. split; [reflexivity|].
  destruct (C10_parseMessage_total sample_bad.1 sample_bad.2 "")
    as (Hrec & _ & _ & Hnan).
  rewrite Hrec. cbn [Consumer.latitude].
  exact (Hnan "latitude" "n/a" eq_refl eq_refl).
Defined.

(* ===================================================================== *)
(** * Theorems: the retry policy of the upstream client *)
(* ===================================================================== *)

Section RetryFacts.
Import Fetcher.
Variable isNetworkError : AxiosError → bool.


Lemma retryDelay_drawn (random : Q) (k : Z) (err : AxiosError) :
  no_retry_after err →
  retryDelay random k err
  = JS.Finite (random * inject_Z (Z.min 32000 (1000 * 2 ^ k))).
Proof.
  intros Hhdr. unfold retryDelay, no_retry_after in *.
  destruct (response err) as [r|]; [|done].
  destruct (Hhdr r eq_refl) as [-> | ->]; done.
Qed.

Lemma retryDelay_computed (random : Q) (k : Z) (err : AxiosError) :
  (0 <= random)%Q → (random < 1)%Q → 1 ≤ k →
  (∀ r, response err = Some r → retry_after r = None ∨ retry_after r = Some "") →
  ∃ d : Q, retryDelay random k err = JS.Finite d
    ∧ (0 <= d)%Q ∧ (d < inject_Z (Z.min 32000 (1000 * 2 ^ k)))%Q
    ∧ (d < 32000)%Q.
Proof.
  intros H0 H1 Hk Hhdr.
  set (cap := Z.min 32000 (1000 * 2 ^ k)).
  assert (Hcap : 0 < cap ≤ 32000).
  { unfold cap. pose proof (Z.pow_pos_nonneg 2 k). lia. }
  assert (Hd : retryDelay random k err = JS.Finite (random * inject_Z cap))
    by (by apply retryDelay_drawn).
  exists (random * inject_Z cap)%Q. split; [exact Hd|].
  assert (Hpos : (0 < inject_Z cap)%Q).
  { change 0%Q with (inject_Z 0). rewrite <- Zlt_Qlt. lia. }
  assert (Hlt : (random * inject_Z cap < inject_Z cap)%Q).
  { rewrite <- (Qmult_1_l (inject_Z cap)) at 2.
    by apply Qmult_lt_compat_r. }
  split; [|split; [exact Hlt|]].
  - apply Qmult_le_0_compat; [done|]. by apply Qlt_le_weak.
  - eapply Qlt_le_trans; [exact Hlt|].
    change 32000%Q with (inject_Z 32000). rewrite <- Zle_Qle. lia.
Qed.

Lemma retryDelay_retry_after (random : Q) (k : Z) (err : AxiosError)
    (r : AxiosResponse) (s : string) :
  response err = Some r → retry_after r = Some s → s ≠ "" →
  retryDelay random k err = JS.times (JS.parseFloat s) 1000.
Proof.
  intros Hr Hs Hne. unfold retryDelay. rewrite Hr, Hs. by destruct s.
Qed.

(** One failure, as [request] takes it: the request ends on it, or a
    retry follows its delay. *)
Lemma request_step {A : Type} (k : nat) (timeout : JS.number) (e : AxiosError)
    (rest : list (result AxiosError A)) (durations : list Z) (randoms : list Q) :
  let delay := retryDelay (default 0%Q (head randoms)) (Z.of_nat (S k)) e in
  let left :=
    JS.minus (JS.minus timeout (JS.Finite (inject_Z (default 0 (head durations)))))
             delay in
  request isNetworkError k timeout (Err e :: rest) durations randoms
  = if (k <? RETRIES)%nat && retryCondition isNetworkError e
       && negb (JS.truthy timeout && JS.le0 left)
    then
      ((request isNetworkError (S k) (if JS.truthy timeout then left else timeout)
          rest (tail durations) (tail randoms)).1,
       delay :: (request isNetworkError (S k)
                   (if JS.truthy timeout then left else timeout)
                   rest (tail durations) (tail randoms)).2)
    else (Some (Err e), []).
Proof.
  cbn [request]. cbv zeta.
  destruct ((k <? RETRIES)%nat && retryCondition isNetworkError e); [|done].
  destruct (JS.truthy timeout && JS.le0 _); [done|]. cbn [andb negb].
  by destruct (request isNetworkError (S k) _ rest _ _).
Qed.





End RetryFacts.



(* ===================================================================== *)
(** * Theorems: [Date.parse] reads back what [toISOString] prints *)
(* ===================================================================== *)

Section DateFacts.
Import JS.

Lemma digit_value_digit_char (v : Z) :
  0 ≤ v ≤ 9 → digit_value (digit_char v) = Some v.
Proof.
  intros Hv.
  assert (v = 0 ∨ v = 1 ∨ v = 2 ∨ v = 3 ∨ v = 4 ∨ v = 5 ∨ v = 6 ∨ v = 7
          ∨ v = 8 ∨ v = 9) as Hcases by lia.
  repeat destruct Hcases as [-> | Hcases]; try subst v; reflexivity.
Qed.

Lemma digit_char_not_sign (v : Z) :
  0 ≤ v ≤ 9 → digit_char v ≠ "+"%char ∧ digit_char v ≠ "-"%char.
Proof.
  intros Hv.
  assert (v = 0 ∨ v = 1 ∨ v = 2 ∨ v = 3 ∨ v = 4 ∨ v = 5 ∨ v = 6 ∨ v = 7
          ∨ v = 8 ∨ v = 9) as Hcases by lia.
  repeat destruct Hcases as [-> | Hcases]; try subst v; split; discriminate.
Qed.

Lemma append_String (c : ascii) (s r : string) :
  String c s +:+ r = String c (s +:+ r).
Proof. reflexivity. Qed.

Lemma read_fixed_fixed (w : nat) (n : Z) (rest : string) :
  0 ≤ n →
  read_fixed w (fixed w n +:+ rest) = Some (n mod 10 ^ Z.of_nat w, rest).
Proof.
  intros Hn. induction w as [|w IH].
  - simpl. by rewrite Z.mod_1_r.
  - cbn [fixed]. rewrite append_String. cbn [read_fixed].
    rewrite digit_value_digit_char, IH.
    + f_equal. f_equal.
      rewrite Nat2Z.inj_succ, Z.pow_succ_r by lia.
      rewrite (Z.mul_comm 10).
      rewrite Z.rem_mul_r by lia. lia.
    + split; [apply Z.mod_pos_bound; lia|].
      pose proof (Z.mod_pos_bound (n / 10 ^ Z.of_nat w) 10). lia.
Qed.

Lemma read_fixed_exact (w : nat) (n : Z) (rest : string) :
  0 ≤ n < 10 ^ Z.of_nat w →
  read_fixed w (fixed w n +:+ rest) = Some (n, rest).
Proof.
  intros Hn. rewrite read_fixed_fixed by lia. by rewrite Z.mod_small.
Qed.

Lemma read_year_text (y : Z) (rest : string) :
  -999999 ≤ y ≤ 999999 →
  read_year (year_text y +:+ rest) = Some (y, rest).
Proof.
  intros Hy. unfold year_text.
  destruct (Z.leb_spec 0 y) as [H0|H0]; cbn [andb].
  - destruct (Z.leb_spec y 9999) as [H1|H1].
    + pose proof (read_fixed_exact 4 y rest) as Hr.
      assert (Hd : 0 ≤ y / 10 ^ Z.of_nat 3 mod 10 ≤ 9).
      { pose proof (Z.mod_pos_bound (y / 10 ^ Z.of_nat 3) 10). lia. }
      destruct (digit_char_not_sign _ Hd) as [Hp Hm].
      unfold read_year. cbn [fixed] in *. rewrite append_String in *.
      destruct (digit_char (y / 10 ^ Z.of_nat 3 mod 10))
        as [[] [] [] [] [] [] [] []] eqn:Hc;
        try (apply Hr; simpl; lia); congruence.
    + destruct (Z.ltb_spec y 0); [lia|].
      rewrite append_String. cbn [read_year]. rewrite read_fixed_exact by (simpl; lia). done.
  - destruct (Z.ltb_spec y 0); [|lia].
    rewrite append_String. cbn [read_year]. rewrite read_fixed_exact by (simpl; lia).
    destruct (- y) eqn:E; [lia| |]; f_equal; f_equal; lia.
Qed.

(** ** The calendar *)

Lemma all_from_spec (P : Z → bool) (n : nat) (z : Z) :
  all_from P n z = true → ∀ k, z ≤ k < z + Z.of_nat n → P k = true.
Proof.
  revert z. induction n as [|n IH]; intros z Hall k Hk; [lia|].
  cbn [all_from] in Hall. destruct (P z) eqn:Hz; [|done].
  destruct (decide (k = z)) as [->|Hne]; [done|].
  apply (IH (z + 1)); [done|lia].
Qed.

Lemma era_days_ok : all_from era_day_ok (Z.to_nat 146097) 0 = true.
Proof. vm_compute. reflexivity. Qed.

Lemma era_day_ok_all (doe : Z) : 0 ≤ doe < 146097 → era_day_ok doe = true.
Proof.
  intros Hd. apply (all_from_spec _ _ _ era_days_ok).
  rewrite Z2Nat.id; lia.
Qed.

Lemma is_leap_era (y era : Z) : is_leap (y + era * 400) = is_leap y.
Proof.
  unfold is_leap.
  replace ((y + era * 400) mod 4) with (y mod 4)
    by (rewrite <- (Z.mod_add y (era * 100) 4) by lia; f_equal; lia).
  replace ((y + era * 400) mod 100) with (y mod 100)
    by (rewrite <- (Z.mod_add y (era * 4) 100) by lia; f_equal; lia).
  replace ((y + era * 400) mod 400) with (y mod 400)
    by (rewrite <- (Z.mod_add y era 400) by lia; f_equal; lia).
  done.
Qed.

Lemma days_in_month_era (y era m : Z) :
  days_in_month (y + era * 400) m = days_in_month y m.
Proof. unfold days_in_month. by rewrite is_leap_era. Qed.

(** [civil_from_days] yields a date of the calendar, and [days_from_civil]
    takes it back to the day. *)
Lemma civil_from_days_spec (z y m d : Z) :
  civil_from_days z = (y, m, d) →
  1 ≤ m ≤ 12 ∧ 1 ≤ d ≤ days_in_month y m
  ∧ days_from_civil y m d = z
  ∧ (z + 719468) / 146097 * 400 ≤ y ≤ (z + 719468) / 146097 * 400 + 400.
Proof.
  unfold civil_from_days.
  set (era := (z + 719468) / 146097).
  set (doe := (z + 719468) mod 146097).
  assert (Hdoe : 0 ≤ doe < 146097) by (apply Z.mod_pos_bound; lia).
  pose proof (era_day_ok_all doe Hdoe) as Hok. unfold era_day_ok in Hok.
  destruct (civil_of_era doe) as [[y0 m0] d0].
  intros [= <- <- <-].
  repeat (apply andb_true_iff in Hok as [Hok ?]).
  set (yoe := if m0 <=? 2 then y0 - 1 else y0) in *.
  assert (Hy : (if m0 <=? 2 then y0 + era * 400 - 1 else y0 + era * 400)
                = yoe + era * 400).
  { unfold yoe. destruct (m0 <=? 2); lia. }
  split; [lia|]. split; [rewrite days_in_month_era; lia|]. split.
  - unfold days_from_civil. rewrite Hy.
    replace ((yoe + era * 400) / 400) with era
      by (rewrite Z.div_add by lia; rewrite Z.div_small by lia; lia).
    replace ((yoe + era * 400) mod 400) with yoe
      by (rewrite Z.mod_add by lia; rewrite Z.mod_small by lia; lia).
    assert (day_of_era yoe m0 d0 = doe) as -> by lia.
    unfold doe, era. pose proof (Z.div_mod (z + 719468) 146097). lia.
  - unfold yoe in *. destruct (m0 <=? 2); lia.
Qed.

Lemma days_in_month_le (y m : Z) : 28 ≤ days_in_month y m ≤ 31.
Proof.
  unfold days_in_month.
  destruct (m =? 2); [destruct (is_leap y); lia|].
  destruct ((m =? 4) || (m =? 6) || (m =? 9) || (m =? 11)); lia.
Qed.

Lemma expect_lit (c : ascii) (rest : string) :
  expect c (String c "" +:+ rest) = Some rest.
Proof.
  rewrite append_String. cbn [expect]. by rewrite Ascii.eqb_refl.
Qed.

Local Ltac next_field :=
  first [ rewrite expect_lit
        | rewrite read_fixed_exact
            by (change (10 ^ Z.of_nat 2) with 100;
                change (10 ^ Z.of_nat 3) with 1000;
                Z.div_mod_to_equations; lia) ];
  cbn [mbind option_bind].

(** [Date.parse] reads the text [toISOString] prints back to the time
    value it was printed from. *)
Lemma Date_parse_toISOString (ms : Z) (s : string) :
  toISOString ms = Some s → Date_parse s = Some ms.
Proof.
  unfold toISOString.
  destruct ((ms <? - maxTime) || (maxTime <? ms)) eqn:Hrange; [done|].
  apply orb_false_iff in Hrange as [Hlo Hhi].
  apply Z.ltb_ge in Hlo, Hhi. unfold maxTime in Hlo, Hhi.
  unfold msPerDay.
  set (day := ms / 86400000). set (t := ms mod 86400000).
  assert (Ht : 0 ≤ t < 86400000) by (apply Z.mod_pos_bound; lia).
  assert (Hday : -100000000 ≤ day ≤ 100000000).
  { unfold day. Z.div_mod_to_equations. lia. }
  destruct (civil_from_days day) as [[y m] d] eqn:Hc.
  apply civil_from_days_spec in Hc as (Hm & Hd & Hdays & Hy).
  pose proof (days_in_month_le y m) as Hdim.
  assert (Hyb : -999999 ≤ y ≤ 999999).
  { assert (Hera : -680 ≤ (day + 719468) / 146097 ≤ 689)
      by (Z.div_mod_to_equations; lia).
    lia. }
  intros Hs. apply (inj Some) in Hs. subst s. unfold Date_parse.
  rewrite read_year_text by done. cbn [mbind option_bind].
  do 12 next_field.
  change (expect "Z" "Z") with (Some ""%string). cbn [mbind option_bind].
  change (String.eqb "" "") with true. cbn [negb].
  replace ((1 <=? m) && (m <=? 12) && (1 <=? d) && (d <=? days_in_month y m))
    with true by (symmetry; repeat (apply andb_true_iff; split); lia).
  cbn [negb].
  replace (t / 3600000 <=? 23) with true
    by (symmetry; apply Z.leb_le; Z.div_mod_to_equations; lia).
  replace (t / 60000 mod 60 <=? 59) with true
    by (symmetry; apply Z.leb_le; Z.div_mod_to_equations; lia).
  replace (t / 1000 mod 60 <=? 59) with true
    by (symmetry; apply Z.leb_le; Z.div_mod_to_equations; lia).
  cbn [andb orb negb]. rewrite Hdays. unfold msPerDay, maxTime.
  assert (Hms : day * 86400000 + t / 3600000 * 3600000 + t / 60000 mod 60 * 60000
                + t / 1000 mod 60 * 1000 + t mod 1000 = ms).
  { unfold day, t. Z.div_mod_to_equations. lia. }
  rewrite Hms.
  rewrite (proj2 (Z.ltb_ge ms _)) by lia.
  rewrite (proj2 (Z.ltb_ge _ ms)) by lia.
  done.
Qed.

Lemma toISOString_in_range (ms : Z) :
  - maxTime ≤ ms ≤ maxTime → ∃ s, toISOString ms = Some s.
Proof.
  intros Hr. unfold toISOString.
  replace ((ms <? - maxTime) || (maxTime <? ms)) with false
    by (symmetry; apply orb_false_iff; split; apply Z.ltb_ge; lia).
  destruct (civil_from_days (ms / msPerDay)) as [[y m] d]. by eexists.
Qed.

End DateFacts.

(* ===================================================================== *)
(** * Theorems: from the upstream's answer to the stored point *)
(* ===================================================================== *)

Section PointFacts.
Import Locations Fetcher.

Lemma write_finite (city condition recorded_at : string)
    (temperature latitude longitude : Q) :
  InfluxWriter.write
    {| InfluxWriter.city_name := city;
       InfluxWriter.latitude := JS.Finite latitude;
       InfluxWriter.longitude := JS.Finite longitude;
       InfluxWriter.temperature := JS.Finite temperature;
       InfluxWriter.weather_condition := condition;
       InfluxWriter.recorded_at := recorded_at |}
  = Ok (point_of city condition temperature latitude longitude
          (JS.Date_parse recorded_at)).
Proof. reflexivity. Qed.

Lemma fetchWeather_real (env : MockEnv) (L : Location) (reply : result AxiosError Body)
    (payload : WeatherPayload) :
  fetchWeather false env L reply = Ok payload →
  ∃ cw, reply = Ok {| current_weather := Some cw |}
    ∧ JS.toISOString (cw_time cw * 1000) = Some (recorded_at payload)
    ∧ payload = {| city_name := Locations.city_name L;
                   latitude := JS.Finite (Locations.latitude L);
                   longitude := JS.Finite (Locations.longitude L);
                   temperature := JS.Finite (cw_temperature cw);
                   weather_condition := condition_of (cw_weathercode cw);
                   recorded_at := recorded_at payload |}.
Proof.
  unfold fetchWeather. destruct reply as [[[cw|]]|e]; cbn [current_weather];
    try discriminate.
  destruct (JS.toISOString (cw_time cw * 1000)) as [iso|] eqn:Hiso;
    [|discriminate].
  intros [= <-]. exists cw. by rewrite Hiso.
Qed.

(** C6.  For a location [L] and an answer of the upstream whose time,
    in milliseconds, is a time value, [fetchWeather] gives an
    observation and [InfluxWriter.write] builds from it the point of
    measurement [weather] with the city of [L] and the condition as
    tags, the temperature of the answer and the coordinates of [L] as
    fields, and the time of the answer times 1000 as timestamp.  The
    condition is the entry of the table for the weather code, or the
    text [WMO-] followed by the code when the table has none. *)
Theorem C6_point_of_upstream_answer (env : MockEnv) (L : Location) (cw : CurrentWeather) :
  - JS.maxTime ≤ cw_time cw * 1000 ≤ JS.maxTime →
  ∃ payload,
    fetchWeather false env L (Ok {| current_weather := Some cw |}) = Ok payload
    ∧ InfluxWriter.write (as_point payload)
      = Ok (point_of (Locations.city_name L) (condition_of (cw_weathercode cw))
              (cw_temperature cw) (Locations.latitude L) (Locations.longitude L)
              (Some (cw_time cw * 1000)))
    ∧ (∀ label, WMO_CODES !! cw_weathercode cw = Some label →
         condition_of (cw_weathercode cw) = label)
    ∧ (WMO_CODES !! cw_weathercode cw = None →
         condition_of (cw_weathercode cw)
         = "WMO-" +:+ Dec.string_of_Z (cw_weathercode cw)).
Proof.
  intros Hrange.
  destruct (toISOString_in_range _ Hrange) as [iso Hiso].
  eexists. unfold fetchWeather. cbn [current_weather]. rewrite Hiso.
  split; [reflexivity|]. split; [|split].
  - unfold as_point. cbn [city_name latitude longitude temperature
                            weather_condition recorded_at].
    rewrite write_finite. by rewrite (Date_parse_toISOString _ _ Hiso).
  - intros label Hl. unfold condition_of. by rewrite Hl.
  - intros Hl. unfold condition_of. by rewrite Hl.
Qed.

(** Boundary scenario 6: the code 42 is not in the table. *)
Example condition_of_42 : condition_of 42 = "WMO-42".
Proof. reflexivity. Qed.

Example condition_of_95 : condition_of 95 = "Thunderstorm".
Proof. reflexivity. Qed.

End PointFacts.

Lemma C6_point_of_upstream_answer_witness :
  let env := {| Fetcher.date_now := 1700000050123; Fetcher.month := 10;
                Fetcher.random_noise := 1 # 2; Fetcher.random_roll := 1 # 2 |} in
  let oslo := {| Locations.city_name := "Oslo";
                 Locations.latitude := 5991 # 100;
                 Locations.longitude := 1075 # 100 |} in
  let cw := {| Fetcher.cw_temperature := - (7 # 2);
               Fetcher.cw_weathercode := 42;
               Fetcher.cw_time := 1700000000 |} in
  - JS.maxTime ≤ Fetcher.cw_time cw * 1000 ≤ JS.maxTime
  ∧ ∃ payload,
      Fetcher.fetchWeather false env oslo
        (Ok {| Fetcher.current_weather := Some cw |}) = Ok payload
      ∧ Fetcher.recorded_at payload = "2023-11-14T22:13:20.000Z"
      ∧ InfluxWriter.write (Fetcher.as_point payload)
        = Ok (point_of "Oslo" "WMO-42" (- (7 # 2)) (5991 # 100) (1075 # 100)
                (Some 1700000000000)).
Proof.
  intros env oslo cw.
  assert (Hr : - JS.maxTime ≤ Fetcher.cw_time cw * 1000 ≤ JS.maxTime).
  { unfold JS.maxTime. simpl. lia. }
  split; [exact Hr|].
  destruct (C6_point_of_upstream_answer env oslo cw Hr) as (payload & Hf & Hw & _).
  exists payload. split; [exact Hf|]. split; [|exact Hw].
  assert (Hp : Fetcher.fetchWeather false env oslo
                 (Ok {| Fetcher.current_weather := Some cw |})
               = Ok {| Fetcher.city_name := "Oslo";
                       Fetcher.latitude := JS.Finite (5991 # 100);
                       Fetcher.longitude := JS.Finite (1075 # 100);
                       Fetcher.temperature := JS.Finite (- (7 # 2));
                       Fetcher.weather_condition := "WMO-42";
                       Fetcher.recorded_at := "2023-11-14T22:13:20.000Z" |})
    by (vm_compute; reflexivity).
  rewrite Hp in Hf. injection Hf as <-. reflexivity.
Defined.

(* ===================================================================== *)
(** * Theorems: what a worker appends to the stream *)
(* ===================================================================== *)

Section WorkerAppend.
Import Worker.
Variable String_of_number : JS.number → string.

Lemma on_error_quiet (e : env) (err : thrown) (a : analytics) (tr : list event) :
  ∃ tail, (on_error e err a tr).2 = tr ++ tail ∧ Forall (fun x => quiet x = true) tail.
Proof.
  unfold on_error. destruct (bool_decide (status err = Some 429)).
  - destruct (notified e); eexists; (split; [reflexivity|]); repeat constructor.
  - destruct (_ || _); eexists; (split; [reflexivity|]); repeat constructor.
Qed.

Local Ltac not_in_prefix H :=
  repeat (apply elem_of_cons in H as [H|H]; [discriminate H|]);
  by apply elem_of_nil in H.

Local Ltac in_catch e err a tr H :=
  destruct (on_error_quiet e err a tr) as (tail & Heq & Hq);
  rewrite Heq in H; apply elem_of_app in H as [H|H];
  [ repeat (apply elem_of_app in H as [H|H]); not_in_prefix H
  | rewrite Forall_forall in Hq; apply Hq in H; discriminate H ].

(** What a worker appends to the stream is the observation its fetch
    returned in the same turn, field by field. *)
Lemma turn_appends_fetched (e : env) (a : analytics) (fields : list string) :
  AppendCalled fields ∈ (turn String_of_number e a).2 →
  ∃ location payload,
    parsed e = Ok location
    ∧ Fetcher.fetchWeather (USE_MOCK e) (mock_env e) location (reply e) = Ok payload
    ∧ fields = stream_fields String_of_number payload.
Proof.
  unfold turn.
  destruct (brpop e) as [[item|]|err]; intros Hin.
  2:{ cbn in Hin. not_in_prefix Hin. }
  2:{ in_catch e err a (@nil event) Hin. }
  destruct (mget e) as [[cycleIdStr startMsStr]|err].
  2:{ in_catch e err a [PopReturned (Some item)] Hin. }
  set (a1 := if bool_decide (default 0 cycleIdStr ≠ activeCycleId a) then _ else a) in *.
  destruct (acquire e) as [[]|err].
  2:{ match type of Hin with context [on_error e err ?a2 ?tr] =>
        in_catch e err a2 tr Hin end. }
  destruct (parsed e) as [location|err].
  2:{ match type of Hin with context [on_error e err ?a2 ?tr] =>
        in_catch e err a2 tr Hin end. }
  destruct (Fetcher.fetchWeather _ _ location _) as [result|err] eqn:Hf.
  2:{ match type of Hin with context [on_error e ?er ?a2 ?tr] =>
        in_catch e er a2 tr Hin end. }
  exists location, result. split; [done|]. split; [done|].
  destruct (xadd e) as [[]|err].
  - cbn [snd] in Hin.
    repeat (apply elem_of_app in Hin as [Hin|Hin]);
      repeat (apply elem_of_cons in Hin as [Hin|Hin];
              [first [discriminate Hin | by injection Hin as ->]|]);
      by apply elem_of_nil in Hin.
  - match type of Hin with context [on_error e err ?a2 ?tr] =>
      destruct (on_error_quiet e err a2 tr) as (tail & Heq & Hq) end.
    rewrite Heq in Hin. apply elem_of_app in Hin as [Hin|Hin].
    + repeat (apply elem_of_app in Hin as [Hin|Hin]);
        repeat (apply elem_of_cons in Hin as [Hin|Hin];
                [first [discriminate Hin | by injection Hin as ->]|]);
        by apply elem_of_nil in Hin.
    + rewrite Forall_forall in Hq. apply Hq in Hin. discriminate Hin.
Qed.

End WorkerAppend.

(* ===================================================================== *)
(** * Theorems: where the timestamp of an observation comes from *)
(* ===================================================================== *)

Section TimestampFacts.
Import Locations Fetcher.
Variable String_of_number : JS.number → string.

Lemma recorded_at_carried (payload : WeatherPayload) (id now_iso : string) :
  Consumer.recorded_at
    (Consumer.parseMessage id (Worker.stream_fields String_of_number payload) now_iso)
  = recorded_at payload.
Proof.
  unfold Consumer.parseMessage. cbn [Consumer.recorded_at].
  by rewrite get_or_fill.
Qed.

Lemma write_timestamp (p : InfluxWriter.WeatherPoint) (point : InfluxWriter.Point) :
  InfluxWriter.write p = Ok point →
  InfluxWriter.timestamp point = JS.Date_parse (InfluxWriter.recorded_at p).
Proof.
  unfold InfluxWriter.write, InfluxWriter.floatField.
  destruct (InfluxWriter.temperature p); try discriminate.
  destruct (InfluxWriter.latitude p); try discriminate.
  destruct (InfluxWriter.longitude p); try discriminate.
  by intros [= <-].
Qed.

Lemma fetchWeather_source (USE_MOCK : bool) (env : MockEnv) (L : Location)
    (reply : result AxiosError Body) (payload : WeatherPayload) :
  fetchWeather USE_MOCK env L reply = Ok payload →
  ∃ ms, source_time USE_MOCK env reply = Some ms
    ∧ JS.toISOString ms = Some (recorded_at payload).
Proof.
  destruct USE_MOCK.
  - unfold fetchWeather, mockFetchWeather, source_time.
    destruct (JS.toISOString (date_now env)) as [iso|] eqn:Hiso; [|discriminate].
    intros [= <-]. by eexists.
  - intros (cw & -> & Hiso & _)%fetchWeather_real. by exists (cw_time cw * 1000).
Qed.

Lemma observation_timestamp (USE_MOCK : bool) (env : MockEnv) (L : Location)
    (reply : result AxiosError Body) (payload : WeatherPayload) :
  fetchWeather USE_MOCK env L reply = Ok payload →
  ∃ ms,
    source_time USE_MOCK env reply = Some ms
    ∧ JS.toISOString ms = Some (recorded_at payload)
    ∧ ∀ id now_iso,
        let record :=
          Consumer.parseMessage id
            (Worker.stream_fields String_of_number payload) now_iso in
        Consumer.recorded_at record = recorded_at payload
        ∧ ∀ point, InfluxWriter.write (Processor.as_point record) = Ok point →
                   InfluxWriter.timestamp point = Some ms.
Proof.
  intros (ms & Hsrc & Hiso)%fetchWeather_source.
  exists ms. split; [done|]. split; [done|].
  intros id now_iso record.
  pose proof (recorded_at_carried payload id now_iso) as Hrec. fold record in Hrec.
  split; [exact Hrec|].
  intros point Hw%write_timestamp. rewrite Hw.
  cbn [Processor.as_point InfluxWriter.recorded_at]. rewrite Hrec.
  by apply Date_parse_toISOString.
Qed.

(** C9, as the code has it.  Whatever a worker appends to the stream is
    an observation its fetch returned, and the text in its
    [recorded_at] is the time the upstream reports when the observation
    comes from the upstream, and the reading of the fetcher's clock when
    it comes from the mock, which has no upstream.  In both cases the
    consumer reads that text back unchanged, and the timestamp of the
    point the writer builds is the time the text was printed from. *)
Theorem C9_recorded_at_source (e : Worker.env) (a : Worker.analytics)
    (fields : list string) :
  Worker.AppendCalled fields ∈ (Worker.turn String_of_number e a).2 →
  ∃ L payload ms,
    fetchWeather (Worker.USE_MOCK e) (Worker.mock_env e) L (Worker.reply e)
      = Ok payload
    ∧ fields = Worker.stream_fields String_of_number payload
    ∧ source_time (Worker.USE_MOCK e) (Worker.mock_env e) (Worker.reply e) = Some ms
    ∧ JS.toISOString ms = Some (recorded_at payload)
    ∧ ∀ id now_iso,
        let record := Consumer.parseMessage id fields now_iso in
        Consumer.recorded_at record = recorded_at payload
        ∧ ∀ point, InfluxWriter.write (Processor.as_point record) = Ok point →
                   InfluxWriter.timestamp point = Some ms.
Proof.
  intros (L & payload & _ & Hf & ->)%turn_appends_fetched.
  destruct (observation_timestamp _ _ _ _ _ Hf) as (ms & Hsrc & Hiso & Hrec).
  by exists L, payload, ms.
Qed.

End TimestampFacts.

(** In mock mode the observation is stamped with the clock of the
    fetcher, 50 s and 123 ms after the time in the upstream's answer,
    which is not even asked for. *)
Lemma C9_counterexample :
  ¬ (∀ USE_MOCK env L reply payload,
       Fetcher.fetchWeather USE_MOCK env L reply = Ok payload →
       ∃ cw, reply = Ok {| Fetcher.current_weather := Some cw |}
         ∧ JS.toISOString (Fetcher.cw_time cw * 1000)
           = Some (Fetcher.recorded_at payload)).
Proof.
  intros Hall.
  destruct (Hall true sample_env sample_oslo sample_reply _ eq_refl)
    as (cw & [= <-] & Hiso).
  vm_compute in Hiso. discriminate Hiso.
Qed.

(** A turn of a worker in mock mode, 50 s and 123 ms after the time in
    the answer the upstream would have given. *)
Lemma C9_recorded_at_source_witness :
  let fields := Worker.stream_fields (fun _ => "")
                  {| Fetcher.city_name := "Oslo";
                     Fetcher.latitude := JS.Finite (5991 # 100);
                     Fetcher.longitude := JS.Finite (1075 # 100);
                     Fetcher.temperature := JS.Finite (- (5));
                     Fetcher.weather_condition := "Partly cloudy";
                     Fetcher.recorded_at := "2023-11-14T22:14:10.123Z" |} in
  Worker.AppendCalled fields
    ∈ (Worker.turn (fun _ => "") sample_turn_mock (Worker.Analytics ∅ 0 0)).2
  ∧ ∃ ms, source_time true sample_env sample_reply = Some ms
      ∧ JS.toISOString ms = Some "2023-11-14T22:14:10.123Z"
      ∧ ms = 1700000050123.
Proof.
  intros fields.
  assert (Hin : Worker.AppendCalled fields
            ∈ (Worker.turn (fun _ => "") sample_turn_mock (Worker.Analytics ∅ 0 0)).2).
  { apply list_elem_of_lookup. exists 7%nat. vm_compute. reflexivity. }
  split; [exact Hin|].
  destruct (C9_recorded_at_source (fun _ => "") sample_turn_mock _ fields Hin)
    as (L & payload & ms & _ & Hfields & Hsrc & Hiso & _).
  exists ms. split; [exact Hsrc|]. split.
  - rewrite Hiso. f_equal.
    assert (Hl : last fields = last (Worker.stream_fields (fun _ => "") payload))
      by (by rewrite Hfields).
    injection Hl as Hl. by rewrite Hl.
  - injection Hsrc as <-. reflexivity.
Defined.

(* ===================================================================== *)
(** * Theorems: the order of a worker's steps *)
(* ===================================================================== *)

Section WorkerFacts.
Import Worker.
Variable String_of_number : JS.number → string.

(** A turn runs a prefix of the full sequence of steps and, when a step
    throws, the steps of the [catch] block. *)
Lemma turn_shape (e : env) (a : analytics) :
  (turn String_of_number e a).2 = [PopReturned None]
  ∨ ∃ item city cycleId secondOffset fields (n : nat) tail,
      (turn String_of_number e a).2
      = take n (full_trace item city cycleId secondOffset fields) ++ tail
      ∧ Forall (fun x => quiet x = true) tail.
Proof.
  unfold turn.
  destruct (brpop e) as [[item|]|err]; [|by left|].
  2:{ right. destruct (on_error_quiet e err a []) as (tail & -> & Hq).
      by exists ("", ""), "", 0, 0, [], 0%nat, tail. }
  right.
  destruct (mget e) as [[cycleIdStr startMsStr]|err].
  2:{ destruct (on_error_quiet e err a [PopReturned (Some item)]) as (tail & -> & Hq).
      by exists item, "", 0, 0, [], 1%nat, tail. }
  set (a1 := if bool_decide (default 0 cycleIdStr ≠ activeCycleId a) then _ else a).
  destruct (acquire e) as [[]|err].
  2:{ destruct (on_error_quiet e err a1
                  ([PopReturned (Some item)] ++ [CycleRead; AcquireCalled]))
        as (tail & -> & Hq).
      by exists item, "", 0, 0, [], 3%nat, tail. }
  destruct (parsed e) as [location|err].
  2:{ destruct (on_error_quiet e err a1
                  (([PopReturned (Some item)] ++ [CycleRead; AcquireCalled])
                   ++ [AcquireReturned]))
        as (tail & -> & Hq).
      by exists item, "", 0, 0, [], 4%nat, tail. }
  destruct (Fetcher.fetchWeather _ _ location _) as [result|err].
  2:{ destruct (on_error_quiet e (of_fetch_error err) a1
                  ((([PopReturned (Some item)] ++ [CycleRead; AcquireCalled])
                    ++ [AcquireReturned])
                   ++ [FetchCalled (Locations.city_name location)]))
        as (tail & -> & Hq).
      by exists item, (Locations.city_name location), 0, 0, [], 5%nat, tail. }
  destruct (xadd e) as [[]|err].
  - exists item, (Locations.city_name location), (activeCycleId a1),
      ((fetchStart e - cycleStartMs a1) / 1000),
      (stream_fields String_of_number result), 10%nat, [].
    split; [reflexivity | constructor].
  - match goal with |- context [on_error e err ?a2 ?tr] =>
      destruct (on_error_quiet e err a2 tr) as (tail & -> & Hq) end.
    by exists item, (Locations.city_name location), (activeCycleId a1),
      ((fetchStart e - cycleStartMs a1) / 1000),
      (stream_fields String_of_number result), 8%nat, tail.
Qed.

Lemma quiet_tail_lookup (pre tail : list event) (j : nat) (e : event) :
  Forall (fun x => quiet x = true) tail →
  (pre ++ tail) !! j = Some e → quiet e = false →
  pre !! j = Some e.
Proof.
  intros Hq Hj He. apply lookup_app_Some in Hj as [Hj|[_ Hj]]; [done|].
  apply list_elem_of_lookup_2 in Hj.
  rewrite Forall_forall in Hq. apply Hq in Hj. congruence.
Qed.

Lemma full_trace_lookup (item : string * string) (city : string)
    (cycleId secondOffset : Z) (fields : list string) (j : nat) (e : event) :
  full_trace item city cycleId secondOffset fields !! j = Some e →
  (j = 0%nat ∧ e = PopReturned (Some item)) ∨ (j = 1%nat ∧ e = CycleRead)
  ∨ (j = 2%nat ∧ e = AcquireCalled) ∨ (j = 3%nat ∧ e = AcquireReturned)
  ∨ (j = 4%nat ∧ e = FetchCalled city) ∨ (j = 5%nat ∧ e = FetchReturned)
  ∨ (j = 6%nat ∧ e = OkCounted cycleId secondOffset)
  ∨ (j = 7%nat ∧ e = AppendCalled fields) ∨ (j = 8%nat ∧ e = AppendReturned)
  ∨ (j = 9%nat ∧ e = Printed).
Proof.
  intros Hj.
  do 10 (destruct j as [|j]; [injection Hj as <-; naive_solver|]).
  discriminate Hj.
Qed.

Local Ltac by_position H :=
  apply full_trace_lookup in H;
  repeat (destruct H as [[-> ->]|H]); try destruct H as [-> ->].

Lemma full_trace_order (item : string * string) (city : string)
    (cycleId secondOffset : Z) (fields : list string) (n : nat) (tail : list event) :
  Forall (fun x => quiet x = true) tail →
  let tr := take n (full_trace item city cycleId secondOffset fields) ++ tail in
  strictly_before is_acquire_returned is_fetch_called tr
  ∧ preceded_by is_acquire_returned is_fetch_called tr
  ∧ strictly_before is_ok_counted is_append_called tr
  ∧ preceded_by is_ok_counted is_append_called tr.
Proof.
  intros Hq tr.
  assert (Hpre : ∀ (j : nat) e, tr !! j = Some e → quiet e = false →
                 full_trace item city cycleId secondOffset fields !! j = Some e
                 ∧ (j < n)%nat).
  { intros j e Hj He. apply (quiet_tail_lookup _ _ _ _ Hq) in Hj; [|done].
    by apply lookup_take_Some in Hj. }
  assert (Hin : ∀ (i : nat) e,
            full_trace item city cycleId secondOffset fields !! i = Some e →
            (i < n)%nat → tr !! i = Some e).
  { intros i e Hi Hlt. unfold tr. apply lookup_app_l_Some.
    by apply lookup_take_Some. }
  split; [|split; [|split]].
  - intros i j e e' Hi Hj He He'.
    apply Hpre in Hi as [Hi _]; [|by destruct e].
    apply Hpre in Hj as [Hj _]; [|by destruct e'].
    by_position Hi; try discriminate He.
    by_position Hj; try discriminate He'. lia.
  - intros j e Hj He.
    apply Hpre in Hj as [Hj Hlt]; [|by destruct e].
    pose proof Hj as Hj'. by_position Hj'; try discriminate He.
    exists 3%nat, AcquireReturned. split; [lia|]. split; [|done].
    apply Hin; [done|lia].
  - intros i j e e' Hi Hj He He'.
    apply Hpre in Hi as [Hi _]; [|by destruct e].
    apply Hpre in Hj as [Hj _]; [|by destruct e'].
    by_position Hi; try discriminate He.
    by_position Hj; try discriminate He'. lia.
  - intros j e Hj He.
    apply Hpre in Hj as [Hj Hlt]; [|by destruct e].
    pose proof Hj as Hj'. by_position Hj'; try discriminate He.
    exists 6%nat, (OkCounted cycleId secondOffset). split; [lia|]. split; [|done].
    apply Hin; [done|lia].
Qed.

(** C7, as the code has it.  In every turn of a worker's loop the token
    acquire has returned before the upstream fetch is called, and the
    success counter of the second bucket is incremented before the
    stream append is called: no fetch is called without an acquire that
    returned earlier in the turn, and no append without an increment
    earlier in the turn. *)
Theorem C7_worker_order (e : env) (a : analytics) :
  let tr := (turn String_of_number e a).2 in
  strictly_before is_acquire_returned is_fetch_called tr
  ∧ preceded_by is_acquire_returned is_fetch_called tr
  ∧ strictly_before is_ok_counted is_append_called tr
  ∧ preceded_by is_ok_counted is_append_called tr.
Proof.
  intros tr. subst tr.
  destruct (turn_shape e a)
    as [->|(item & city & cycleId & secondOffset & fields & n & tail & -> & Hq)].
  - split; [|split; [|split]].
    + intros [|i] j e0 e' Hi Hj He He'; [by injection Hi as <-|done].
    + intros [|j] e0 Hj He; [by injection Hj as <-|done].
    + intros [|i] j e0 e' Hi Hj He He'; [by injection Hi as <-|done].
    + intros [|j] e0 Hj He; [by injection Hj as <-|done].
  - by apply full_trace_order.
Qed.

End WorkerFacts.

(** In a turn that succeeds the counter is incremented at step 6 and
    the append returns at step 8. *)
Lemma C7_counterexample :
  ¬ (∀ String_of_number e a,
       let tr := (Worker.turn String_of_number e a).2 in
       strictly_before is_acquire_returned is_fetch_called tr
       ∧ strictly_before is_append_returned is_ok_counted tr).
Proof.
  intros Hall.
  destruct (Hall (fun _ => "") sample_turn (Worker.Analytics ∅ 0 0)) as [_ Hlate].
  specialize (Hlate 8%nat 6%nat Worker.AppendReturned (Worker.OkCounted 42 10)
                eq_refl eq_refl eq_refl eq_refl).
  lia.
Qed.

(* ===================================================================== *)
(** * Theorems: the rate the limiter lets through, and its pauses *)
(* ===================================================================== *)

Section RateLimiterMore.
Import Redis RateLimiter.

Local Ltac qsecs :=
  unfold Qdiv in *; change (/ 1000)%Q with (1 # 1000)%Q in *.

Lemma secs_le (a b : Z) : a ≤ b → (inject_Z a / 1000 <= inject_Z b / 1000)%Q.
Proof.
  intros H. rewrite Zle_Qle in H. qsecs. lra.
Qed.

Lemma secs_ge_60 (a b : Z) :
  a + 60000 ≤ b → (60 <= inject_Z b / 1000 - inject_Z a / 1000)%Q.
Proof.
  intros H. rewrite Zle_Qle, inject_Z_plus in H.
  change (inject_Z 60000) with (60000 # 1)%Q in H. qsecs. lra.
Qed.

(** The script on a key it reads as [stored]: the step of the token
    bucket, written back with a deadline 60 s ahead. *)
Lemma CONSUME_LUA_stored (clock : Z) (key : string) (t : Q) (d : db)
    (h : gmap string hval) (stored : option (Q * Q)) :
  holds_bucket clock key d h stored →
  CONSUME_LUA clock key CAPACITY MAX_RPS t d
  = Ok (TokenBucketSpec.reply (fst (TokenBucketSpec.step 8 8 t stored)),
        <[key := Entry (RHash (<["last_refill" := HNum (snd (snd (TokenBucketSpec.step 8 8 t stored)))]>
                               (<["tokens" := HNum (fst (snd (TokenBucketSpec.step 8 8 t stored)))]> h)))
                       (Some (clock + 60000))]> d).
Proof.
  intros Hb.
  unfold TokenBucketSpec.step, CONSUME_LUA, CAPACITY, MAX_RPS.
  destruct stored as [[tk lr]|]; simpl in Hb; simpl default; cbv iota beta.
  - destruct Hb as ([ex Hl] & Htk & Hlr).
    pose proof (lookup_live _ _ _ _ Hl) as Hlive.
    unfold hmget2, hmset2. rewrite Hl. simpl. rewrite Htk, Hlr. simpl.
    rewrite math_max_Qmax, math_min_Qmin.
    destruct (Qle_bool 1 _); simpl; unfold expire;
      rewrite lookup_insert_live by done; simpl;
      by rewrite insert_insert_eq.
  - destruct Hb as [Hl ->].
    unfold hmget2, hmset2. rewrite Hl. simpl.
    rewrite math_max_Qmax, math_min_Qmin.
    destruct (Qle_bool 1 _); simpl; unfold expire;
      rewrite lookup_insert_live by done; simpl;
      by rewrite insert_insert_eq.
Qed.

(** The step of the token bucket from a count within the capacity. *)
Lemma step_bounds (t : Q) (stored : option (Q * Q)) :
  let T := fst (default (8%Q, t) stored) in
  let L := snd (default (8%Q, t) stored) in
  let r := TokenBucketSpec.step 8 8 t stored in
  (0 <= T)%Q → (T <= 8)%Q → (L <= t)%Q →
  (fst r = TokenBucketSpec.GRANTED ∨ fst r = TokenBucketSpec.DENIED)
  ∧ snd (snd r) = t
  ∧ (0 <= fst (snd r))%Q ∧ (fst (snd r) <= 8)%Q
  ∧ (fst (snd r) + inject_Z (TokenBucketSpec.reply (fst r)) == Qmin 8 (T + (t - L) * 8))%Q
  ∧ (fst r = TokenBucketSpec.DENIED → (Qmin 8 (T + (t - L) * 8) < 1)%Q).
Proof.
  unfold TokenBucketSpec.step.
  destruct (default (8%Q, t) stored) as [T L]. simpl.
  intros H0 H8 HL.
  assert (Hmax : (Qmax 0 (t - L) == t - L)%Q).
  { destruct (Q.max_spec 0 (t - L)) as [[? ->]|[? ->]]; lra. }
  assert (Hmin : (Qmin 8 (T + Qmax 0 (t - L) * 8) == Qmin 8 (T + (t - L) * 8))%Q).
  { by rewrite Hmax. }
  assert (Hn : (0 <= Qmin 8 (T + Qmax 0 (t - L) * 8))%Q
               ∧ (Qmin 8 (T + Qmax 0 (t - L) * 8) <= 8)%Q).
  { rewrite Hmax.
    destruct (Q.min_spec 8 (T + (t - L) * 8)) as [[? ->]|[? ->]]; split; lra. }
  destruct (Qle_bool 1 _) eqn:Hq; simpl.
  - apply Qle_bool_iff in Hq. split; [by left|]. split; [done|].
    change (inject_Z 1) with 1%Q. rewrite <- Hmin. repeat split; try lra. done.
  - split; [by right|]. split; [done|].
    assert (¬ (1 <= Qmin 8 (T + Qmax 0 (t - L) * 8))%Q) as Hlt.
    { rewrite <- Qle_bool_iff. by rewrite Hq. }
    change (inject_Z 0) with 0%Q. rewrite <- Hmin. repeat split; try lra.
Qed.

Lemma bucket_ok_level c0 d : bucket_ok c0 d → (0 <= bucket_level d)%Q ∧ (bucket_level d <= 8)%Q.
Proof.
  unfold bucket_level. intros [->|(h & T & -> & -> & _ & ? & ?)]; [lra|done].
Qed.

Lemma bucket_ok_holds (c0 c : Z) (d : db) :
  bucket_ok c0 d → c0 ≤ c →
  ∃ h stored,
    holds_bucket c BUCKET_KEY d h stored
    ∧ let T := fst (default (8%Q, (inject_Z c / 1000)%Q) stored) in
      let L := snd (default (8%Q, (inject_Z c / 1000)%Q) stored) in
      (0 <= T)%Q ∧ (T <= 8)%Q ∧ (L <= inject_Z c / 1000)%Q
      ∧ (Qmin 8 (T + (inject_Z c / 1000 - L) * 8) == bucket_stock c0 c d)%Q.
Proof.
  intros Hok Hle. pose proof (secs_le _ _ Hle) as Hsec. unfold bucket_stock.
  destruct Hok as [Habs|(h & T & Hd & Htk & Hlr & H0 & H8)].
  - exists ∅, None. simpl. split; [split; [|done]|].
    + unfold lookup. by rewrite Habs.
    + unfold bucket_level. rewrite Habs. repeat split; try lra.
      destruct (Q.min_spec 8 (8 + (inject_Z c / 1000 - inject_Z c / 1000) * 8)) as [[? ->]|[? ->]];
      destruct (Q.min_spec 8 (8 + (inject_Z c / 1000 - inject_Z c0 / 1000) * 8)) as [[? ->]|[? ->]];
      lra.
  - assert (Hlev : bucket_level d = T) by (unfold bucket_level; by rewrite Hd, Htk).
    rewrite Hlev.
    destruct (lookup c BUCKET_KEY d) as [e|] eqn:Hl.
    + assert (e = Entry (RHash h) (Some (c0 + 60000))) as ->.
      { unfold lookup in Hl. rewrite Hd in Hl. destruct (live c _); [by injection Hl as <-|discriminate Hl]. }
      exists h, (Some (T, (inject_Z c0 / 1000)%Q)). simpl.
      split; [split; [by eexists|done]|]. repeat split; try lra.
    + exists ∅, None. simpl. split; [done|].
      assert (c0 + 60000 ≤ c) as Hexp.
      { unfold lookup in Hl. rewrite Hd in Hl. unfold live in Hl. simpl in Hl.
        destruct (c <? c0 + 60000) eqn:E; [done|]. lia. }
      apply secs_ge_60 in Hexp. repeat split; try lra.
      destruct (Q.min_spec 8 (8 + (inject_Z c / 1000 - inject_Z c / 1000) * 8)) as [[? ->]|[? ->]];
      destruct (Q.min_spec 8 (T + (inject_Z c / 1000 - inject_Z c0 / 1000) * 8)) as [[? ->]|[? ->]];
      lra.
Qed.

Lemma CONSUME_LUA_step (c0 c : Z) (d : db) :
  bucket_ok c0 d → c0 ≤ c →
  ∃ g d',
    CONSUME_LUA c BUCKET_KEY CAPACITY MAX_RPS (inject_Z c / 1000) d = Ok (g, d')
    ∧ (g = 0 ∨ g = 1)
    ∧ bucket_ok c d'
    ∧ (∀ k, k ≠ BUCKET_KEY → d' !! k = d !! k)
    ∧ (bucket_level d' + inject_Z g == bucket_stock c0 c d)%Q
    ∧ (g = 0 → (bucket_stock c0 c d < 1)%Q).
Proof.
  intros Hok Hle.
  destruct (bucket_ok_holds _ _ _ Hok Hle) as (h & stored & Hb & H0 & H8 & HL & Hst).
  rewrite (CONSUME_LUA_stored _ _ _ _ _ _ Hb).
  destruct (step_bounds (inject_Z c / 1000) stored H0 H8 HL)
    as (Hv & Ht & Hn0 & Hn8 & Hsum & Hden).
  eexists _, _. split; [done|]. split; [|split; [|split; [|split]]].
  - destruct Hv as [-> | ->]; by (left + right).
  - right. eexists _, _. rewrite lookup_insert_eq. split; [done|].
    rewrite lookup_insert_ne by done. rewrite lookup_insert_eq.
    split; [done|]. rewrite lookup_insert_eq. rewrite Ht. done.
  - intros k Hk. by rewrite lookup_insert_ne.
  - unfold bucket_level at 1. rewrite lookup_insert_eq.
    rewrite lookup_insert_ne by done. rewrite lookup_insert_eq.
    rewrite Hsum. exact Hst.
  - intros Hg. rewrite <- Hst. apply Hden.
    by destruct Hv as [Hv | Hv]; rewrite Hv in Hg.
Qed.

Lemma notifyThrottled_other (c : Z) (d : db) (k : string) :
  k ≠ COOLDOWN_KEY → notifyThrottled c d !! k = d !! k.
Proof.
  intros Hk. unfold notifyThrottled, set_ex_nx.
  destruct (lookup c COOLDOWN_KEY d); simpl; [done|]. by rewrite lookup_insert_ne.
Qed.

Lemma bucket_ok_ext (c0 : Z) (d d' : db) :
  d' !! BUCKET_KEY = d !! BUCKET_KEY → bucket_ok c0 d → bucket_ok c0 d'.
Proof. unfold bucket_ok. by intros ->. Qed.

Lemma bucket_stock_ext (c0 c : Z) (d d' : db) :
  d' !! BUCKET_KEY = d !! BUCKET_KEY → bucket_stock c0 c d' = bucket_stock c0 c d.
Proof. unfold bucket_stock, bucket_level. by intros ->. Qed.

Lemma stock_later (c0 c c' : Z) (d : db) :
  c ≤ c' →
  (bucket_stock c0 c' d <= bucket_stock c0 c d + (inject_Z c' / 1000 - inject_Z c / 1000) * 8)%Q.
Proof.
  intros Hle. apply secs_le in Hle. unfold bucket_stock.
  destruct (Q.min_spec 8 (bucket_level d + (inject_Z c' / 1000 - inject_Z c0 / 1000) * 8)) as [[? ->]|[? ->]];
  destruct (Q.min_spec 8 (bucket_level d + (inject_Z c / 1000 - inject_Z c0 / 1000) * 8)) as [[? ->]|[? ->]];
  lra.
Qed.

Lemma stock_now (c : Z) (d : db) : bucket_ok c d → (bucket_stock c c d == bucket_level d)%Q.
Proof.
  intros [? ?]%bucket_ok_level. unfold bucket_stock.
  destruct (Q.min_spec 8 (bucket_level d + (inject_Z c / 1000 - inject_Z c / 1000) * 8)) as [[? ->]|[? ->]];
  lra.
Qed.

Lemma stock_bounds (c0 c : Z) (d : db) :
  bucket_ok c0 d → c0 ≤ c → (0 <= bucket_stock c0 c d)%Q ∧ (bucket_stock c0 c d <= 8)%Q.
Proof.
  intros [? ?]%bucket_ok_level Hle%secs_le. unfold bucket_stock.
  destruct (Q.min_spec 8 (bucket_level d + (inject_Z c / 1000 - inject_Z c0 / 1000) * 8)) as [[? ->]|[? ->]];
  split; lra.
Qed.

Lemma last_time_ge (c : Z) (ops : list limiter_op) : in_order c ops → c ≤ last_time c ops.
Proof.
  revert c. induction ops as [|o ops IH]; intros c; simpl; [lia|].
  intros [H1 H2]. specialize (IH _ H2). unfold last_time in *. simpl. lia.
Qed.

(** One turn of [acquire] on a well-kept bucket. *)
Lemma acquire_turn_ok (c0 c : Z) (d : db) :
  bucket_ok c0 d → c0 ≤ c →
  (0 < pttl c COOLDOWN_KEY d
   ∧ acquire_turn c c d = Ok (CoolingDown (pttl c COOLDOWN_KEY d), d))
  ∨ (pttl c COOLDOWN_KEY d ≤ 0
     ∧ ∃ r d',
         acquire_turn c c d = Ok (r, d')
         ∧ (r = Granted ∨ r = Denied)
         ∧ bucket_ok c d'
         ∧ (∀ k, k ≠ BUCKET_KEY → d' !! k = d !! k)
         ∧ (bucket_level d' + (if is_granted r then 1 else 0) == bucket_stock c0 c d)%Q
         ∧ (r = Denied → (bucket_stock c0 c d < 1)%Q)).
Proof.
  intros Hok Hle. unfold acquire_turn.
  destruct (0 <? pttl c COOLDOWN_KEY d) eqn:E.
  - left. split; [lia|done].
  - right. split; [lia|].
    destruct (CONSUME_LUA_step _ _ _ Hok Hle) as (g & d' & -> & Hg & Hok' & Hfr & Hlev & Hden).
    simpl. destruct Hg as [-> | ->]; simpl; eexists _, d';
      (split; [done|]); (split; [by (left + right)|]); (split; [done|]);
      (split; [done|]); (split; [exact Hlev|]); [by intros _; apply Hden|done].
Qed.

Lemma grants_cons (r : acquire_round) (rs : list acquire_round) :
  grants (r :: rs) = if is_granted r then S (grants rs) else grants rs.
Proof.
  unfold grants. rewrite filter_cons. by destruct r.
Qed.

Lemma run_bound (ops : list limiter_op) : ∀ (c0 c : Z) (d : db),
  bucket_ok c0 d → c0 ≤ c → in_order c ops →
  ∃ rounds d' c1,
    limiter_run ops d = Ok (rounds, d')
    ∧ bucket_ok c1 d' ∧ c1 ≤ last_time c ops
    ∧ (inject_Z (Z.of_nat (grants rounds))
       <= bucket_stock c0 c d + (inject_Z (last_time c ops) / 1000 - inject_Z c / 1000) * 8)%Q.
Proof.
  induction ops as [|o ops IH]; intros c0 c d Hok Hle Hord.
  - exists [], d, c0. split; [done|]. split; [done|]. split; [done|].
    destruct (stock_bounds _ _ _ Hok Hle). simpl. unfold last_time. simpl.
    change (inject_Z (Z.of_nat (grants []))) with 0%Q. qsecs; lra.
  - destruct Hord as [Hc Hord].
    pose proof (last_time_ge _ _ Hord) as Hlast.
    pose proof (stock_later c0 c (time_of o) d Hc) as Hlater.
    assert (Hlt : last_time c (o :: ops) = last_time (time_of o) ops) by done.
    rewrite Hlt.
    destruct o as [c'|c']; simpl in *.
    + destruct (acquire_turn_ok c0 c' d Hok ltac:(lia))
        as [[Hcool ->]|(Hcool & r & d1 & -> & Hr & Hok1 & Hfr & Hlev & _)].
      * destruct (IH c0 c' d Hok ltac:(lia) Hord) as (rounds & d' & c1 & Hrun & Hok' & Hc1 & Hb).
        simpl. rewrite Hrun. simpl. eexists _, d', c1. split; [done|]. split; [done|]. split; [done|].
        rewrite grants_cons. simpl. qsecs; lra.
      * destruct (IH c' c' d1 Hok1 ltac:(lia) Hord) as (rounds & d' & c1 & Hrun & Hok' & Hc1 & Hb).
        simpl. rewrite Hrun. simpl. eexists _, d', c1. split; [done|]. split; [done|]. split; [done|].
        rewrite (stock_now _ _ Hok1) in Hb.
        rewrite grants_cons.
        destruct Hr as [-> | ->]; simpl in *.
        -- rewrite Nat2Z.inj_succ. unfold Z.succ. rewrite inject_Z_plus.
           change (inject_Z 1) with 1%Q. qsecs; lra.
        -- qsecs; lra.
    + destruct (IH c0 c' (notifyThrottled c' d)) as (rounds & d' & c1 & -> & Hok' & Hc1 & Hb).
      * eapply bucket_ok_ext; [|exact Hok]. by apply notifyThrottled_other.
      * lia.
      * done.
      * eexists _, d', c1. split; [done|]. split; [done|]. split; [done|].
        rewrite (bucket_stock_ext c0 c' d) in Hb by (by apply notifyThrottled_other).
        qsecs; lra.
Qed.

(** X1.  However the turns of [acquire] and the throttling notices of the
    clients fall, as long as time does not go back, the turns that are
    granted between [c] and the last operation number at most 8 plus 8
    per second elapsed; no operation fails, and the bucket stays within
    its capacity. *)
Theorem acquire_rate_bound (c0 c : Z) (ops : list limiter_op) (d : db) :
  bucket_ok c0 d → c0 ≤ c → in_order c ops →
  ∃ rounds d' c1,
    limiter_run ops d = Ok (rounds, d')
    ∧ bucket_ok c1 d'
    ∧ 1000 * Z.of_nat (grants rounds) ≤ 8000 + 8 * (last_time c ops - c).
Proof.
  intros Hok Hle Hord.
  destruct (run_bound ops c0 c d Hok Hle Hord) as (rounds & d' & c1 & Hrun & Hok' & _ & Hb).
  exists rounds, d', c1. split; [done|]. split; [done|].
  destruct (stock_bounds _ _ _ Hok Hle) as [_ H8].
  rewrite Zle_Qle. rewrite inject_Z_mult, inject_Z_plus, inject_Z_mult.
  unfold Z.sub. rewrite inject_Z_plus, inject_Z_opp.
  change (inject_Z 1000) with 1000%Q. change (inject_Z 8000) with 8000%Q.
  change (inject_Z 8) with 8%Q.
  unfold Qdiv in Hb. change (/ 1000)%Q with (1 # 1000)%Q in Hb. lra.
Qed.

Lemma acquire_rate_bound_witness :
  let ops := [Turn 1000; Turn 1000; Throttled 1010; Turn 1020; Turn 31010; Turn 31050] in
  bucket_ok 0 ∅ ∧ 0 ≤ 1000 ∧ in_order 1000 ops
  ∧ ∃ rounds d' c1,
      limiter_run ops ∅ = Ok (rounds, d') ∧ bucket_ok c1 d'
      ∧ 1000 * Z.of_nat (grants rounds) ≤ 8000 + 8 * (last_time 1000 ops - 1000).
Proof.
  intros ops.
  assert (H1 : bucket_ok 0 ∅) by (by left).
  assert (H2 : 0 ≤ 1000) by lia.
  assert (H3 : in_order 1000 ops) by (simpl; lia).
  split; [exact H1|]. split; [exact H2|]. split; [exact H3|].
  exact (acquire_rate_bound 0 1000 ops ∅ H1 H2 H3).
Defined.

Lemma pttl_ext (c : Z) (k : string) (d d' : db) :
  d' !! k = d !! k → pttl c k d' = pttl c k d.
Proof. unfold pttl, lookup. by intros ->. Qed.

(** With no cooldown ahead and [n] sleeps of 40 ms enough to refill one
    token, [acquire] returns within those sleeps. *)
Lemma acquire_refills (n : nat) : ∀ (m : nat) (c0 c : Z) (d : db),
  bucket_ok c0 d → c0 ≤ c →
  (∀ c', c ≤ c' → pttl c' COOLDOWN_KEY d ≤ 0) →
  (1 - (32 # 100) * inject_Z (Z.of_nat n) <= bucket_stock c0 c d)%Q →
  ∃ t d',
    acquire (S n + m) c d = Ok (Some (t, d'))
    ∧ c ≤ t ≤ c + 40 * Z.of_nat n
    ∧ bucket_ok t d'.
Proof.
  induction n as [|n IH]; intros m c0 c d Hok Hle Hquiet Hst.
  - destruct (acquire_turn_ok c0 c d Hok Hle)
      as [[Hcool _]|(_ & r & d1 & Hturn & Hr & Hok1 & Hfr & Hlev & Hden)].
    { specialize (Hquiet c). lia. }
    simpl. rewrite Hturn. simpl.
    destruct Hr as [-> | ->].
    + exists c, d1. split; [done|]. split; [lia|done].
    + specialize (Hden eq_refl). change (inject_Z (Z.of_nat 0)) with 0%Q in Hst. lra.
  - destruct (acquire_turn_ok c0 c d Hok Hle)
      as [[Hcool _]|(_ & r & d1 & Hturn & Hr & Hok1 & Hfr & Hlev & Hden)].
    { specialize (Hquiet c). lia. }
    change (S (S n) + m)%nat with (S (S n + m)).
    cbn [acquire]. rewrite Hturn. cbn [mbind result_bind fst snd].
    destruct Hr as [-> | ->].
    + exists c, d1. split; [done|]. split; [lia|done].
    + destruct (IH m c (c + 40) d1 Hok1 ltac:(lia)) as (t & d' & Hacq & Ht & Hok').
      * intros c' Hc'. rewrite (pttl_ext c' COOLDOWN_KEY d d1) by (by apply Hfr).
        apply Hquiet. lia.
      * simpl in Hlev.
        destruct (bucket_ok_level _ _ Hok1) as [Hl0 Hl8].
        assert (0 <= inject_Z (Z.of_nat n))%Q as Hn0.
        { change 0%Q with (inject_Z 0). rewrite <- Zle_Qle. lia. }
        rewrite Nat2Z.inj_succ in Hst. unfold Z.succ in Hst.
        rewrite inject_Z_plus in Hst. change (inject_Z 1) with 1%Q in Hst.
        unfold bucket_stock at 1. rewrite inject_Z_plus. change (inject_Z 40) with 40%Q.
        destruct (Q.min_spec 8 (bucket_level d1 + ((inject_Z c + 40) / 1000 - inject_Z c / 1000) * 8))
          as [[? ->]|[? ->]]; qsecs; lra.
      * exists t, d'. split; [exact Hacq|]. split; [lia|done].
Qed.

(** X2.  Run alone on a bucket the script keeps, [acquire] returns: no
    earlier than the end of a cooldown in force when it is called, and
    no later than 160 ms after it (four sleeps of 40 ms refill one
    token). *)
Theorem acquire_returns (c0 c : Z) (d : db) :
  bucket_ok c0 d → c0 ≤ c →
  ∃ t d',
    acquire 6 c d = Ok (Some (t, d'))
    ∧ resume c d ≤ t ≤ resume c d + 160
    ∧ bucket_ok t d'.
Proof.
  intros Hok Hle.
  assert (Hfour : ∀ c', c0 ≤ c' → (1 - (32 # 100) * inject_Z (Z.of_nat 4) <= bucket_stock c0 c' d)%Q).
  { intros c' Hc'. destruct (stock_bounds _ _ _ Hok Hc') as [H0 _].
    change (inject_Z (Z.of_nat 4)) with 4%Q. lra. }
  unfold resume.
  destruct (0 <? pttl c COOLDOWN_KEY d) eqn:E.
  - assert (Hturn : acquire_turn c c d = Ok (CoolingDown (pttl c COOLDOWN_KEY d), d)).
    { unfold acquire_turn. by rewrite E. }
    change 6%nat with (S (5 + 0)). cbn [acquire]. rewrite Hturn.
    cbn [mbind result_bind fst snd].
    set (e := c + pttl c COOLDOWN_KEY d).
    destruct (acquire_refills 4 0 c0 e d Hok ltac:(lia)) as (t & d' & Hacq & Ht & Hok').
    + intros c' Hc'. subst e. unfold pttl in *. unfold lookup in *.
      destruct (d !! COOLDOWN_KEY) as [[v [x|]]|]; unfold live in *; simpl in *.
      * destruct (c <? x) eqn:E1; [|done]. simpl in Hc'.
        destruct (c' <? x) eqn:E2; simpl; lia.
      * done.
      * done.
    + apply Hfour. lia.
    + exists t, d'. split; [exact Hacq|]. split; [lia|done].
  - destruct (acquire_refills 4 1 c0 c d Hok Hle) as (t & d' & Hacq & Ht & Hok').
    + intros c' Hc'. unfold pttl in *. unfold lookup in *.
      destruct (d !! COOLDOWN_KEY) as [[v [x|]]|]; unfold live in *; simpl in *.
      * destruct (c <? x) eqn:E1; simpl in E; [lia|].
        destruct (c' <? x) eqn:E2; simpl; lia.
      * done.
      * done.
    + by apply Hfour.
    + exists t, d'. split; [exact Hacq|]. split; [lia|done].
Qed.





Lemma acquire_returns_witness :
  let d : db := notifyThrottled 1000 ∅ in
  bucket_ok 0 d ∧ 0 ≤ 2000
  ∧ ∃ t d', acquire 6 2000 d = Ok (Some (t, d')) ∧ 31000 ≤ t ≤ 31160.
Proof.
  intros d.
  assert (H1 : bucket_ok 0 d) by (by left).
  assert (H2 : 0 ≤ 2000) by lia.
  split; [exact H1|]. split; [exact H2|].
  destruct (acquire_returns 0 2000 d H1 H2) as (t & d' & Ha & Ht & _).
  exists t, d'. split; [exact Ha|]. exact Ht.
Defined.

End RateLimiterMore.

(* ===================================================================== *)
(** * Theorems: from the scheduler to the workers *)
(* ===================================================================== *)

Section DoubleFacts.
Import JS.

Lemma to_double_proper (q q' : Q) : (q == q')%Q → to_double q = to_double q'.
Proof. intros E. unfold to_double. by rewrite (Qred_complete _ _ E). Qed.

Lemma Qred_inject_Z (z : Z) : Qred (inject_Z z) = inject_Z z.
Proof. apply Qcanon.Qred_identity. simpl. apply Z.gcd_1_r. Qed.

Lemma round_half_even_Z (x : Q) (m : Z) : (x == inject_Z m)%Q → round_half_even x = m.
Proof.
  intros E. unfold round_half_even.
  rewrite (Qfloor_comp _ _ E), Qfloor_Z.
  assert ((x - inject_Z m ?= 1 # 2)%Q = Lt) as ->; [|done].
  apply Qlt_alt.
  assert (Hz : (x - inject_Z m == 0)%Q) by (rewrite E; ring).
  rewrite Hz. reflexivity.
Qed.

Lemma pow2_Q (n : Z) : 0 ≤ n → (Qpower 2 n == inject_Z (2 ^ n))%Q.
Proof. intros Hn. by rewrite Zpower_Qpower. Qed.

(** An integer of at most 53 bits is a double. *)
Lemma to_double_pos (p : Z) (neg : bool) :
  0 < p ≤ 2 ^ 53 →
  to_double (inject_Z (if neg then - p else p))
  = Finite (inject_Z (if neg then - p else p)).
Proof.
  intros Hp. unfold to_double. rewrite Qred_inject_Z.
  assert (Hneg : negb (Qle_bool 0 (inject_Z (if neg then - p else p))) = neg).
  { destruct neg.
    - apply negb_true_iff, not_true_iff_false. rewrite Qle_bool_iff.
      change 0%Q with (inject_Z 0). rewrite <- Zle_Qle. lia.
    - apply negb_false_iff, Qle_bool_iff.
      change 0%Q with (inject_Z 0). rewrite <- Zle_Qle. lia. }
  rewrite Hneg.
  assert (Ha : (if neg then - inject_Z (if neg then - p else p)
                else inject_Z (if neg then - p else p))%Q
               = inject_Z p).
  { destruct neg; [|done]. unfold Qopp, inject_Z. simpl. by rewrite Z.opp_involutive. }
  rewrite Ha. clear Ha Hneg.
  assert (Qeq_bool (inject_Z p) 0 = false) as ->.
  { apply not_true_iff_false. rewrite Qeq_bool_iff. unfold Qeq. simpl. lia. }
  set (e := Z.log2 p).
  assert (He : 0 ≤ e ≤ 53).
  { unfold e. split; [apply Z.log2_nonneg|].
    destruct (decide (p = 2 ^ 53)) as [->|]; [by rewrite Z.log2_pow2|].
    assert (Z.log2 p < 53); [|lia]. apply Z.log2_lt_pow2; lia. }
  assert (Hpe : 2 ^ e ≤ p < 2 ^ (e + 1)).
  { pose proof (Z.log2_spec p) as Hs.
    replace (e + 1) with (Z.succ (Z.log2 p)) by (unfold e; lia). unfold e. lia. }
  assert (Hfl : floor_log2 (inject_Z p) = e).
  { unfold floor_log2. simpl. change (Z.log2 1) with 0. rewrite Z.sub_0_r. fold e.
    assert (Qle_bool (Qpower 2 e) (inject_Z p) = true) as ->; [|done].
    apply Qle_bool_iff. rewrite pow2_Q by lia. rewrite <- Zle_Qle. lia. }
  rewrite Hfl. rewrite Z.max_l by lia.
  set (ulp := Qpower 2 (e - 52)).
  assert (Hulp : (0 < ulp)%Q) by (apply Qpower_0_lt; lra).
  assert (∃ m : Z, (inject_Z p / ulp == inject_Z m)%Q) as [m Hm].
  { destruct (decide (e ≤ 52)) as [Hle|Hgt].
    - exists (p * 2 ^ (52 - e)). rewrite inject_Z_mult, <- pow2_Q by lia.
      unfold ulp. replace (e - 52) with (- (52 - e)) by lia. rewrite Qpower_opp.
      unfold Qdiv. rewrite Qinv_involutive. done.
    - assert (e = 53) as E by lia. exists (2 ^ 52).
      assert (p = 2 ^ 53) as -> by (rewrite E in Hpe; lia).
      unfold ulp. rewrite E. vm_compute. done. }
  rewrite (round_half_even_Z _ _ Hm).
  assert (Hr : (inject_Z m * ulp == inject_Z p)%Q).
  { rewrite <- Hm. field. lra. }
  assert (Qle_bool (Qpower 2 1024) (inject_Z m * ulp) = false) as ->.
  { apply not_true_iff_false. rewrite Qle_bool_iff, Hr. rewrite pow2_Q by lia.
    rewrite <- Zle_Qle. assert (2 ^ 53 < 2 ^ 1024) by (apply Z.pow_lt_mono_r; lia). lia. }
  f_equal. destruct neg.
  - rewrite <- (Qred_inject_Z (- p)). apply Qred_complete. rewrite Hr.
    unfold Qopp, inject_Z. simpl. done.
  - rewrite <- (Qred_inject_Z p). by apply Qred_complete.
Qed.

Lemma to_double_int (z : Z) :
  - 2 ^ 53 ≤ z ≤ 2 ^ 53 → to_double (inject_Z z) = Finite (inject_Z z).
Proof.
  intros Hz. destruct (Z.lt_trichotomy z 0) as [Hn|[->|Hp]].
  - replace z with (- - z) by lia. apply (to_double_pos (- z) true). lia.
  - done.
  - apply (to_double_pos z false). lia.
Qed.

(** Text that starts with an ASCII character that is no white space has
    no leading white space. *)
Lemma trim_start_ascii (c : ascii) (s : string) :
  is_ws c = false → (nat_of_ascii c < 128)%nat →
  trim_start (String c s) = String c s.
Proof.
  intros Hw Hc. cbn [trim_start]. rewrite Hw.
  assert (H2 : ∀ c2, is_ws2 c c2 = false).
  { intros c2. unfold is_ws2.
    destruct (Nat.eqb_spec (nat_of_ascii c) 194); [lia|done]. }
  assert (H3 : ∀ c2 c3, is_ws3 c c2 c3 = false).
  { intros c2 c3. unfold is_ws3. cbv zeta.
    destruct (Nat.eqb_spec (nat_of_ascii c) 225); [lia|].
    destruct (Nat.eqb_spec (nat_of_ascii c) 226); [lia|].
    destruct (Nat.eqb_spec (nat_of_ascii c) 227); [lia|].
    destruct (Nat.eqb_spec (nat_of_ascii c) 239); [lia|]. done. }
  destruct s as [|c2 [|c3 s3]]; rewrite ?H2, ?H3; done.
Qed.

Lemma trim_start_uint (u : Decimal.uint) :
  trim_start (NilEmpty.string_of_uint u) = NilEmpty.string_of_uint u.
Proof.
  destruct u; [done|..]; cbn [NilEmpty.string_of_uint];
    (apply trim_start_ascii; [reflexivity|by apply Nat.ltb_lt]).
Qed.

(** A no-break space (U+00A0, the bytes 194 and 160) before a number is
    skipped; an integer above [2^53] reads as the nearest double; a
    literal beyond the largest double reads as an infinity. *)
Example parseFloat_skips_nbsp :
  parseFloat (String (ascii_of_nat 194) (String (ascii_of_nat 160) "12.5"))
  = Finite (25 # 2).
Proof. vm_compute. reflexivity. Qed.

Example parseInt_rounds :
  parseInt "9007199254740993" = Finite (inject_Z 9007199254740992).
Proof. vm_compute. reflexivity. Qed.

Example parseFloat_overflows : parseFloat "1e400" = Infinity false.
Proof. vm_compute. reflexivity. Qed.

End DoubleFacts.

Section DecimalText.

Lemma of_uint_acc_pos (u : Decimal.uint) : ∀ acc : positive,
  Z.pos (Pos.of_uint_acc u acc) = uint_acc u (Z.pos acc).
Proof.
  induction u; intros acc; simpl; [done|..]; rewrite IHu; f_equal; lia.
Qed.

Lemma of_uint_value (u : Decimal.uint) : Z.of_uint u = uint_acc u 0.
Proof.
  unfold Z.of_uint.
  induction u; simpl; try done; by rewrite of_uint_acc_pos.
Qed.

Lemma digits_in_uint (u : Decimal.uint) : ∀ (acc : Z) (len : nat),
  JS.digits_in 10 acc len (NilEmpty.string_of_uint u)
  = (uint_acc u acc, (len + Decimal.nb_digits u)%nat).
Proof.
  induction u; intros acc len; simpl;
    [by rewrite Nat.add_0_r|..];
    rewrite IHu; f_equal; lia.
Qed.

Lemma string_of_uint_nonnil (u : Decimal.uint) :
  u ≠ Decimal.Nil → NilZero.string_of_uint u = NilEmpty.string_of_uint u.
Proof. by destruct u. Qed.

Lemma string_of_Z_nonempty (z : Z) : Dec.string_of_Z z ≠ "".
Proof.
  unfold Dec.string_of_Z. destruct (Z_to_int_proper z) as [H1 H2].
  destruct (Z.to_int z) as [u|u]; simpl; [|done].
  assert (u ≠ Decimal.Nil) as Hne by congruence.
  rewrite string_of_uint_nonnil by done. by destruct u.
Qed.

(** [parseInt] reads back the decimal text of an integer that is a
    double. *)
Lemma parseInt_string_of_Z (z : Z) :
  - 2 ^ 53 ≤ z ≤ 2 ^ 53 →
  JS.parseInt (Dec.string_of_Z z) = JS.Finite (inject_Z z).
Proof.
  intros Hz. rewrite <- (to_double_int z Hz).
  unfold Dec.string_of_Z.
  assert (Hu : ∀ u (neg : bool), u ≠ Decimal.Nil →
    (let '(radix, s2) :=
       match NilEmpty.string_of_uint u with
       | String "0" (String "x" r) => (16, r)
       | String "0" (String "X" r) => (16, r)
       | _ => (10, NilEmpty.string_of_uint u)
       end in
     match JS.digits_in radix 0 0 s2 with
     | (_, O) => JS.NaN
     | (v, S _) => JS.to_double (inject_Z (if neg then - v else v))
     end)
    = JS.to_double (inject_Z (if neg then - Z.of_uint u else Z.of_uint u))).
  { intros u neg Hne.
    assert (match NilEmpty.string_of_uint u with
            | String "0" (String "x" r) => (16, r)
            | String "0" (String "X" r) => (16, r)
            | _ => (10, NilEmpty.string_of_uint u)
            end = (10, NilEmpty.string_of_uint u)) as ->.
    { destruct u as [|u|u|u|u|u|u|u|u|u|u]; try done. by destruct u. }
    rewrite digits_in_uint, of_uint_value. cbn [Nat.add].
    destruct (Decimal.nb_digits u) eqn:E; [|reflexivity].
    destruct u; simpl in E; congruence. }
  assert (Hfirst : ∀ u, u ≠ Decimal.Nil →
    JS.sign_of (JS.trim_start (NilEmpty.string_of_uint u))
    = (false, NilEmpty.string_of_uint u)).
  { intros u Hne. rewrite trim_start_uint. by destruct u. }
  destruct (Z_to_int_proper z) as [H1 H2].
  rewrite <- (DecimalZ.of_to z) at 2.
  destruct (Z.to_int z) as [u|u]; unfold JS.parseInt; simpl NilZero.string_of_int.
  - assert (u ≠ Decimal.Nil) as Hne by congruence.
    rewrite string_of_uint_nonnil by done. rewrite Hfirst by done.
    exact (Hu u false Hne).
  - assert (u ≠ Decimal.Nil) as Hne by congruence.
    rewrite string_of_uint_nonnil by done.
    rewrite (trim_start_ascii "-") by (reflexivity || by apply Nat.ltb_lt).
    cbn [JS.sign_of].
    exact (Hu u true Hne).
Qed.

End DecimalText.

Section SchedulerMore.
Import Redis Locations Scheduler.
Variable ALL_LOCATIONS : list Location.
Variable JSON_stringify : Location → string.

Lemma exec_pushes_is (clock : Z) (locs : list Location) : ∀ (d : db) (l : list string),
  queue_is l d →
  ∃ d', (exec clock (pushes JSON_stringify locs) d).2 = d'
    ∧ queue_is (rev (map JSON_stringify locs) ++ l) d'
    ∧ ∀ k, k ≠ QUEUE_KEY → d' !! k = d !! k.
Proof.
  induction locs as [|loc locs IH]; intros d l Hq.
  - by exists d.
  - simpl. fold (pushes JSON_stringify locs).
    assert (∃ d1, lpush clock QUEUE_KEY (JSON_stringify loc) d
                  = Ok (Z.of_nat (S (length l)), d1)
                  ∧ queue_is (JSON_stringify loc :: l) d1
                  ∧ ∀ k, k ≠ QUEUE_KEY → d1 !! k = d !! k) as (d1 & Hp & Hq1 & Hk1).
    { unfold lpush, lookup. destruct l as [|x l]; simpl in Hq; rewrite Hq; simpl.
      - eexists. split; [done|]. split; [by rewrite lookup_insert_eq|].
        intros k Hk. by rewrite lookup_insert_ne.
      - eexists. split; [done|]. split; [by rewrite lookup_insert_eq|].
        intros k Hk. by rewrite lookup_insert_ne. }
    rewrite Hp. destruct (IH d1 _ Hq1) as (d' & He & Hq' & Hk').
    destruct (exec clock (pushes JSON_stringify locs) d1) as [rs d2]. simpl in *.
    subst d2. exists d'. split; [done|]. split.
    + by rewrite <- app_assoc.
    + intros k Hk. rewrite Hk' by done. by apply Hk1.
Qed.

(** What [enqueueLocations] leaves under its three keys. *)
Lemma enqueue_keys (clock date_now n : Z) (d : db) :
  cycle_id clock d = Some n →
  - int64_max - 1 ≤ n < int64_max →
  ∃ d' ex,
    enqueueLocations ALL_LOCATIONS JSON_stringify clock date_now d = Ok (n + 1, d')
    ∧ d' !! CYCLE_KEY = Some (Entry (RString (Dec.string_of_Z (n + 1))) ex)
    ∧ (ex = None ∨ ∃ v, d !! CYCLE_KEY = Some (Entry v ex))
    ∧ d' !! CYCLE_START = Some (Entry (RString (Dec.string_of_Z date_now)) None)
    ∧ queue_is (rev (map JSON_stringify ALL_LOCATIONS)) d'
    ∧ ∀ k, k ≠ CYCLE_KEY → k ≠ CYCLE_START → k ≠ QUEUE_KEY → d' !! k = d !! k.
Proof.
  intros Hc Hn. unfold enqueueLocations.
  assert (∃ d1 ex, incr clock CYCLE_KEY d = Ok (n + 1, d1)
                ∧ d1 = <[CYCLE_KEY := Entry (RString (Dec.string_of_Z (n + 1))) ex]> d
                ∧ (ex = None ∨ ∃ v, d !! CYCLE_KEY = Some (Entry v ex)))
    as (d1 & ex & Hi & Hd1 & Hex).
  { unfold cycle_id in Hc. unfold incr.
    destruct (lookup clock CYCLE_KEY d) as [[[s|l|h] ex]|] eqn:Hl; try done.
    - rewrite Hc.
      replace ((n <? - int64_max - 1) || (int64_max <? n)) with false by lia.
      replace (n =? int64_max) with false by lia.
      eexists _, ex. split; [done|]. split; [done|]. right.
      unfold lookup in Hl. destruct (d !! CYCLE_KEY) as [e|]; [|done].
      destruct (live clock e); [|done]. injection Hl as ->. by eexists.
    - injection Hc as <-. eexists _, None. split; [done|]. split; [done|]. by left. }
  rewrite Hi. simpl.
  set (d2 := del QUEUE_KEY (set CYCLE_START (Dec.string_of_Z date_now) d1)).
  destruct (exec_pushes_is clock ALL_LOCATIONS d2 []) as (d' & He & Hq & Hk).
  { unfold queue_is, d2, del. by rewrite lookup_delete_eq. }
  fold (pushes JSON_stringify ALL_LOCATIONS).
  destruct (exec clock (pushes JSON_stringify ALL_LOCATIONS) d2) as [rs d3].
  simpl in He. subst d3. exists d', ex.
  rewrite app_nil_r in Hq.
  split; [done|]. split; [|split; [done|split; [|split; [done|]]]].
  - rewrite Hk by done. unfold d2, del, set.
    rewrite lookup_delete_ne by done. rewrite lookup_insert_ne by done.
    subst d1. by rewrite lookup_insert_eq.
  - rewrite Hk by done. unfold d2, del, set.
    rewrite lookup_delete_ne by done. by rewrite lookup_insert_eq.
  - intros k H1 H2 H3. rewrite Hk by done. unfold d2, del, set.
    rewrite lookup_delete_ne by done. rewrite lookup_insert_ne by done.
    subst d1. by rewrite lookup_insert_ne.
Qed.

Lemma pops_is (items : list string) : ∀ (cs : list Z) (d : db),
  queue_is (rev items) d → length cs = length items →
  ∃ d', pops cs d = Ok (map Some items, d')
    ∧ queue_is [] d'
    ∧ ∀ k, k ≠ QUEUE_KEY → d' !! k = d !! k.
Proof.
  induction items as [|a items IH]; intros cs d Hq Hlen.
  - destruct cs; [|done]. by exists d.
  - destruct cs as [|c cs]; [done|]. simpl in Hlen.
    assert (∃ d1, rpop c QUEUE_KEY d = Ok (Some a, d1)
                  ∧ queue_is (rev items) d1
                  ∧ ∀ k, k ≠ QUEUE_KEY → d1 !! k = d !! k) as (d1 & Hp & Hq1 & Hk1).
    { simpl in Hq. unfold queue_is in Hq.
      assert (d !! QUEUE_KEY = Some (Entry (RList (rev items ++ [a])) None)) as Hd.
      { by destruct (rev items ++ [a]) eqn:E; [destruct (rev items)|]. }
      unfold rpop, lookup. rewrite Hd. simpl.
      rewrite last_snoc. rewrite length_app. simpl.
      replace (pred (length (rev items) + 1)) with (length (rev items)) by lia.
      rewrite take_app_length.
      destruct (rev items) as [|x l] eqn:E.
      - eexists. split; [done|]. split; [by simpl; rewrite lookup_delete_eq|].
        intros k Hk. by rewrite lookup_delete_ne.
      - eexists. split; [done|]. split; [by simpl; rewrite lookup_insert_eq|].
        intros k Hk. by rewrite lookup_insert_ne. }
    destruct (IH cs d1 Hq1 ltac:(lia)) as (d' & Hps & Hq' & Hk').
    simpl. rewrite Hp. simpl. rewrite Hps. simpl.
    exists d'. split; [done|]. split; [done|].
    intros k Hk. rewrite Hk' by done. by apply Hk1.
Qed.

(** X4.  The locations a cycle enqueues come off the queue in the order
    of the catalog, each once: after [enqueueLocations], as many pops as
    the catalog has locations return its locations first to last,
    whenever they are made; the queue key is then gone and a further
    pop finds nothing. *)
Theorem cycle_pops_in_order (clock date_now n : Z) (cs : list Z) (d : db) :
  cycle_id clock d = Some n →
  - int64_max - 1 ≤ n < int64_max →
  length cs = length ALL_LOCATIONS →
  ∃ d1 d2,
    enqueueLocations ALL_LOCATIONS JSON_stringify clock date_now d = Ok (n + 1, d1)
    ∧ pops cs d1 = Ok (map (fun loc => Some (JSON_stringify loc)) ALL_LOCATIONS, d2)
    ∧ d2 !! QUEUE_KEY = None
    ∧ (∀ c, rpop c QUEUE_KEY d2 = Ok (None, d2))
    ∧ (∀ k, k ≠ QUEUE_KEY → d2 !! k = d1 !! k).
Proof.
  intros Hc Hn Hlen.
  destruct (enqueue_keys clock date_now n d Hc Hn) as (d1 & ex & He & _ & _ & _ & Hq & _).
  destruct (pops_is (map JSON_stringify ALL_LOCATIONS) cs d1 Hq) as (d2 & Hp & Hq2 & Hk).
  { by rewrite length_map. }
  exists d1, d2. split; [done|]. split.
  { rewrite Hp. by rewrite map_map. }
  split; [done|]. split; [|done].
  intros c. unfold rpop, lookup. simpl in Hq2. by rewrite Hq2.
Qed.

(** X5.  What the scheduler writes, a worker reads back: after
    [enqueueLocations], at any time at which the counter key has not
    expired, [MGET] of the two cycle keys returns texts that [parseInt]
    reads as the new cycle id and as the start time of the cycle, the
    cycle id being at most [2^53] in magnitude and the start time a
    time value. *)
Theorem worker_reads_cycle (clock date_now n clock' : Z) (d : db) :
  cycle_id clock d = Some n →
  - 2 ^ 53 ≤ n + 1 ≤ 2 ^ 53 →
  - JS.maxTime ≤ date_now ≤ JS.maxTime →
  (∀ e, d !! CYCLE_KEY = Some e → expire_at e = None) →
  ∃ d' cycleIdStr startMsStr,
    enqueueLocations ALL_LOCATIONS JSON_stringify clock date_now d = Ok (n + 1, d')
    ∧ mget2 clock' CYCLE_KEY CYCLE_START d' = (Some cycleIdStr, Some startMsStr)
    ∧ JS.parseInt cycleIdStr = JS.Finite (inject_Z (n + 1))
    ∧ JS.parseInt startMsStr = JS.Finite (inject_Z date_now).
Proof.
  intros Hc Hn Hd Hex.
  change (2 ^ 53) with 9007199254740992 in *.
  assert (Hn' : - int64_max - 1 ≤ n < int64_max) by (unfold int64_max; lia).
  destruct (enqueue_keys clock date_now n d Hc Hn') as (d' & ex & He & Hid & Hex' & Hst & _).
  assert (ex = None) as ->.
  { destruct Hex' as [->|[v Hv]]; [done|]. by apply Hex in Hv. }
  exists d', (Dec.string_of_Z (n + 1)), (Dec.string_of_Z date_now).
  split; [done|]. split.
  - unfold mget2, lookup. by rewrite Hid, Hst.
  - split; apply parseInt_string_of_Z;
      change (2 ^ 53) with 9007199254740992; [done|].
    unfold JS.maxTime in Hd. lia.
Qed.

(** X6.  [enqueueLocations] fails on its counter and on nothing else: it
    is rejected exactly when the counter key holds no integer below the
    64-bit limit, whatever the other keys hold. *)
Theorem enqueue_fails_only_on_counter (clock date_now : Z) (d : db) :
  is_ok (enqueueLocations ALL_LOCATIONS JSON_stringify clock date_now d) = true
  ↔ ∃ n, cycle_id clock d = Some n ∧ - int64_max - 1 ≤ n < int64_max.
Proof.
  split.
  - unfold enqueueLocations, incr, cycle_id.
    destruct (lookup clock CYCLE_KEY d) as [[[s|l|h] ex]|]; try done.
    + destruct (Dec.Z_of_string s) as [n|]; [|done].
      destruct ((n <? - int64_max - 1) || (int64_max <? n)) eqn:E1; [done|].
      destruct (n =? int64_max) eqn:E2; [done|].
      intros _. exists n. split; [done|]. lia.
    + intros _. exists 0. split; [done|]. unfold int64_max. lia.
  - intros (n & Hc & Hn).
    destruct (enqueue_keys clock date_now n d Hc Hn) as (d' & ex & -> & _). done.
Qed.

End SchedulerMore.

Lemma cycle_pops_in_order_witness :
  let d : Redis.db :=
    <[Scheduler.QUEUE_KEY := Redis.Entry (Redis.RString "stale") None]> ∅ in
  Scheduler.cycle_id 1000 d = Some 0
  ∧ - Redis.int64_max - 1 ≤ 0 < Redis.int64_max
  ∧ length [1200; 1100] = length sample_catalog
  ∧ ∃ d1 d2,
      Scheduler.enqueueLocations sample_catalog sample_stringify 1000 1000 d
      = Ok (1, d1)
      ∧ pops [1200; 1100] d1 = Ok ([Some "Oslo"; Some "Quito"], d2)
      ∧ d2 !! Scheduler.QUEUE_KEY = None.
Proof.
  intros d.
  assert (H1 : Scheduler.cycle_id 1000 d = Some 0) by done.
  assert (H2 : - Redis.int64_max - 1 ≤ 0 < Redis.int64_max)
    by (unfold Redis.int64_max; lia).
  assert (H3 : length [1200; 1100] = length sample_catalog) by done.
  split; [exact H1|]. split; [exact H2|]. split; [exact H3|].
  destruct (cycle_pops_in_order sample_catalog sample_stringify 1000 1000 0
              [1200; 1100] d H1 H2 H3) as (d1 & d2 & He & Hp & Hq & _).
  exists d1, d2. split; [exact He|]. split; [exact Hp|]. exact Hq.
Defined.

Lemma worker_reads_cycle_witness :
  let d : Redis.db :=
    <[Scheduler.CYCLE_KEY := Redis.Entry (Redis.RString "41") None]> ∅ in
  Scheduler.cycle_id 1000 d = Some 41
  ∧ - 2 ^ 53 ≤ 41 + 1 ≤ 2 ^ 53
  ∧ - JS.maxTime ≤ 1700000040000 ≤ JS.maxTime
  ∧ (∀ e, d !! Scheduler.CYCLE_KEY = Some e → Redis.expire_at e = None)
  ∧ ∃ d' cycleIdStr startMsStr,
      Scheduler.enqueueLocations sample_catalog sample_stringify 1000 1700000040000 d
      = Ok (42, d')
      ∧ Redis.mget2 99000 Scheduler.CYCLE_KEY Scheduler.CYCLE_START d'
        = (Some cycleIdStr, Some startMsStr)
      ∧ JS.parseInt cycleIdStr = JS.Finite (inject_Z 42)
      ∧ JS.parseInt startMsStr = JS.Finite (inject_Z 1700000040000).
Proof.
  intros d.
  assert (H1 : Scheduler.cycle_id 1000 d = Some 41) by done.
  assert (H2 : - 2 ^ 53 ≤ 41 + 1 ≤ 2 ^ 53) by (simpl; lia).
  assert (H2' : - JS.maxTime ≤ 1700000040000 ≤ JS.maxTime)
    by (unfold JS.maxTime; lia).
  assert (H3 : ∀ e, d !! Scheduler.CYCLE_KEY = Some e → Redis.expire_at e = None).
  { intros e. unfold d. rewrite lookup_insert_eq. by intros [= <-]. }
  split; [exact H1|]. split; [exact H2|]. split; [exact H2'|]. split; [exact H3|].
  exact (worker_reads_cycle sample_catalog sample_stringify 1000 1700000040000 41
           99000 d H1 H2 H2' H3).
Defined.

(* ===================================================================== *)
(** * Theorems: what the consumer is given, and when it lets go of it *)
(* ===================================================================== *)

Section ConsumerMore.
Import Stream Consumer Group.
Context {St : Type}.
Variable onRecord : WeatherRecord → St → result string () * St.

Lemma handled_app (l1 l2 : list event) : handled_ids (l1 ++ l2) = handled_ids l1 ++ handled_ids l2.
Proof. apply omap_app. Qed.

Lemma handled_reactions (replies : string → xack_reply) (outs : list (string * bool)) :
  handled_ids (outs ≫= reaction replies) = outs.*1.
Proof.
  induction outs as [|[id ok] outs IH]; [done|].
  rewrite bind_cons, handled_app, IH. unfold reaction.
  destruct ok; [destruct (replies id)|]; done.
Qed.

Lemma handled_in_reactions (replies : string → xack_reply) (outs : list (string * bool))
    (id : string) (ok : bool) :
  EvHandled id ok ∈ outs ≫= reaction replies ↔ (id, ok) ∈ outs.
Proof.
  induction outs as [|[id' ok'] outs IH].
  - simpl. set_solver.
  - rewrite bind_cons, elem_of_app, IH, elem_of_cons. unfold reaction.
    destruct ok'; [destruct (replies id')|];
      rewrite !elem_of_cons, elem_of_nil; naive_solver.
Qed.

Lemma acked_entries (replies : string → xack_reply) (outs : list (string * bool))
    (b : stream) :
  entries (acked replies outs b) = entries b
  ∧ delivered (acked replies outs b) = delivered b.
Proof.
  revert b. induction outs as [|[id ok] outs IH]; intros b; [done|].
  rewrite acked_cons. cbn [fst snd].
  destruct (IH (if ok && applied (replies id) then xack id b else b)) as [-> ->].
  by destruct (ok && applied (replies id)).
Qed.

Lemma take_batch {A} (n count : nat) (l : list A) :
  take (n + length (take count (drop n l))) l = take n l ++ take count (drop n l).
Proof.
  rewrite <- take_take_drop. f_equal.
  rewrite length_take. destruct (decide (count ≤ length (drop n l))%nat).
  - by rewrite Nat.min_l.
  - rewrite Nat.min_r by lia. rewrite !take_ge; [done|lia|lia].
Qed.

(** One turn or one append, on the broker and the log. *)
Lemma turn_cases (now_iso : string) (replies : string → xack_reply) (ph : phase)
    (st : cstate St) :
  let c' := turn St onRecord now_iso replies (ph, st) in
  match ph with
  | Draining k =>
      let ms := take BATCH_SIZE (pel (broker st)) in
      let outs := outcomes onRecord now_iso ms (hstate st) in
      broker c'.2 = acked replies outs (broker st)
      ∧ log c'.2 = log st ++ EvRead FromPending (ms.*1) :: (outs ≫= reaction replies)
      ∧ hstate c'.2 = hstate_after onRecord now_iso ms (hstate st)
      ∧ c'.1 = match ms with [] => Listening | _ => Draining (k + length ms) end
  | Listening =>
      let ms := take BATCH_SIZE (drop (delivered (broker st)) (entries (broker st))) in
      let outs := outcomes onRecord now_iso ms (hstate st) in
      broker c'.2
      = acked replies outs
          (Stream_ (entries (broker st)) (delivered (broker st) + length ms)
                   (pel (broker st) ++ ms))
      ∧ log c'.2 = log st ++ EvRead FromNew (ms.*1) :: (outs ≫= reaction replies)
      ∧ hstate c'.2 = hstate_after onRecord now_iso ms (hstate st)
      ∧ c'.1 = Listening
  end.
Proof.
  destruct st as [b h l]. destruct ph as [k|]; cbn [turn broker hstate log].
  - unfold xreadgroup_pending. destruct (take BATCH_SIZE (pel b)) as [|m ms] eqn:E.
    + simpl. done.
    + rewrite processMessages_outcomes. cbn [broker hstate log fst snd].
      rewrite <- app_assoc. done.
  - unfold xreadgroup_new.
    destruct (take BATCH_SIZE (drop (delivered b) (entries b))) as [|m ms] eqn:E.
    + simpl. rewrite Nat.add_0_r, app_nil_r. by destruct b.
    + rewrite processMessages_outcomes. cbn [broker hstate log fst snd default].
      rewrite <- app_assoc. done.
Qed.

Lemma outcomes_elem (now_iso : string) (ms : list message) (h : St) (id : string) (ok : bool) :
  (id, ok) ∈ outcomes onRecord now_iso ms h →
  ∃ fields h', (id, fields) ∈ ms
    ∧ ok = is_ok (onRecord (parseMessage id fields now_iso) h').1.
Proof.
  revert h. induction ms as [|[id' fields'] ms IH]; intros h; simpl.
  - by intros ?%elem_of_nil.
  - destruct (onRecord (parseMessage id' fields' now_iso) h) as [r h1] eqn:E.
    intros [[= -> ->]|Hin]%elem_of_cons.
    + exists fields', h. split; [left|]. by rewrite E.
    + destruct (IH _ Hin) as (fields & h' & Hm & Hok).
      exists fields, h'. split; [by right|done].
Qed.

Lemma pel_acked_sublist (replies : string → xack_reply) (outs : list (string * bool))
    (b : stream) :
  pel (acked replies outs b) `sublist_of` pel b.
Proof.
  revert b. induction outs as [|[id ok] outs IH]; intros b; [done|].
  rewrite acked_cons. cbn [fst snd].
  etrans; [apply IH|]. destruct (ok && applied (replies id)); [|done].
  simpl. apply sublist_filter.
Qed.

Lemma same_id_same_entry (l : list message) (m m' : message) :
  NoDup (l.*1) → m ∈ l → m' ∈ l → m.1 = m'.1 → m = m'.
Proof.
  intros Hnd [i Hi]%list_elem_of_lookup [j Hj]%list_elem_of_lookup Hid.
  assert (i = j) as ->.
  { apply (NoDup_lookup (l.*1) i j m.1 Hnd).
    - rewrite list_lookup_fmap. apply fmap_Some. by exists m.
    - rewrite list_lookup_fmap. apply fmap_Some. by exists m'. }
  congruence.
Qed.

(** X7.  No delivered entry is lost: whatever a run of the consumer and
    the workers does, the stream only grows, and an entry the group has
    delivered is still pending unless the handler returned without
    error on an entry with its id (or it was no longer pending when the
    run started). *)
Theorem delivered_pending_until_handled (b : stream) (h : St) (c : phase * cstate St) :
  reaches St onRecord (start St b h) c →
  (delivered b ≤ length (entries b))%nat →
  (∃ more, entries (broker c.2) = entries b ++ more)
  ∧ (delivered b ≤ delivered (broker c.2) ≤ length (entries (broker c.2)))%nat
  ∧ ∀ m, m ∈ delivered_entries (broker c.2) →
      m ∈ pel (broker c.2)
      ∨ (m ∈ delivered_entries b ∧ m ∉ pel b)
      ∨ EvHandled m.1 true ∈ log c.2.
Proof.
  intros Hr Hd.
  remember (start St b h) as c0 eqn:Hc0.
  induction Hr as [c|c c' now_iso replies Hr IH|c ph st m0 Hr IH]; subst c.
  - simpl. split; [exists []; by rewrite app_nil_r|]. split; [lia|].
    intros m Hm. destruct (decide (m ∈ pel b)); [by left|right; by left].
  - destruct (IH eq_refl) as ((more & Hmore) & Hdel & Hinv). clear IH.
    destruct c' as [ph st].
    assert (Hstep : ∀ (outs : list (string * bool)) (b1 b2 : stream) (l : list event) m,
              b2 = acked replies outs b1 →
              m ∈ pel b1 →
              m ∈ pel b2 ∨ EvHandled m.1 true ∈ l ++ (outs ≫= reaction replies)).
    { intros outs b1 b2 l m -> Hm.
      destruct (decide ((m.1, true) ∈ outs)) as [Hin|Hin].
      - right. apply elem_of_app. right. by apply handled_in_reactions.
      - left. apply pel_acked. split; [done|]. by intros [? _]. }
    cbn [fst snd] in *.
    pose proof (turn_cases now_iso replies ph st) as Ht. cbv zeta in Ht.
    set (c1 := turn St onRecord now_iso replies (ph, st)) in *. clearbody c1.
    destruct ph as [k|]; destruct Ht as (Hb & Hl & _ & _).
    + destruct (acked_entries replies
                  (outcomes onRecord now_iso (take BATCH_SIZE (pel (broker st))) (hstate st))
                  (broker st)) as [He Hdl].
      unfold delivered_entries in *. rewrite Hb, He, Hdl.
      split; [by exists more|]. split; [done|]. rewrite <- Hb.
      intros m Hm. destruct (Hinv m Hm) as [Hp|[Hold|Hh]].
      * rewrite Hl.
        destruct (Hstep _ _ _ (log st ++ [EvRead FromPending (take BATCH_SIZE (pel (broker st))).*1]) m Hb Hp) as [?|Hh];
          [by left|].
        right; right. by rewrite <- app_assoc in Hh.
      * right; by left.
      * right; right. rewrite Hl. apply elem_of_app. by left.
    + set (ms := take BATCH_SIZE (drop (delivered (broker st)) (entries (broker st)))) in *.
      destruct (acked_entries replies (outcomes onRecord now_iso ms (hstate st))
                  (Stream_ (entries (broker st)) (delivered (broker st) + length ms)
                           (pel (broker st) ++ ms))) as [He Hdl].
      unfold delivered_entries in *. rewrite Hb, He, Hdl. cbn [entries delivered pel].
      split; [by exists more|]. split.
      { assert (length ms ≤ length (entries (broker st)) - delivered (broker st))%nat.
        { unfold ms. rewrite length_take, length_drop. lia. }
        lia. }
      rewrite <- Hb.
      intros m Hm. unfold ms in Hm. rewrite take_batch in Hm. fold ms in Hm.
      assert (Hp : m ∈ pel (broker st) ++ ms ∨ (m ∈ take (delivered b) (entries b) ∧ m ∉ pel b)
                   ∨ EvHandled m.1 true ∈ log st).
      { apply elem_of_app in Hm as [Hm|Hm].
        - destruct (Hinv m Hm) as [?|[?|?]]; [left; apply elem_of_app; by left|by right; left|by right; right].
        - left. apply elem_of_app. by right. }
      destruct Hp as [Hp|[Hold|Hh]].
      * rewrite Hl.
        destruct (Hstep _ _ _ (log st ++ [EvRead FromNew ms.*1]) m Hb Hp) as [?|Hh];
          [by left|].
        right; right. by rewrite <- app_assoc in Hh.
      * right; by left.
      * right; right. rewrite Hl. apply elem_of_app. by left.
  - destruct (IH eq_refl) as ((more & Hmore) & Hdel & Hinv). clear IH.
    simpl in *. unfold delivered_entries in *. simpl.
    split; [exists (more ++ [m0]); by rewrite Hmore, app_assoc|].
    split; [rewrite length_app; lia|].
    intros m Hm. rewrite take_app_le in Hm by lia. by apply Hinv.
Qed.

(** While nothing is pending at its start, a run hands the handler the
    entries delivered since, each once and in stream order. *)
Lemma handled_new_in_order (b : stream) (h : St) (c : phase * cstate St) :
  reaches St onRecord (start St b h) c →
  pel b = [] → (delivered b ≤ length (entries b))%nat →
  (delivered b ≤ delivered (broker c.2) ≤ length (entries (broker c.2)))%nat
  ∧ take (delivered b) (entries (broker c.2)) = take (delivered b) (entries b)
  ∧ handled_ids (log c.2)
    = (drop (delivered b) (delivered_entries (broker c.2))).*1
  ∧ (∀ k, c.1 = Draining k →
       pel (broker c.2) = [] ∧ delivered (broker c.2) = delivered b).
Proof.
  intros Hr Hp Hd.
  remember (start St b h) as c0 eqn:Hc0.
  induction Hr as [c|c c' now_iso replies Hr IH|c ph st m0 Hr IH]; subst c.
  - simpl. split; [lia|]. split; [done|]. unfold delivered_entries.
    rewrite drop_ge by (rewrite length_take; lia). done.
  - destruct (IH eq_refl) as (Hdel & Hpre & Hh & Hdr). clear IH.
    destruct c' as [ph st]. cbn [fst snd] in *.
    pose proof (turn_cases now_iso replies ph st) as Ht. cbv zeta in Ht.
    set (c1 := turn St onRecord now_iso replies (ph, st)) in *. clearbody c1.
    destruct ph as [k|]; destruct Ht as (Hb & Hl & _ & Hph).
    + destruct (Hdr k eq_refl) as [Hpel Hdeq].
      rewrite Hpel in *. rewrite take_nil in *. simpl in Hb, Hl.
      rewrite Hb, Hl. rewrite handled_app, Hh. simpl. rewrite app_nil_r.
      split; [done|]. split; [done|]. split; [done|].
      intros k'. by rewrite Hph.
    + set (ms := take BATCH_SIZE (drop (delivered (broker st)) (entries (broker st)))) in *.
      destruct (acked_entries replies (outcomes onRecord now_iso ms (hstate st))
                  (Stream_ (entries (broker st)) (delivered (broker st) + length ms)
                           (pel (broker st) ++ ms))) as [He Hdl].
      unfold delivered_entries in *. rewrite Hb, He, Hdl, Hl. cbn [entries delivered].
      split.
      { assert (length ms ≤ length (entries (broker st)) - delivered (broker st))%nat.
        { unfold ms. rewrite length_take, length_drop. lia. }
        lia. }
      split; [done|]. split.
      * pose proof (take_batch (delivered (broker st)) BATCH_SIZE (entries (broker st))) as Htb.
        fold ms in Htb. rewrite Htb.
        rewrite drop_app_le by (rewrite length_take; lia).
        rewrite fmap_app, <- Hh.
        change (log st ++ EvRead FromNew ms.*1 :: _)
          with (log st ++ [EvRead FromNew ms.*1] ++
                (outcomes onRecord now_iso ms (hstate st) ≫= reaction replies)).
        rewrite !handled_app, handled_reactions. simpl.
        by rewrite (outcomes_ids onRecord now_iso).
      * intros k'. by rewrite Hph.
  - destruct (IH eq_refl) as (Hdel & Hpre & Hh & Hdr). clear IH.
    cbn [fst snd broker log xadd entries delivered pel] in *.
    unfold delivered_entries in *. cbn [entries delivered].
    split; [rewrite length_app; lia|].
    split; [rewrite take_app_le by lia; exact Hpre|].
    split; [|done]. cbn [xadd entries delivered].
    rewrite take_app_le by lia. exact Hh.
Qed.

(** X8.  A group created by [ensureGroup] starts after the last entry of
    the stream: started on a stream that has no group, the consumer
    never hands the handler an entry that was in the stream before, and
    hands it every entry delivered since exactly once, in stream order,
    whether the handler fails on it or not. *)
Theorem fresh_group_skips_backlog (es : list message) (h : St) :
  ∃ c0,
    startConsumer St (NoGroup es) h = Ok c0
    ∧ startConsumer St Absent h = startConsumer St (NoGroup []) h
    ∧ ∀ c, reaches St onRecord c0 c →
        take (length es) (entries (broker c.2)) = es
        ∧ handled_ids (log c.2)
          = (drop (length es) (delivered_entries (broker c.2))).*1.
Proof.
  exists (start St (Stream_ es (length es) []) h).
  split; [done|]. split; [done|].
  intros c Hr.
  destruct (handled_new_in_order _ _ _ Hr) as (_ & Hpre & Hh & _); [done|done|].
  cbn [delivered entries] in *. split; [|done].
  rewrite Hpre. by rewrite take_ge.
Qed.

Lemma acked_take_all (replies : string → xack_reply) (count : nat) :
  (∀ id, applied (replies id) = true) →
  ∀ b : stream,
  NoDup (pel b).*1 →
  pel (acked replies ((λ m : message, (m.1, true)) <$> take count (pel b)) b)
  = drop count (pel b).
Proof.
  intros Hap. induction count as [|count IH]; intros b Hnd; [done|].
  destruct (pel b) as [|x p] eqn:E; [exact E|].
  assert (Hx : pel (xack x.1 b) = p).
  { simpl. rewrite E. rewrite filter_cons_False by (by intros []).
    rewrite fmap_cons in Hnd. apply NoDup_cons in Hnd as [Hx _].
    clear -Hx. induction p as [|y p IHp]; [done|].
    rewrite fmap_cons in Hx. apply not_elem_of_cons in Hx as [Hy Hx].
    rewrite filter_cons_True by (simpl; congruence). by rewrite IHp. }
  specialize (IH (xack x.1 b)). rewrite Hx in IH.
  rewrite firstn_cons, fmap_cons, acked_cons. cbn [fst snd andb].
  rewrite Hap. apply IH.
  rewrite fmap_cons in Hnd. by apply NoDup_cons in Hnd as [_ ?].
Qed.

Lemma hstate_after_app (now_iso : string) (l1 l2 : list message) (h : St) :
  hstate_after onRecord now_iso (l1 ++ l2) h
  = hstate_after onRecord now_iso l2 (hstate_after onRecord now_iso l1 h).
Proof.
  revert h. induction l1 as [|[id f] l1 IH]; intros h; [done|]. simpl. apply IH.
Qed.

Lemma drain_empty (now_iso : string) (replies : string → xack_reply) (k : nat)
    (st : cstate St) :
  pel (broker st) = [] →
  turn St onRecord now_iso replies (Draining k, st)
  = (Listening, CState (broker st) (hstate st) (log st ++ [EvRead FromPending []])).
Proof.
  intros Hp. destruct st as [b h l]. simpl in *.
  unfold xreadgroup_pending. by rewrite Hp, take_nil.
Qed.

(** With a handler that does not fail, [XACK]s that reach the broker and
    distinct ids, the first loop hands the handler the pending entries
    in order and acknowledges them all. *)
Lemma drain_recovers (now_iso : string) (replies : string → xack_reply) :
  (∀ r h, is_ok (onRecord r h).1 = true) →
  (∀ id, applied (replies id) = true) →
  ∀ (n : nat) (st : cstate St) (k : nat),
    (length (pel (broker st)) ≤ n)%nat →
    NoDup (pel (broker st)).*1 →
    ∃ (t : nat) (st' : cstate St), (t ≤ S n)%nat
      ∧ Nat.iter t (turn St onRecord now_iso replies) (Draining k, st) = (Listening, st')
      ∧ pel (broker st') = []
      ∧ entries (broker st') = entries (broker st)
      ∧ delivered (broker st') = delivered (broker st)
      ∧ handled_ids (log st') = handled_ids (log st) ++ (pel (broker st)).*1
      ∧ hstate st' = hstate_after onRecord now_iso (pel (broker st)) (hstate st).
Proof.
  intros Hok Hap. induction n as [|n IH]; intros st k Hlen Hnd.
  - destruct (pel (broker st)) as [|] eqn:Hp; [|simpl in Hlen; lia].
    exists 1%nat. eexists. split; [lia|].
    split; [exact (drain_empty now_iso replies k st Hp)|]. cbn [broker hstate log].
    rewrite handled_app. change (handled_ids [_]) with (@nil string).
    rewrite fmap_nil, !app_nil_r. done.
  - destruct (pel (broker st)) as [|m ms] eqn:Hp.
    + exists 1%nat. eexists. split; [lia|].
      split; [exact (drain_empty now_iso replies k st Hp)|]. cbn [broker hstate log].
      rewrite handled_app. change (handled_ids [_]) with (@nil string).
      rewrite fmap_nil, !app_nil_r. done.
    + pose proof (turn_cases now_iso replies (Draining k) st) as Ht. cbv zeta in Ht.
      set (c1 := turn St onRecord now_iso replies (Draining k, st)) in *.
      destruct Ht as (Hb & Hl & Hh & Hph).
      rewrite Hp in *.
      set (batch := take BATCH_SIZE (m :: ms)) in *.
      rewrite (outcomes_all_ok onRecord now_iso batch (hstate st) Hok) in Hb, Hl.
      assert (Hpel1 : pel (broker c1.2) = drop BATCH_SIZE (m :: ms)).
      { rewrite Hb. unfold batch. rewrite <- Hp. apply acked_take_all; [done|].
        by rewrite Hp. }
      assert (He : entries (broker c1.2) = entries (broker st))
        by (rewrite Hb; apply acked_entries).
      assert (Hdl : delivered (broker c1.2) = delivered (broker st))
        by (rewrite Hb; apply acked_entries).
      assert (Hc1 : c1 = (Draining (k + length batch), c1.2)).
      { destruct c1 as [ph1 st1]. simpl in *. by rewrite Hph. }
      destruct (IH c1.2 (k + length batch)%nat) as (t & st' & Ht & Hit & Hpe & Hen & Hde & Hha & Hhs).
      { rewrite Hpel1. unfold BATCH_SIZE. simpl in *. rewrite length_drop. simpl. lia. }
      { rewrite Hpel1. rewrite fmap_drop. eapply sublist_NoDup; [exact Hnd|].
        apply sublist_drop. }
      exists (S t), st'. split; [lia|].
      rewrite Nat.iter_succ_r. fold c1. rewrite Hc1. split; [exact Hit|].
      split; [done|]. split; [congruence|]. split; [congruence|]. split.
      * rewrite Hha, Hl, Hpel1.
        change (log st ++ EvRead FromPending batch.*1 :: _)
          with (log st ++ [EvRead FromPending batch.*1] ++
                (((λ m : message, (m.1, true)) <$> batch) ≫= reaction replies)).
        rewrite !handled_app, handled_reactions.
        change (handled_ids [_]) with (@nil string). rewrite app_nil_l.
        rewrite <- app_assoc. f_equal.
        rewrite <- list_fmap_compose.
        transitivity ((take BATCH_SIZE (m :: ms) ++ drop BATCH_SIZE (m :: ms)).*1);
          [by rewrite fmap_app|by rewrite take_drop].
      * rewrite Hhs, Hh, Hpel1. fold batch.
        transitivity (hstate_after onRecord now_iso
                        (take BATCH_SIZE (m :: ms) ++ drop BATCH_SIZE (m :: ms)) (hstate st));
          [by rewrite hstate_after_app|by rewrite take_drop].
Qed.

(** X9.  A restart recovers what was pending: [ensureGroup] leaves an
    existing group as it is, and with a handler that does not fail and
    [XACK]s that reach the broker the first loop hands the handler
    exactly the pending entries, in the order of their delivery,
    acknowledges them all and ends within one turn per pending entry
    plus one, before anything new is read. *)
Theorem restart_recovers_pending (b : stream) (h : St) (now_iso : string)
    (replies : string → xack_reply) :
  (∀ r h, is_ok (onRecord r h).1 = true) →
  (∀ id, applied (replies id) = true) →
  NoDup (pel b).*1 →
  startConsumer St (Grouped b) h = Ok (start St b h)
  ∧ ∃ (t : nat) (st : cstate St), (t ≤ S (length (pel b)))%nat
      ∧ Nat.iter t (turn St onRecord now_iso replies) (start St b h) = (Listening, st)
      ∧ pel (broker st) = []
      ∧ entries (broker st) = entries b ∧ delivered (broker st) = delivered b
      ∧ handled_ids (log st) = (pel b).*1
      ∧ hstate st = hstate_after onRecord now_iso (pel b) h.
Proof.
  intros Hok Hap Hnd. split; [done|].
  destruct (drain_recovers now_iso replies Hok Hap (length (pel b)) (CState b h []) 0%nat)
    as (t & st & Ht & Hit & Hp & He & Hd & Hh & Hs); [done|done|].
  exists t, st. done.
Qed.

(** A pending entry on which the handler fails keeps the consumer in
    its first loop. *)
Lemma poison_blocks (m : message) (b : stream) (h : St) (c : phase * cstate St) :
  (∀ now_iso h, is_ok (onRecord (parseMessage m.1 m.2 now_iso) h).1 = false) →
  m ∈ pel b → NoDup (pel b).*1 →
  reaches St onRecord (start St b h) c →
  (∃ n, c.1 = Draining n) ∧ m ∈ pel (broker c.2)
  ∧ pel (broker c.2) `sublist_of` pel b
  ∧ EvAck m.1 ∉ log c.2.
Proof.
  intros Hfail Hm Hnd Hr.
  remember (start St b h) as c0 eqn:Hc0.
  induction Hr as [c|c c' now_iso replies Hr IH|c ph st m0 Hr IH]; subst c.
  - simpl. split; [by eexists|]. split; [done|]. split; [done|]. apply not_elem_of_nil.
  - destruct (IH eq_refl) as ([k Hk] & Hin & Hsub & Hack). clear IH.
    destruct c' as [ph st]. cbn [fst snd] in *. subst ph.
    pose proof (turn_cases now_iso replies (Draining k) st) as Ht. cbv zeta in Ht.
    set (c1 := turn St onRecord now_iso replies (Draining k, st)) in *. clearbody c1.
    destruct Ht as (Hb & Hl & _ & Hph).
    assert (Hnd' : NoDup (pel (broker st)).*1).
    { eapply sublist_NoDup; [exact Hnd|]. by apply fmap_sublist. }
    assert (Hnot : (m.1, true) ∉ outcomes onRecord now_iso
                     (take BATCH_SIZE (pel (broker st))) (hstate st)).
    { intros (fields & h' & Hms & Hok)%outcomes_elem.
      assert ((m.1, fields) = m) as Heq.
      { apply (same_id_same_entry (pel (broker st))); [done| |done|done].
        eapply subseteq_take, Hms. }
      rewrite <- Heq in Hfail. simpl in Hfail. rewrite Hfail in Hok. done. }
    split; [|split; [|split]].
    + rewrite Hph. destruct (pel (broker st)) as [|x p]; [by apply elem_of_nil in Hin|].
      by eexists.
    + rewrite Hb. apply pel_acked. split; [done|]. by intros [? _].
    + rewrite Hb. etrans; [apply pel_acked_sublist|done].
    + rewrite Hl. rewrite elem_of_app, elem_of_cons.
      intros [?|[?|Ha]]; [done|done|]. by apply ack_in_reactions in Ha.
  - destruct (IH eq_refl) as (Hk & Hin & Hsub & Hack). done.
Qed.

End ConsumerMore.

Section PoisonEntry.
Import Stream Consumer Group.

(** X10.  One bad entry stops the processor from ever reading new
    entries: when an entry that is pending at the start gives one of
    the three numbers a value in which [parseFloat] finds no number,
    the write of its point throws each time, the entry is never
    acknowledged, and the first loop of [startConsumer] reads it again
    and again; the consumer never reaches its second loop. *)
Theorem poison_entry_blocks_startup (b : stream) (buffer : list InfluxWriter.Point)
    (m : message) (k v : string) (c : phase * cstate (list InfluxWriter.Point)) :
  m ∈ pel b → NoDup (pel b).*1 →
  k ∈ ["temperature"; "latitude"; "longitude"] →
  value_of k m.2 = Some v → non_numeric v = true →
  reaches _ Processor.onRecord (start _ b buffer) c →
  (∃ n, c.1 = Draining n)
  ∧ m ∈ pel (broker c.2)
  ∧ (∀ ids, EvRead FromNew ids ∉ log c.2)
  ∧ EvAck m.1 ∉ log c.2.
Proof.
  intros Hm Hnd Hk Hv Hn Hr.
  assert (Hfail : ∀ now_iso h,
            is_ok (Processor.onRecord (parseMessage m.1 m.2 now_iso) h).1 = false).
  { intros now_iso h. unfold Processor.onRecord, InfluxWriter.write, parseMessage.
    cbn [Processor.as_point InfluxWriter.temperature InfluxWriter.latitude
         InfluxWriter.longitude Consumer.temperature Consumer.latitude
         Consumer.longitude].
    assert (HNaN : JS.parseFloat (get_or (fill m.2 0 ∅) k "0") = JS.NaN).
    { rewrite get_or_fill.
      - rewrite Hv. by apply parseFloat_non_numeric.
      - intros ->. repeat (apply elem_of_cons in Hk as [Hk|Hk]; [done|]).
        by apply elem_of_nil in Hk. }
    assert (Hk3 : k = "temperature" ∨ k = "latitude" ∨ k = "longitude").
    { repeat (apply elem_of_cons in Hk as [Hk|Hk]; [by auto|]).
      by apply elem_of_nil in Hk. }
    destruct Hk3 as [-> | [-> | ->]]; rewrite HNaN;
      repeat (destruct (JS.parseFloat _); try done). }
  destruct (poison_blocks Processor.onRecord m b buffer c Hfail Hm Hnd Hr)
    as ([n Hph] & Hin & Hsub & Hack).
  split; [by exists n|]. split; [done|].
  assert (Hlog : drain_log (log c.2)).
  { pose proof (reaches_phase_log Processor.onRecord _ _ Hr) as Hpl.
    unfold phase_log in Hpl. rewrite Hph in Hpl. apply Hpl. constructor. }
  split.
  - intros ids. by apply drain_log_no_new.
  - done.
Qed.

End PoisonEntry.

Lemma delivered_pending_until_handled_witness :
  let c := Consumer.turn _ Processor.onRecord "2024-01-01T00:00:00.000Z" sample_replies
             (Consumer.start _ sample_stream []) in
  Consumer.reaches _ Processor.onRecord (Consumer.start _ sample_stream []) c
  ∧ (Stream.delivered sample_stream ≤ length (Stream.entries sample_stream))%nat
  ∧ ∀ m, m ∈ delivered_entries (Consumer.broker c.2) →
      m ∈ Stream.pel (Consumer.broker c.2)
      ∨ (m ∈ delivered_entries sample_stream ∧ m ∉ Stream.pel sample_stream)
      ∨ Consumer.EvHandled m.1 true ∈ Consumer.log c.2.
Proof.
  intros c.
  assert (H1 : Consumer.reaches _ Processor.onRecord
                 (Consumer.start _ sample_stream []) c).
  { apply Consumer.reaches_turn. apply Consumer.reaches_here. }
  assert (H2 : (Stream.delivered sample_stream
                ≤ length (Stream.entries sample_stream))%nat) by (simpl; lia).
  split; [exact H1|]. split; [exact H2|].
  exact (proj2 (proj2 (delivered_pending_until_handled Processor.onRecord
                         sample_stream [] c H1 H2))).
Defined.

Lemma restart_recovers_pending_witness :
  (∀ r h, is_ok (sample_keep r h).1 = true)
  ∧ (∀ id, Consumer.applied (sample_replies id) = true)
  ∧ NoDup (Stream.pel sample_stream).*1
  ∧ ∃ (t : nat) (st : Consumer.cstate (list string)),
      (t ≤ 3)%nat
      ∧ Nat.iter t (Consumer.turn _ sample_keep "2024-01-01T00:00:00.000Z"
                      sample_replies)
          (Consumer.start _ sample_stream [])
        = (Consumer.Listening, st)
      ∧ Stream.pel (Consumer.broker st) = []
      ∧ handled_ids (Consumer.log st) = ["1700000000000-0"; "1700000000000-1"].
Proof.
  assert (H1 : ∀ r h, is_ok (sample_keep r h).1 = true) by done.
  assert (H1' : ∀ id, Consumer.applied (sample_replies id) = true) by done.
  assert (H2 : NoDup (Stream.pel sample_stream).*1).
  { apply NoDup_cons. split; [|apply NoDup_singleton].
    intros Hin%list_elem_of_singleton. discriminate Hin. }
  split; [exact H1|]. split; [exact H1'|]. split; [exact H2|].
  destruct (restart_recovers_pending sample_keep sample_stream []
              "2024-01-01T00:00:00.000Z" sample_replies H1 H1' H2)
    as (_ & t & st & Ht & Hit & Hp & _ & _ & Hh & _).
  exists t, st. split; [exact Ht|]. split; [exact Hit|]. split; [exact Hp|]. exact Hh.
Defined.

Lemma poison_entry_blocks_startup_witness :
  let c := Consumer.turn _ Processor.onRecord "2024-01-01T00:00:00.000Z" sample_replies
             (Consumer.start _ sample_stream []) in
  sample_bad ∈ Stream.pel sample_stream
  ∧ NoDup (Stream.pel sample_stream).*1
  ∧ "latitude" ∈ ["temperature"; "latitude"; "longitude"]
  ∧ value_of "latitude" sample_bad.2 = Some "n/a"
  ∧ non_numeric "n/a" = true
  ∧ Consumer.reaches _ Processor.onRecord (Consumer.start _ sample_stream []) c
  ∧ (∃ n, c.1 = Consumer.Draining n)
  ∧ sample_bad ∈ Stream.pel (Consumer.broker c.2)
  ∧ Consumer.EvAck sample_bad.1 ∉ Consumer.log c.2.
Proof.
  intros c.
  assert (H1 : sample_bad ∈ Stream.pel sample_stream) by (right; left).
  assert (H2 : NoDup (Stream.pel sample_stream).*1).
  { apply NoDup_cons. split; [|apply NoDup_singleton].
    intros Hin%list_elem_of_singleton. discriminate Hin. }
  assert (H3 : "latitude" ∈ ["temperature"; "latitude"; "longitude"]) by (right; left).
  assert (H4 : value_of "latitude" sample_bad.2 = Some "n/a") by reflexivity.
  assert (H5 : non_numeric "n/a" = true) by reflexivity.
  assert (H6 : Consumer.reaches _ Processor.onRecord
                 (Consumer.start _ sample_stream []) c).
  { apply Consumer.reaches_turn. apply Consumer.reaches_here. }
  split; [exact H1|]. split; [exact H2|]. split; [exact H3|]. split; [exact H4|].
  split; [exact H5|]. split; [exact H6|].
  destruct (poison_entry_blocks_startup sample_stream [] sample_bad "latitude" "n/a" c
              H1 H2 H3 H4 H5 H6) as (Hd & Hin & _ & Hack).
  split; [exact Hd|]. split; [exact Hin|]. exact Hack.
Defined.

(* ===================================================================== *)
(** * Theorems: the waits of a request, the mock and the outcomes of a fetch *)
(* ===================================================================== *)

Section RetryMore.
Import Fetcher.
Variable isNetworkError : AxiosError → bool.

Lemma request_backoff {A : Type} (outcomes : list (result AxiosError A)) :
  ∀ (k : nat) (timeout : JS.number) (durations : list Z) (randoms : list Q),
  Forall (fun o => match o with
                   | Err e => ∀ r, response e = Some r →
                              retry_after r = None ∨ retry_after r = Some ""
                   | Ok _ => True
                   end) outcomes →
  Forall (fun q => (0 <= q)%Q ∧ (q < 1)%Q) randoms →
  ∃ ds : list Q,
    (request isNetworkError k timeout outcomes durations randoms).2 = JS.Finite <$> ds
    ∧ Forall2 (fun d cap => (0 <= d)%Q ∧ (d < inject_Z cap)%Q) ds
        (take (length ds) (caps_after k)).
Proof.
  induction outcomes as [|[a|e] rest IH]; intros k timeout durations randoms Hhdr Hrand;
    [by exists []..|].
  apply Forall_cons in Hhdr as [He Hhdr].
  rewrite request_step. cbv zeta.
  destruct (Nat.ltb_spec k RETRIES) as [Hk|Hk]; cbn [andb]; [|by exists []].
  destruct (retryCondition isNetworkError e && _); [|by exists []].
  cbn [snd].
  match goal with |- context [request _ _ ?t _ _ _] =>
    destruct (IH (S k) t (tail durations) (tail randoms) Hhdr) as (ds & Hds & Hcaps) end.
  { destruct Hrand; [constructor|done]. }
  rewrite Hds.
  assert (Hq : (0 <= default 0 (head randoms))%Q ∧ (default 0 (head randoms) < 1)%Q).
  { destruct Hrand as [|q ? [? ?] _]; simpl; [split; lra|done]. }
  destruct (retryDelay_computed (default 0%Q (head randoms)) (Z.of_nat (S k)) e)
    as (d & Hd & Hd0 & Hdcap & _); [tauto|tauto|lia|done|].
  exists (d :: ds). rewrite Hd. split; [done|].
  unfold RETRIES in Hk. unfold caps_after in *.
  do 5 (destruct k as [|k]; [simpl in *; constructor; [by split|done]|]). lia.
Qed.

Lemma total_below (ds : list Q) (caps : list Z) :
  Forall2 (fun d cap => (0 <= d)%Q ∧ (d < inject_Z cap)%Q) ds caps →
  (0 <= total_wait ds)%Q
  ∧ (total_wait ds <= inject_Z (foldr Z.add 0%Z caps))%Q
  ∧ (ds ≠ [] → total_wait ds < inject_Z (foldr Z.add 0%Z caps))%Q.
Proof.
  induction 1 as [|d cap ds caps [Hd0 Hd] _ (IH0 & IH1 & _)]; simpl.
  - split; [lra|]. split; [|done]. change (inject_Z 0) with 0%Q. lra.
  - rewrite inject_Z_plus. split; [lra|]. split; [lra|]. intros _. lra.
Qed.

Lemma below_caps (ds : list Q) (caps : list Z) :
  Forall2 (fun d cap => (0 <= d)%Q ∧ (d < inject_Z cap)%Q) ds caps →
  Forall (fun cap => cap ≤ 32000) caps →
  Forall (fun d => (0 <= d)%Q ∧ (d < 32000)%Q) ds.
Proof.
  induction 1 as [|d cap ds caps [H0 H1] _ IH]; intros Hb; [constructor|].
  apply Forall_cons in Hb as [Hc Hb]. constructor; [|by apply IH].
  split; [done|]. rewrite Zle_Qle in Hc. change (inject_Z 32000) with 32000%Q in Hc. lra.
Qed.

Lemma cap_pos (k : nat) : (0 < inject_Z (Z.min 32000 (1000 * 2 ^ Z.of_nat (S k))))%Q.
Proof.
  change 0%Q with (inject_Z 0). rewrite <- Zlt_Qlt.
  pose proof (Z.pow_pos_nonneg 2 (Z.of_nat (S k))). lia.
Qed.

Lemma spent_nonneg (n : nat) : ∀ (k : nat) (durations : list Z) (randoms : list Q),
  Forall (fun t => 0 ≤ t) durations →
  Forall (fun q => (0 <= q)%Q ∧ (q < 1)%Q) randoms →
  (0 <= spent k n durations randoms)%Q.
Proof.
  induction n as [|n IH]; intros k durations randoms Hd Hr; cbn [spent]; [lra|].
  assert (H1 : (0 <= inject_Z (default 0%Z (head durations)))%Q).
  { change 0%Q with (inject_Z 0). rewrite <- Zle_Qle.
    destruct Hd; simpl; [done|lia]. }
  assert (H2 : (0 <= default 0 (head randoms))%Q).
  { destruct Hr as [|q ? [? ?] _]; simpl; [lra|done]. }
  assert (H3 : (0 <= spent (S k) n (tail durations) (tail randoms))%Q).
  { apply IH; [destruct Hd|destruct Hr]; (constructor || done). }
  pose proof (cap_pos k) as Hc.
  assert (0 <= default 0 (head randoms)
               * inject_Z (Z.min 32000 (1000 * 2 ^ Z.of_nat (S k))))%Q
    by (apply Qmult_le_0_compat; lra).
  lra.
Qed.

(** With durations that are not negative the waits of a request add up
    to less than what is left of its timeout. *)
Lemma request_total {A : Type} (outcomes : list (result AxiosError A)) :
  ∀ (k : nat) (T : Q) (durations : list Z) (randoms : list Q),
  (0 < T)%Q →
  Forall (fun o => match o with Err e => no_retry_after e | Ok _ => True end) outcomes →
  Forall (fun t => 0 ≤ t) durations →
  ∃ ds : list Q,
    (request isNetworkError k (JS.Finite T) outcomes durations randoms).2
    = JS.Finite <$> ds
    ∧ (total_wait ds < T)%Q.
Proof.
  induction outcomes as [|[a|e] rest IH]; intros k T durations randoms HT Hhdr Hdur;
    [by exists []..|].
  apply Forall_cons in Hhdr as [He Hhdr].
  rewrite request_step. cbv zeta.
  rewrite (retryDelay_drawn _ _ e He).
  set (dur := inject_Z (default 0 (head durations))).
  set (d := (default 0%Q (head randoms)
             * inject_Z (Z.min 32000 (1000 * 2 ^ Z.of_nat (S k))))%Q).
  assert (Hdur0 : (0 <= dur)%Q).
  { unfold dur. change 0%Q with (inject_Z 0). rewrite <- Zle_Qle.
    destruct Hdur; simpl; [done|lia]. }
  assert (Htr : JS.truthy (JS.Finite T) = true).
  { simpl. apply negb_true_iff, not_true_iff_false. rewrite Qeq_bool_iff. lra. }
  rewrite Htr. cbn [JS.minus JS.le0 andb].
  destruct ((k <? RETRIES)%nat && retryCondition isNetworkError e); [|by exists []].
  cbn [andb]. destruct (Qle_bool (T - dur - d) 0) eqn:Hle; [by exists []|].
  cbn [negb snd].
  assert (Hpos : (0 < T - dur - d)%Q).
  { apply not_true_iff_false in Hle. rewrite Qle_bool_iff in Hle. lra. }
  destruct (IH (S k) (T - dur - d)%Q (tail durations) (tail randoms) Hpos Hhdr)
    as (ds & Hds & Ht).
  { destruct Hdur; [constructor|done]. }
  exists (d :: ds). rewrite Hds. split; [done|]. simpl. lra.
Qed.

(** X11.  However the attempts of a request fail, the waits between them
    add up to less than 62 s when no answer carries a Retry-After
    header: each wait is a number of milliseconds below the cap of its
    retry, and the caps are 2, 4, 8, 16 and 32 s.  When the durations
    the client measures are not negative, the waits add up to less than
    the timeout of 10 s. *)
Theorem backoff_total_below_62s {A : Type} (outcomes : list (result AxiosError A))
    (durations : list Z) (randoms : list Q) :
  Forall (fun o => match o with
                   | Err e => ∀ r, response e = Some r →
                              retry_after r = None ∨ retry_after r = Some ""
                   | Ok _ => True
                   end) outcomes →
  Forall (fun q => (0 <= q)%Q ∧ (q < 1)%Q) randoms →
  ∃ ds : list Q,
    (httpClient_get isNetworkError outcomes durations randoms).2 = JS.Finite <$> ds
    ∧ Forall (fun d => (0 <= d)%Q ∧ (d < 32000)%Q) ds
    ∧ (0 <= total_wait ds)%Q ∧ (total_wait ds < 62000)%Q
    ∧ (Forall (fun t => 0 ≤ t) durations → total_wait ds < inject_Z TIMEOUT)%Q.
Proof.
  intros Hhdr Hrand. unfold httpClient_get.
  destruct (request_backoff outcomes 0 (JS.Finite (inject_Z TIMEOUT)) durations randoms
              Hhdr Hrand) as (ds & Hds & Hcaps).
  exists ds. split; [done|].
  assert (Hlen : (length ds ≤ 5)%nat).
  { apply Forall2_length in Hcaps. rewrite length_take in Hcaps.
    unfold caps_after in Hcaps. simpl in Hcaps. lia. }
  split; [|split; [|split]].
  - eapply below_caps; [exact Hcaps|]. apply Forall_take.
    unfold caps_after. rewrite drop_0. repeat constructor; lia.
  - by destruct (total_below _ _ Hcaps) as (H0 & _).
  - destruct (total_below _ _ Hcaps) as (H0 & H1 & H2).
    assert (Hsum : foldr Z.add 0 (take (length ds) (caps_after 0)) ≤ 62000).
    { unfold caps_after. rewrite drop_0. clear -Hlen.
      do 6 (destruct ds as [|? ds]; [simpl; lia|]). simpl in Hlen. lia. }
    rewrite Zle_Qle in Hsum. change (inject_Z 62000) with 62000%Q in Hsum.
    destruct ds as [|d ds]; [simpl; lra|].
    specialize (H2 ltac:(done)). lra.
  - intros Hdur.
    destruct (request_total outcomes 0 (inject_Z TIMEOUT) durations randoms)
      as (ds' & Hds' & Ht); [reflexivity| |done|].
    { eapply Forall_impl; [exact Hhdr|]. by intros [a|e]. }
    rewrite Hds in Hds'.
    assert (ds = ds') as ->; [|done].
    clear -Hds'. revert ds' Hds'.
    induction ds as [|d ds IH]; intros [|d' ds'] E; try done.
    injection E as -> E. f_equal. by apply IH.
Qed.

(** The attempts before the one that settles a request, the budget
    lasting or not. *)
Lemma request_settles {A : Type} (o : result AxiosError A)
    (rest : list (result AxiosError A)) (errs : list AxiosError) :
  ∀ (k : nat) (T : Q) (durations : list Z) (randoms : list Q),
  (k + length errs ≤ 5)%nat → (0 < T)%Q →
  Forall (fun e => retryCondition isNetworkError e = true) errs →
  Forall no_retry_after errs →
  (match o with
   | Ok _ => True
   | Err e => retryCondition isNetworkError e = false ∨ (k + length errs = 5)%nat
   end) →
  Forall (fun t => 0 ≤ t) durations →
  Forall (fun q => (0 <= q)%Q ∧ (q < 1)%Q) randoms →
  ((spent k (length errs) durations randoms < T)%Q →
   (request isNetworkError k (JS.Finite T) ((Err <$> errs) ++ o :: rest)
      durations randoms).1 = Some o
   ∧ length (request isNetworkError k (JS.Finite T) ((Err <$> errs) ++ o :: rest)
               durations randoms).2 = length errs)
  ∧ (∀ (j : nat) e, errs !! j = Some e →
       (spent k j durations randoms < T)%Q →
       (T <= spent k (S j) durations randoms)%Q →
       (request isNetworkError k (JS.Finite T) ((Err <$> errs) ++ o :: rest)
          durations randoms).1 = Some (Err e)
       ∧ length (request isNetworkError k (JS.Finite T) ((Err <$> errs) ++ o :: rest)
                   durations randoms).2 = j).
Proof.
  induction errs as [|e' errs IH]; intros k T durations randoms Hk HT Hall Hhdr Ho Hdur Hrand.
  - split; [|intros j e Hj; by rewrite lookup_nil in Hj].
    intros _. cbn [fmap list_fmap app]. destruct o as [a|e]; [done|].
    rewrite request_step. cbv zeta. destruct Ho as [-> | Hk5].
    + by rewrite andb_false_r.
    + simpl in Hk5. replace (k <? RETRIES)%nat with false; [done|].
      symmetry. apply Nat.ltb_ge. unfold RETRIES. lia.
  - apply Forall_cons in Hall as [He' Hall]. apply Forall_cons in Hhdr as [Hh' Hhdr].
    cbn [fmap list_fmap app]. rewrite request_step. cbv zeta.
    rewrite (retryDelay_drawn _ _ e' Hh').
    set (dur := inject_Z (default 0 (head durations))).
    set (d := (default 0%Q (head randoms)
               * inject_Z (Z.min 32000 (1000 * 2 ^ Z.of_nat (S k))))%Q).
    assert (Htr : JS.truthy (JS.Finite T) = true).
    { simpl. apply negb_true_iff, not_true_iff_false. rewrite Qeq_bool_iff. lra. }
    rewrite Htr. cbn [JS.minus JS.le0 andb].
    replace (k <? RETRIES)%nat with true
      by (symmetry; apply Nat.ltb_lt; unfold RETRIES; simpl in Hk; lia).
    rewrite He'. cbn [andb].
    assert (Hdur' : Forall (fun t => 0 ≤ t) (tail durations))
      by (destruct Hdur; [constructor|done]).
    assert (Hrand' : Forall (fun q => (0 <= q)%Q ∧ (q < 1)%Q) (tail randoms))
      by (destruct Hrand; [constructor|done]).
    assert (Hstep : ∀ n, (spent k (S n) durations randoms
                          == dur + d + spent (S k) n (tail durations) (tail randoms))%Q)
      by (intros n; reflexivity).
    assert (Hnn : ∀ n, (0 <= spent (S k) n (tail durations) (tail randoms))%Q)
      by (intros n; by apply spent_nonneg).
    assert (Hrec : (0 < T - dur - d)%Q →
              Qle_bool (T - dur - d) 0 = false).
    { intros Hpos. apply not_true_iff_false. rewrite Qle_bool_iff. lra. }
    specialize (IH (S k) (T - dur - d)%Q (tail durations) (tail randoms)).
    split.
    + intros Hs. cbn [length] in Hs. rewrite Hstep in Hs.
      pose proof (Hnn (length errs)) as H0.
      assert (Hpos : (0 < T - dur - d)%Q) by lra.
      rewrite (Hrec Hpos). cbn [negb fst snd length].
      destruct IH as [[IH1 IH2] _]; try done.
      { simpl in Hk. lia. }
      { destruct o; [done|]. destruct Ho as [?|Ho]; [by left|right].
        simpl in Ho. lia. }
      { lra. }
      fold (@fmap list _ _ _ (@Err AxiosError A) errs) in *.
      by rewrite IH1, IH2.
    + intros [|j] e Hj Hlo Hhi.
      * injection Hj as <-. rewrite Hstep in Hhi. cbn [spent] in Hhi.
        assert (Qle_bool (T - dur - d) 0 = true) as ->; [|done].
        apply Qle_bool_iff. lra.
      * simpl in Hj. rewrite Hstep in Hlo, Hhi.
        pose proof (Hnn j) as H0.
        assert (Hpos : (0 < T - dur - d)%Q) by lra.
        rewrite (Hrec Hpos). cbn [negb fst snd length].
        destruct IH as [_ IH]; try done.
        { simpl in Hk. lia. }
        { destruct o; [done|]. destruct Ho as [?|Ho]; [by left|right].
          simpl in Ho. lia. }
        destruct (IH j e Hj) as [IH1 IH2]; [lra|lra|].
        fold (@fmap list _ _ _ (@Err AxiosError A) errs) in *.
        by rewrite IH1, IH2.
Qed.

(** X12.  With no Retry-After header, a request settles on the first
    attempt that succeeds or fails in a way that is not retried, and on
    the sixth attempt whatever it brings, the failures before it each
    waited for once: provided these failures and their delays took less
    than the timeout of 10 s in all.  Else the request is given up at
    the first failure at which they reach 10 s, with the error of that
    failure and without the wait. *)
Theorem request_settles_on_first_final {A : Type} (errs : list AxiosError)
    (o : result AxiosError A) (rest : list (result AxiosError A))
    (durations : list Z) (randoms : list Q) :
  (length errs ≤ 5)%nat →
  Forall (fun e => retryCondition isNetworkError e = true) errs →
  Forall no_retry_after errs →
  (match o with
   | Ok _ => True
   | Err e => retryCondition isNetworkError e = false ∨ length errs = 5%nat
   end) →
  Forall (fun t => 0 ≤ t) durations →
  Forall (fun q => (0 <= q)%Q ∧ (q < 1)%Q) randoms →
  let r := httpClient_get isNetworkError ((Err <$> errs) ++ o :: rest)
             durations randoms in
  ((spent 0 (length errs) durations randoms < inject_Z TIMEOUT)%Q →
   r.1 = Some o ∧ length r.2 = length errs)
  ∧ (∀ (j : nat) e, errs !! j = Some e →
       (spent 0 j durations randoms < inject_Z TIMEOUT)%Q →
       (inject_Z TIMEOUT <= spent 0 (S j) durations randoms)%Q →
       r.1 = Some (Err e) ∧ length r.2 = j).
Proof.
  intros Hlen Hall Hhdr Ho Hdur Hrand r. subst r. unfold httpClient_get.
  apply request_settles; done.
Qed.

End RetryMore.

Lemma backoff_total_below_62s_witness :
  let outcomes : list (result Fetcher.AxiosError ()) :=
    [Err (http_error 503 None); Err (http_error 429 (Some "")); Ok ()] in
  let randoms := [(1 # 2)%Q; (3 # 4)%Q] in
  Forall (fun o => match o with
                   | Err e => ∀ r, Fetcher.response e = Some r →
                              Fetcher.retry_after r = None
                              ∨ Fetcher.retry_after r = Some ""
                   | Ok _ => True
                   end) outcomes
  ∧ Forall (fun q => (0 <= q)%Q ∧ (q < 1)%Q) randoms
  ∧ ∃ ds : list Q,
      (Fetcher.httpClient_get sample_isNetworkError outcomes [120; 80] randoms).2
      = JS.Finite <$> ds
      ∧ (total_wait ds < 62000)%Q.
Proof.
  intros outcomes randoms.
  assert (H1 : Forall (fun o => match o with
                   | Err e => ∀ r, Fetcher.response e = Some r →
                              Fetcher.retry_after r = None
                              ∨ Fetcher.retry_after r = Some ""
                   | Ok _ => True
                   end) outcomes).
  { apply Forall_cons; split; [intros r [= <-]; by left|].
    apply Forall_cons; split; [intros r [= <-]; by right|].
    apply Forall_cons; split; [done|]. constructor. }
  assert (H2 : Forall (fun q => (0 <= q)%Q ∧ (q < 1)%Q) randoms).
  { repeat constructor; lra. }
  split; [exact H1|]. split; [exact H2|].
  destruct (backoff_total_below_62s sample_isNetworkError outcomes [120; 80] randoms H1 H2)
    as (ds & Hds & _ & _ & Ht & _).
  exists ds. split; [exact Hds|exact Ht].
Defined.

(** Five answers 503 that take no time, with draws of one half: the
    delays are 1, 2 and 4 s, the next would be 8 s, and the request is
    given up on the fourth answer. *)
Lemma request_settles_on_first_final_witness :
  let errs := replicate 5 (http_error 503 None) in
  let o : result Fetcher.AxiosError () := Ok () in
  let randoms := replicate 5 (1 # 2)%Q in
  (length errs ≤ 5)%nat
  ∧ Forall (fun e => Fetcher.retryCondition sample_isNetworkError e = true) errs
  ∧ Forall no_retry_after errs
  ∧ Forall (fun t => 0 ≤ t) (@nil Z)
  ∧ Forall (fun q => (0 <= q)%Q ∧ (q < 1)%Q) randoms
  ∧ errs !! 3%nat = Some (http_error 503 None)
  ∧ (spent 0 3 [] randoms < inject_Z Fetcher.TIMEOUT)%Q
  ∧ (inject_Z Fetcher.TIMEOUT <= spent 0 4 [] randoms)%Q
  ∧ (Fetcher.httpClient_get sample_isNetworkError ((Err <$> errs) ++ [o]) [] randoms).1
    = Some (Err (http_error 503 None))
  ∧ length (Fetcher.httpClient_get sample_isNetworkError ((Err <$> errs) ++ [o])
              [] randoms).2
    = 3%nat.
Proof.
  intros errs o randoms.
  assert (H1 : (length errs ≤ 5)%nat) by (simpl; lia).
  assert (H2 : Forall (fun e => Fetcher.retryCondition sample_isNetworkError e = true) errs)
    by (repeat constructor).
  assert (H3 : Forall no_retry_after errs).
  { unfold errs. simpl.
    repeat (apply Forall_cons; split; [intros r [= <-]; by left|]). constructor. }
  assert (H4 : Forall (fun t => 0 ≤ t) (@nil Z)) by constructor.
  assert (H5 : Forall (fun q => (0 <= q)%Q ∧ (q < 1)%Q) randoms).
  { repeat constructor; lra. }
  assert (H6 : errs !! 3%nat = Some (http_error 503 None)) by reflexivity.
  assert (H7 : (spent 0 3 [] randoms < inject_Z Fetcher.TIMEOUT)%Q) by reflexivity.
  assert (H8 : (inject_Z Fetcher.TIMEOUT <= spent 0 4 [] randoms)%Q) by discriminate.
  split; [exact H1|]. split; [exact H2|]. split; [exact H3|]. split; [exact H4|].
  split; [exact H5|]. split; [exact H6|]. split; [exact H7|]. split; [exact H8|].
  exact (proj2 (request_settles_on_first_final sample_isNetworkError errs o [] []
                  randoms H1 H2 H3 I H4 H5) 3%nat _ H6 H7 H8).
Defined.

Section ParseFloatText.

Lemma digits_from_uint (u : Decimal.uint) : ∀ (acc : Z) (len : nat),
  JS.digits_from acc len (NilEmpty.string_of_uint u)
  = (uint_acc u acc, (len + Decimal.nb_digits u)%nat, EmptyString).
Proof.
  induction u; intros acc len; simpl;
    [by rewrite Nat.add_0_r|..];
    rewrite IHu; do 2 f_equal; lia.
Qed.

(** [parseFloat] reads back the decimal text of an integer that is not
    negative and is a double. *)
Lemma parseFloat_string_of_Z (n : Z) :
  0 ≤ n ≤ 2 ^ 53 →
  JS.parseFloat (Dec.string_of_Z n) = JS.Finite (inject_Z n).
Proof.
  intros Hn. rewrite <- (to_double_int n) by lia.
  unfold Dec.string_of_Z.
  destruct (Z_to_int_proper n) as [H1 _].
  pose proof (DecimalZ.of_to n) as Hn'.
  destruct (Z.to_int n) as [u|u] eqn:E.
  2:{ destruct n; simpl in E; [discriminate|discriminate|lia]. }
  assert (u ≠ Decimal.Nil) as Hne by congruence.
  simpl NilZero.string_of_int. rewrite string_of_uint_nonnil by done.
  simpl in Hn'. rewrite of_uint_value in Hn'.
  unfold JS.parseFloat. rewrite trim_start_uint.
  assert (JS.sign_of (NilEmpty.string_of_uint u)
          = (false, NilEmpty.string_of_uint u)) as -> by (by destruct u).
  assert (JS.starts_with "Infinity" (NilEmpty.string_of_uint u) = false) as ->
    by (by destruct u).
  unfold JS.digits. rewrite digits_from_uint, Hn'. cbn [Nat.add].
  destruct (Decimal.nb_digits u) eqn:El; [destruct u; simpl in El; congruence|].
  apply to_double_proper. simpl. unfold Qdiv. change (/ inject_Z 1)%Q with 1%Q.
  change (inject_Z 0) with 0%Q. ring.
Qed.

End ParseFloatText.

Section RetryAfter.
Import Fetcher.
Variable isNetworkError : AxiosError → bool.

(** X13.  A Retry-After header is taken at its word: a count of seconds
    [n] gives a delay of [1000 * n] ms, beyond the cap of 32 s when [n]
    is above 32 ([1000 * n] being a double); and a header in which
    [parseFloat] finds no number, as a date does, gives [NaN].  A delay
    of 10 s or more is never waited: it uses up the timeout of the
    client, and the request fails with the error at hand. *)
Theorem retry_after_taken_literally (random : Q) (k : Z) (err : AxiosError)
    (r : AxiosResponse) :
  response err = Some r →
  (∀ n, 0 ≤ n → 1000 * n ≤ 2 ^ 53 → retry_after r = Some (Dec.string_of_Z n) →
     retryDelay random k err = JS.Finite (inject_Z n * 1000)%Q)
  ∧ (∀ s, retry_after r = Some s → s ≠ "" → non_numeric s = true →
       retryDelay random k err = JS.NaN)
  ∧ (∀ n {A : Type} (rest : list (result AxiosError A)) durations randoms,
       10 ≤ n → 1000 * n ≤ 2 ^ 53 → retry_after r = Some (Dec.string_of_Z n) →
       0 ≤ default 0 (head durations) →
       httpClient_get isNetworkError (Err err :: rest) durations randoms
       = (Some (Err err), [])).
Proof.
  intros Hr.
  assert (Hdelay : ∀ random k n, 0 ≤ n → 1000 * n ≤ 2 ^ 53 →
            retry_after r = Some (Dec.string_of_Z n) →
            retryDelay random k err = JS.Finite (inject_Z n * 1000)%Q).
  { intros random' k' n Hn Hb Hs.
    rewrite (retryDelay_retry_after random' k' err r _ Hr Hs (string_of_Z_nonempty n)).
    rewrite parseFloat_string_of_Z by lia. done. }
  split; [by apply Hdelay|]. split.
  - intros s Hs Hne Hnn.
    rewrite (retryDelay_retry_after random k err r _ Hr Hs Hne).
    by rewrite parseFloat_non_numeric.
  - intros n A rest durations randoms Hn Hb Hs Hdur.
    unfold httpClient_get. rewrite request_step. cbv zeta.
    destruct ((0 <? RETRIES)%nat && retryCondition isNetworkError err); [|done].
    rewrite (Hdelay _ _ n) by (done || lia).
    cbn [andb JS.minus JS.truthy JS.le0].
    assert (Qle_bool (inject_Z TIMEOUT - inject_Z (default 0%Z (head durations))
                      - inject_Z n * 1000)%Q 0 = true) as ->.
    { apply Qle_bool_iff. rewrite Zle_Qle in Hn, Hdur.
      change (inject_Z TIMEOUT) with 10000%Q. change (inject_Z 10) with 10%Q in Hn.
      change (inject_Z 0) with 0%Q in Hdur. lra. }
    done.
Qed.

End RetryAfter.

Lemma retry_after_taken_literally_witness :
  let r := {| Fetcher.status := 429; Fetcher.retry_after := Some "120" |} in
  Fetcher.response (http_error 429 (Some "120")) = Some r
  ∧ Fetcher.retryDelay (1 # 2) 1 (http_error 429 (Some "120"))
    = JS.Finite (inject_Z 120 * 1000)%Q
  ∧ Fetcher.httpClient_get sample_isNetworkError
      [Err (http_error 429 (Some "120")); Ok ()] [35] []
    = (Some (Err (http_error 429 (Some "120"))), []).
Proof.
  intros r.
  assert (H1 : Fetcher.response (http_error 429 (Some "120")) = Some r) by reflexivity.
  split; [exact H1|].
  destruct (retry_after_taken_literally sample_isNetworkError (1 # 2) 1
              (http_error 429 (Some "120")) r H1) as (Hd & _ & Hb).
  split.
  - exact (Hd 120 ltac:(lia) ltac:(simpl; lia) eq_refl).
  - exact (Hb 120 unit [Ok ()] [35] [] ltac:(lia) ltac:(simpl; lia) eq_refl ltac:(simpl; lia)).
Defined.

Section MockFacts.
Import Locations Fetcher.

Lemma pick_no_snow (conditions : list (string * Z)) : ∀ roll,
  includes "snow" (pick conditions roll false) = false.
Proof.
  induction conditions as [|[condition weight] rest IH]; intros roll; [done|].
  cbn [pick]. destruct (Qle_bool _ 0); [|apply IH].
  rewrite andb_true_r. by destruct (includes "snow" condition) eqn:E.
Qed.

Lemma pick_in_pool (conditions : list (string * Z)) : ∀ roll canSnow,
  pick conditions roll canSnow = "Clear sky"
  ∨ pick conditions roll canSnow = "Moderate rain"
  ∨ pick conditions roll canSnow ∈ conditions.*1.
Proof.
  induction conditions as [|[condition weight] rest IH]; intros roll canSnow;
    [by left|].
  cbn [pick]. destruct (Qle_bool _ 0).
  - destruct (_ && _); [by right; left|]. right; right. rewrite fmap_cons. by left.
  - destruct (IH (roll - inject_Z weight)%Q canSnow) as [?|[?|?]]; [by left|by right; left|].
    right; right. rewrite fmap_cons. by right.
Qed.

(** X14.  The mock never reports snow within 45 degrees of the equator,
    and whatever the draw, the condition it reports is one of its
    pool. *)
Theorem mock_condition_plausible (env : MockEnv) (lat : Q) :
  pickCondition env lat ∈ CONDITIONS.*1
  ∧ ((- (45) <= lat)%Q ∧ (lat <= 45)%Q →
     includes "snow" (pickCondition env lat) = false).
Proof.
  split.
  - unfold pickCondition.
    destruct (pick_in_pool CONDITIONS (random_roll env * inject_Z TOTAL_WEIGHT)%Q
                (negb (Qle_bool (Qabs_ lat) 45))) as [-> | [-> | H]]; [| |done].
    + by left.
    + do 6 right. by left.
  - intros [Hlo Hhi]. unfold pickCondition.
    assert (Qle_bool (Qabs_ lat) 45 = true) as ->.
    { apply Qle_bool_iff. unfold Qabs_. destruct (Qle_bool 0 lat) eqn:E; lra. }
    apply pick_no_snow.
Qed.

(** X15.  The temperature of the mock is a number of tenths of a degree
    within 4.05 degrees of the seasonal value of the latitude: 30 less
    half the distance to the equator, plus 5 from June to September in
    the north and in the other months in the south, minus 5 otherwise.
    So it lies between -24.05 and 39.05 degrees for a latitude between
    -90 and 90. *)
Theorem mock_temperature_range (env : MockEnv) (lat : Q) :
  (0 <= random_noise env)%Q → (random_noise env < 1)%Q →
  let t := mockTemperature env lat in
  let summer := (5 <=? month env) && (month env <=? 8) in
  let north := Qle_bool 0 lat in
  let seasonal :=
    (30 - Qabs_ lat * (1 # 2)
     + (if Bool.eqb summer north then 5 else - (5)))%Q in
  (∃ n : Z, t == inject_Z n / 10)%Q
  ∧ ((seasonal - (405 # 100) <= t)%Q ∧ (t <= seasonal + (405 # 100))%Q)
  ∧ ((- (90) <= lat)%Q ∧ (lat <= 90)%Q →
     (- (2405 # 100) <= t)%Q ∧ (t <= 3905 # 100)%Q).
Proof.
  intros H0 H1. cbv zeta. unfold mockTemperature.
  set (seasonal := if Bool.eqb _ _ then 5%Q else (- (5))%Q).
  assert (Hs : (- (5) <= seasonal)%Q ∧ (seasonal <= 5)%Q).
  { unfold seasonal. destruct (Bool.eqb _ _); split; lra. }
  set (x := ((30 - Qabs_ lat * (1 # 2) + seasonal
              + (random_noise env - (1 # 2)) * 8) * 10)%Q).
  unfold Math_round.
  pose proof (Qfloor_le (x + (1 # 2))) as Hfl.
  pose proof (Qlt_floor (x + (1 # 2))) as Hfu.
  rewrite inject_Z_plus in Hfu. change (inject_Z 1) with 1%Q in Hfu.
  set (n := inject_Z (Qfloor (x + (1 # 2)))) in *.
  assert (Habs : (0 <= Qabs_ lat)%Q).
  { unfold Qabs_. destruct (Qle_bool 0 lat) eqn:E.
    - by apply Qle_bool_iff.
    - assert (¬ (0 <= lat)%Q) by (rewrite <- Qle_bool_iff; congruence). lra. }
  split; [by eexists|].
  assert (Hdiv : (n / 10 == n * (1 # 10))%Q) by (unfold Qdiv; reflexivity).
  split.
  - rewrite Hdiv. unfold x in *. split; lra.
  - intros [Hlo Hhi].
    assert (Habs90 : (Qabs_ lat <= 90)%Q).
    { unfold Qabs_. destruct (Qle_bool 0 lat); lra. }
    rewrite Hdiv. unfold x in *. split; lra.
Qed.

(** X16.  In real mode [fetchWeather] succeeds exactly when the request
    succeeds with a body that has a [current_weather] whose time, in
    milliseconds, is a time value; it fails with the error of the
    request, with "Empty response" or with a range error otherwise.
    In mock mode the reply plays no part. *)
Theorem fetchWeather_outcomes (env : MockEnv) (L : Location)
    (reply : result AxiosError Body) :
  (is_ok (fetchWeather false env L reply) = true
   ↔ ∃ cw, reply = Ok {| current_weather := Some cw |}
       ∧ - JS.maxTime ≤ cw_time cw * 1000 ≤ JS.maxTime)
  ∧ (∀ e, fetchWeather false env L reply = Err (Http e) ↔ reply = Err e)
  ∧ (∀ city, fetchWeather false env L reply = Err (EmptyResponse city)
       ↔ reply = Ok {| current_weather := None |} ∧ city = Locations.city_name L)
  ∧ (fetchWeather false env L reply = Err RangeError
       ↔ ∃ cw, reply = Ok {| current_weather := Some cw |}
           ∧ ¬ (- JS.maxTime ≤ cw_time cw * 1000 ≤ JS.maxTime))
  ∧ (∀ reply', fetchWeather true env L reply = fetchWeather true env L reply').
Proof.
  assert (Hiso : ∀ ms, (∃ s, JS.toISOString ms = Some s) ↔ - JS.maxTime ≤ ms ≤ JS.maxTime).
  { intros ms. split; [|apply toISOString_in_range].
    intros [s Hs]. unfold JS.toISOString in Hs.
    destruct ((ms <? - JS.maxTime) || (JS.maxTime <? ms)) eqn:E; [done|].
    apply orb_false_iff in E as [E1 E2]. lia. }
  unfold fetchWeather.
  destruct reply as [[[cw|]]|e]; cbn [current_weather].
  - destruct (JS.toISOString (cw_time cw * 1000)) as [iso|] eqn:E.
    + assert (- JS.maxTime ≤ cw_time cw * 1000 ≤ JS.maxTime) as Hin
        by (apply Hiso; by eexists).
      split; [split; [by exists cw|done]|].
      split; [by split|]. split; [split; [done|by intros [? _]]|].
      split; [|done]. split; [done|]. intros (cw' & [= <-] & Hn). done.
    + assert (¬ (- JS.maxTime ≤ cw_time cw * 1000 ≤ JS.maxTime)) as Hout.
      { intros [s Hs]%Hiso. congruence. }
      split; [split; [done|]|].
      { intros (cw' & [= <-] & Hn). done. }
      split; [by split|]. split; [split; [done|by intros [? _]]|].
      split; [|done]. split; [|done]. intros _. by exists cw.
  - split; [split; [done|by intros (cw & ? & _)]|].
    split; [by split|]. split.
    { intros city. split; [by intros [= <-]|by intros [_ ->]]. }
    split; [|done]. split; [done|by intros (cw & ? & _)].
  - split; [split; [done|by intros (cw & ? & _)]|].
    split; [intros e'; split; by intros [= ->]|].
    split; [split; [done|by intros [? _]]|].
    split; [|done]. split; [done|by intros (cw & ? & _)].
Qed.

End MockFacts.

Lemma mock_temperature_range_witness :
  (0 <= Fetcher.random_noise sample_env)%Q
  ∧ (Fetcher.random_noise sample_env < 1)%Q
  ∧ (- (2405 # 100) <= Fetcher.mockTemperature sample_env (5991 # 100))%Q
  ∧ (Fetcher.mockTemperature sample_env (5991 # 100) <= 3905 # 100)%Q.
Proof.
  assert (H1 : (0 <= Fetcher.random_noise sample_env)%Q) by (simpl; lra).
  assert (H2 : (Fetcher.random_noise sample_env < 1)%Q) by (simpl; lra).
  split; [exact H1|]. split; [exact H2|].
  apply (proj2 (proj2 (mock_temperature_range sample_env (5991 # 100) H1 H2))).
  split; lra.
Defined.

(* ===================================================================== *)
(** * Theorems: the stream entry, the errors of a worker and its analytics *)
(* ===================================================================== *)

Section StreamEntry.
Import Fetcher.
Variable String_of_number : JS.number → string.

(** X17.  What a worker appends, the consumer reads back: the record
    parsed from the fields of an observation has the texts of the
    observation, and its numbers whenever [parseFloat] reads back what
    [String] printed; the current time is never used for
    [recorded_at]. *)
Theorem stream_entry_round_trip (payload : WeatherPayload) (id now_iso : string) :
  let record :=
    Consumer.parseMessage id (Worker.stream_fields String_of_number payload) now_iso in
  Consumer.id record = id
  ∧ Consumer.city_name record = city_name payload
  ∧ Consumer.weather_condition record = weather_condition payload
  ∧ Consumer.recorded_at record = recorded_at payload
  ∧ Consumer.latitude record = JS.parseFloat (String_of_number (latitude payload))
  ∧ Consumer.longitude record = JS.parseFloat (String_of_number (longitude payload))
  ∧ Consumer.temperature record = JS.parseFloat (String_of_number (temperature payload))
  ∧ ((∀ x, x ∈ [latitude payload; longitude payload; temperature payload] →
        same_number (JS.parseFloat (String_of_number x)) x) →
     same_number (Consumer.latitude record) (latitude payload)
     ∧ same_number (Consumer.longitude record) (longitude payload)
     ∧ same_number (Consumer.temperature record) (temperature payload)).
Proof.
  intros record. subst record. unfold Consumer.parseMessage.
  cbn [Consumer.id Consumer.city_name Consumer.weather_condition Consumer.recorded_at
       Consumer.latitude Consumer.longitude Consumer.temperature].
  rewrite !get_or_fill by done.
  split; [done|]. split; [done|]. split; [done|]. split; [done|].
  split; [done|]. split; [done|]. split; [done|].
  intros Hrt. split; [|split]; apply Hrt; set_solver.
Qed.

End StreamEntry.

Section WorkerMore.
Import Worker.
Variable String_of_number : JS.number → string.

(** X18.  The cooldown is raised by a 429 of the upstream and by nothing
    else: when the errors of the broker, of the limiter and of the
    parser carry no HTTP status, a turn calls [notifyThrottled] exactly
    when it reached the fetch and the request failed, retries
    included, with status 429. *)
Theorem notify_iff_upstream_429 (e : env) (a : analytics) :
  (∀ err, brpop e = Err err ∨ mget e = Err err ∨ acquire e = Err err
          ∨ parsed e = Err err ∨ xadd e = Err err → status err = None) →
  NotifyCalled ∈ (turn String_of_number e a).2
  ↔ ∃ item ids L err r,
      brpop e = Ok (Some item) ∧ mget e = Ok ids ∧ acquire e = Ok ()
      ∧ parsed e = Ok L ∧ USE_MOCK e = false
      ∧ reply e = Err err ∧ Fetcher.response err = Some r ∧ Fetcher.status r = 429.
Proof.
  intros Hst. unfold turn.
  assert (Hno : ∀ err a' tr, status err = None → NotifyCalled ∉ tr →
            NotifyCalled ∉ (on_error e err a' tr).2).
  { intros err a' tr Hs Htr. unfold on_error. rewrite Hs.
    rewrite bool_decide_eq_false_2 by done.
    destruct (_ || _); simpl; rewrite elem_of_app; intros [?|Hin]; try done;
      repeat (apply elem_of_cons in Hin as [Hin|Hin]; [done|]);
      by apply elem_of_nil in Hin. }
  destruct (brpop e) as [[item|]|err] eqn:Eb.
  3:{ split; [intros Hin|by intros (? & ? & ? & ? & ? & ? & _)].
      exfalso. revert Hin. apply Hno; [apply Hst; auto|]. apply not_elem_of_nil. }
  2:{ split; [intros Hin|by intros (? & ? & ? & ? & ? & ? & _)].
      simpl in Hin. by apply list_elem_of_singleton in Hin. }
  destruct (mget e) as [[cycleIdStr startMsStr]|err] eqn:Em.
  2:{ split; [intros Hin|by intros (? & ? & ? & ? & ? & _ & ? & _)].
      exfalso. revert Hin. apply Hno; [apply Hst; auto|].
      intros Hin. by apply list_elem_of_singleton in Hin. }
  set (a1 := if bool_decide (default 0 cycleIdStr ≠ activeCycleId a) then _ else a).
  destruct (acquire e) as [[]|err] eqn:Ea.
  2:{ split; [intros Hin|by intros (? & ? & ? & ? & ? & _ & _ & ? & _)].
      exfalso. revert Hin. apply Hno; [apply Hst; auto|].
      intros Hin. repeat (apply elem_of_cons in Hin as [Hin|Hin]; [done|]).
      by apply elem_of_nil in Hin. }
  destruct (parsed e) as [L|err] eqn:Ep.
  2:{ split; [intros Hin|by intros (? & ? & ? & ? & ? & _ & _ & _ & ? & _)].
      exfalso. revert Hin. apply Hno; [apply Hst; auto 6|].
      intros Hin. repeat (apply elem_of_cons in Hin as [Hin|Hin]; [done|]).
      by apply elem_of_nil in Hin. }
  destruct (Fetcher.fetchWeather (USE_MOCK e) (mock_env e) L (reply e))
    as [payload|ferr] eqn:Ef.
  - split.
    + intros Hin. exfalso. revert Hin.
      destruct (xadd e) as [[]|err] eqn:Ex.
      * simpl. intros Hin. repeat (apply elem_of_cons in Hin as [Hin|Hin]; [done|]).
        by apply elem_of_nil in Hin.
      * apply Hno; [apply Hst; auto 6|].
        intros Hin. repeat (apply elem_of_cons in Hin as [Hin|Hin]; [done|]).
        by apply elem_of_nil in Hin.
    + intros (item' & ids & L' & err & r & _ & _ & _ & [= <-] & Hm & Hr & _).
      unfold Fetcher.fetchWeather in Ef. rewrite Hm, Hr in Ef. done.
  - unfold on_error, of_fetch_error.
    unfold Fetcher.fetchWeather in Ef.
    destruct (USE_MOCK e) eqn:Emock.
    + unfold Fetcher.mockFetchWeather in Ef.
      destruct (JS.toISOString _); [done|]. injection Ef as <-. cbn [status].
      rewrite bool_decide_eq_false_2 by done.
      split; [|by intros (? & ? & ? & ? & ? & _ & _ & _ & _ & ? & _)].
      destruct (_ || _); simpl; intros Hin;
        repeat (apply elem_of_cons in Hin as [Hin|Hin]; [done|]);
        by apply elem_of_nil in Hin.
    + destruct (reply e) as [[[cw|]]|err] eqn:Er; cbn [Fetcher.current_weather] in Ef.
      * destruct (JS.toISOString _); [done|]. injection Ef as <-. cbn [status].
        rewrite bool_decide_eq_false_2 by done.
        split; [|by intros (? & ? & ? & ? & ? & _ & _ & _ & _ & _ & ? & _)].
        destruct (_ || _); simpl; intros Hin;
          repeat (apply elem_of_cons in Hin as [Hin|Hin]; [done|]);
          by apply elem_of_nil in Hin.
      * injection Ef as <-. cbn [status].
        rewrite bool_decide_eq_false_2 by done.
        split; [|by intros (? & ? & ? & ? & ? & _ & _ & _ & _ & _ & ? & _)].
        destruct (_ || _); simpl; intros Hin;
          repeat (apply elem_of_cons in Hin as [Hin|Hin]; [done|]);
          by apply elem_of_nil in Hin.
      * injection Ef as <-. cbn [status code message].
        destruct (Fetcher.response err) as [r|] eqn:Eresp; cbn [fmap option_fmap option_map].
        -- destruct (bool_decide_reflect (Some (Fetcher.status r) = Some 429)) as [Hs|Hs].
           ++ split.
              ** intros _. exists item, (cycleIdStr, startMsStr), L, err, r.
                 repeat split; try done. congruence.
              ** intros _. destruct (notified e); simpl;
                   apply list_elem_of_In; simpl; auto 20.
           ++ split.
              ** destruct (_ || _); simpl; intros Hin;
                   repeat (apply elem_of_cons in Hin as [Hin|Hin]; [done|]);
                   by apply elem_of_nil in Hin.
              ** intros (? & ? & ? & err' & r' & _ & _ & _ & _ & _ & [= <-] & Hr' & H429).
                 rewrite Eresp in Hr'. injection Hr' as <-. congruence.
        -- rewrite bool_decide_eq_false_2 by done. split.
           ++ destruct (_ || _); simpl; intros Hin;
                repeat (apply elem_of_cons in Hin as [Hin|Hin]; [done|]);
                by apply elem_of_nil in Hin.
           ++ intros (? & ? & ? & err' & r' & _ & _ & _ & _ & _ & [= <-] & Hr' & _).
              by rewrite Eresp in Hr'.
Qed.

End WorkerMore.

Lemma notify_iff_upstream_429_witness :
  (∀ err, Worker.brpop sample_turn_429 = Err err ∨ Worker.mget sample_turn_429 = Err err
          ∨ Worker.acquire sample_turn_429 = Err err
          ∨ Worker.parsed sample_turn_429 = Err err
          ∨ Worker.xadd sample_turn_429 = Err err → Worker.status err = None)
  ∧ Worker.NotifyCalled
    ∈ (Worker.turn (fun _ => "") sample_turn_429 (Worker.Analytics ∅ 0 0)).2.
Proof.
  assert (H1 : ∀ err, Worker.brpop sample_turn_429 = Err err
                      ∨ Worker.mget sample_turn_429 = Err err
                      ∨ Worker.acquire sample_turn_429 = Err err
                      ∨ Worker.parsed sample_turn_429 = Err err
                      ∨ Worker.xadd sample_turn_429 = Err err →
                      Worker.status err = None).
  { intros err [H|[H|[H|[H|H]]]]; discriminate H. }
  split; [exact H1|].
  apply (proj2 (notify_iff_upstream_429 (fun _ => "") sample_turn_429
                  (Worker.Analytics ∅ 0 0) H1)).
  exists ("weather:locations:queue", "{...}"), (Some 42, Some 1700000040000),
    sample_oslo, (http_error 429 None),
    {| Fetcher.status := 429; Fetcher.retry_after := None |}.
  repeat split.
Defined.

Section TallyFacts.
Import Worker.
Variable String_of_number : JS.number → string.

Lemma sum_insert (f : bucket → Z) (m : gmap (Z * Z) bucket) (k : Z * Z) (b : bucket) :
  map_fold (fun _ b s => s + f b) 0 (<[k := b]> m)
  = map_fold (fun _ b s => s + f b) 0 m
    - match m !! k with Some b0 => f b0 | None => 0 end + f b.
Proof.
  destruct (m !! k) as [b0|] eqn:E.
  - rewrite <- (insert_delete_eq m k b).
    rewrite (map_fold_insert_L _ _ k b (delete k m));
      [|intros; lia|by rewrite lookup_delete_eq].
    rewrite (map_fold_delete_L _ _ k b0 m); [lia|intros; lia|done].
  - rewrite (map_fold_insert_L _ _ k b m); [lia|intros; lia|done].
Qed.

(** Writing a record back after [getBucket]. *)
Lemma sum_bump (f : bucket → Z) (c s : Z) (m : gmap (Z * Z) bucket) (b' : bucket) :
  f (Bucket 0 0 0 []) = 0 →
  map_fold (fun _ b s => s + f b) 0 (<[(c, s) := b']> (getBucket c s m).2)
  = map_fold (fun _ b s => s + f b) 0 m - f (getBucket c s m).1 + f b'.
Proof.
  intros Hz. unfold getBucket. destruct (m !! (c, s)) as [b|] eqn:E; simpl.
  - by rewrite sum_insert, E.
  - rewrite insert_insert_eq, sum_insert, E. lia.
Qed.

Lemma sum_touch (f : bucket → Z) (c s : Z) (a : analytics) :
  f (Bucket 0 0 0 []) = 0 → sum_of f (touch c s a) = sum_of f a.
Proof.
  intros Hz. unfold sum_of, touch, getBucket. simpl.
  destruct (analyticsMap a !! (c, s)) as [b|] eqn:E; simpl; [done|].
  rewrite sum_insert, E. lia.
Qed.

Lemma count_app (kind : event → bool) (l1 l2 : list event) :
  count_steps kind (l1 ++ l2) = count_steps kind l1 + count_steps kind l2.
Proof. unfold count_steps. rewrite List.filter_app, length_app. lia. Qed.

(** The [catch] block counts what it says it counts. *)
Lemma on_error_tally (e : env) (err : thrown) (a : analytics) (tr : list event) :
  let r := on_error e err a tr in
  sum_of ok r.1 = sum_of ok a
  ∧ sum_of fail r.1 = sum_of fail a + (count_steps is_fail_counted r.2 - count_steps is_fail_counted tr)
  ∧ sum_of timeout r.1
    = sum_of timeout a + (count_steps is_timeout_counted r.2 - count_steps is_timeout_counted tr)
  ∧ count_steps is_ok_counted r.2 = count_steps is_ok_counted tr.
Proof.
  unfold on_error.
  destruct (bool_decide (status err = Some 429)).
  - destruct (notified e); cbn [fst snd]; rewrite !count_app.
    + unfold count_fail, sum_of. cbn [analyticsMap]. rewrite !sum_bump by done.
      unfold count_steps; simpl; lia.
    + rewrite !sum_touch by done. unfold count_steps; simpl; lia.
  - destruct (_ || _); cbn [fst snd]; rewrite !count_app.
    + unfold count_timeout, sum_of. cbn [analyticsMap]. rewrite !sum_bump by done.
      unfold count_steps; simpl; lia.
    + unfold count_fail, sum_of. cbn [analyticsMap]. rewrite !sum_bump by done.
      unfold count_steps; simpl; lia.
Qed.

Local Ltac tally := first [done | unfold count_steps; simpl; lia].

(** X19.  The analytics count what the worker does: over a turn the sum
    of the [ok] counters of all the records grows by the number of
    successes the turn counted, and so do the sums of the [fail] and
    [timeout] counters; no turn counts more than one success and one
    failure or timeout, and a turn whose fetch succeeded but whose
    append failed counts both. *)
Theorem turn_tally (e : env) (a : analytics) :
  let r := turn String_of_number e a in
  sum_of ok r.1 = sum_of ok a + count_steps is_ok_counted r.2
  ∧ sum_of fail r.1 = sum_of fail a + count_steps is_fail_counted r.2
  ∧ sum_of timeout r.1 = sum_of timeout a + count_steps is_timeout_counted r.2
  ∧ 0 ≤ count_steps is_ok_counted r.2 ≤ 1
  ∧ 0 ≤ count_steps is_fail_counted r.2 + count_steps is_timeout_counted r.2 ≤ 1
  ∧ (∀ item ids L payload err,
       brpop e = Ok (Some item) → mget e = Ok ids → acquire e = Ok () →
       parsed e = Ok L →
       Fetcher.fetchWeather (USE_MOCK e) (mock_env e) L (reply e) = Ok payload →
       xadd e = Err err → is_ok (notified e) = true →
       count_steps is_ok_counted r.2 = 1
       ∧ count_steps is_fail_counted r.2 + count_steps is_timeout_counted r.2 = 1).
Proof.
  cbv zeta.
  assert (Hcatch : ∀ err a' tr,
    let r := on_error e err a' tr in
    sum_of ok a' = sum_of ok a + count_steps is_ok_counted tr →
    sum_of fail a' = sum_of fail a → sum_of timeout a' = sum_of timeout a →
    count_steps is_fail_counted tr = 0 → count_steps is_timeout_counted tr = 0 →
    0 ≤ count_steps is_ok_counted tr ≤ 1 →
    sum_of ok r.1 = sum_of ok a + count_steps is_ok_counted r.2
    ∧ sum_of fail r.1 = sum_of fail a + count_steps is_fail_counted r.2
    ∧ sum_of timeout r.1 = sum_of timeout a + count_steps is_timeout_counted r.2
    ∧ 0 ≤ count_steps is_ok_counted r.2 ≤ 1
    ∧ 0 ≤ count_steps is_fail_counted r.2 + count_steps is_timeout_counted r.2 ≤ 1
    ∧ (is_ok (notified e) = true →
       count_steps is_fail_counted r.2 + count_steps is_timeout_counted r.2 = 1)).
  { intros err a' tr r Hok Hfail Hto Hf0 Ht0 Hok1.
    destruct (on_error_tally e err a' tr) as (H1 & H2 & H3 & H4). fold r in H1, H2, H3, H4.
    assert (Hone : 0 ≤ count_steps is_fail_counted r.2 + count_steps is_timeout_counted r.2 ≤ 1
                   ∧ (is_ok (notified e) = true →
                      count_steps is_fail_counted r.2 + count_steps is_timeout_counted r.2 = 1)).
    { subst r. unfold on_error.
      destruct (bool_decide (status err = Some 429)).
      - destruct (notified e); cbn [fst snd is_ok]; rewrite !count_app, Hf0, Ht0; unfold count_steps; simpl; lia.
      - destruct (_ || _); cbn [fst snd]; rewrite !count_app, Hf0, Ht0; unfold count_steps; simpl; lia. }
    destruct Hone as [Hone Hone']. repeat split; try lia. exact Hone'. }
  unfold turn.
  destruct (brpop e) as [[item|]|err] eqn:Eb.
  3:{ destruct (Hcatch err a []) as (H1 & H2 & H3 & H4 & H5 & _); try tally.
      all: repeat split; try lia; try done; try (intros; congruence). }
  2:{ cbn [fst snd]. repeat split; try tally; try done. }
  destruct (mget e) as [[cycleIdStr startMsStr]|err] eqn:Em.
  2:{ destruct (Hcatch err a [PopReturned (Some item)]) as (H1 & H2 & H3 & H4 & H5 & _);
        try tally.
      all: repeat split; try lia; try done; try (intros; congruence). }
  set (a1 := if bool_decide (default 0 cycleIdStr ≠ activeCycleId a) then _ else a).
  assert (Ha1 : ∀ f, sum_of f a1 = sum_of f a).
  { intros f. unfold a1. by destruct (bool_decide _). }
  destruct (acquire e) as [[]|err] eqn:Ea.
  2:{ destruct (Hcatch err a1 ([PopReturned (Some item)] ++ [CycleRead; AcquireCalled]))
        as (H1 & H2 & H3 & H4 & H5 & _); rewrite ?Ha1; try tally.
      all: repeat split; try lia; try done; try (intros; congruence). }
  destruct (parsed e) as [L|err] eqn:Ep.
  2:{ destruct (Hcatch err a1 (([PopReturned (Some item)] ++ [CycleRead; AcquireCalled])
                               ++ [AcquireReturned]))
        as (H1 & H2 & H3 & H4 & H5 & _); rewrite ?Ha1; try tally.
      all: repeat split; try lia; try done; try (intros; congruence). }
  destruct (Fetcher.fetchWeather (USE_MOCK e) (mock_env e) L (reply e))
    as [payload|ferr] eqn:Ef.
  2:{ destruct (Hcatch (of_fetch_error ferr) a1
                  ((([PopReturned (Some item)] ++ [CycleRead; AcquireCalled])
                    ++ [AcquireReturned]) ++ [FetchCalled (Locations.city_name L)]))
        as (H1 & H2 & H3 & H4 & H5 & _); rewrite ?Ha1; try tally.
      all: repeat split; try lia; try done; try (intros; congruence). }
  set (s := (fetchStart e - cycleStartMs a1) / 1000).
  set (a2 := count_ok (activeCycleId a1) s (fetchEnd e - fetchStart e) a1).
  assert (Ha2 : sum_of ok a2 = sum_of ok a + 1
                ∧ sum_of fail a2 = sum_of fail a ∧ sum_of timeout a2 = sum_of timeout a).
  { rewrite <- !Ha1. unfold a2, count_ok, sum_of. cbn [analyticsMap].
    rewrite !sum_bump by done. simpl. lia. }
  destruct Ha2 as (Hok2 & Hf2 & Ht2).
  destruct (xadd e) as [[]|err] eqn:Ex.
  - cbn [fst snd]. rewrite Hok2, Hf2, Ht2. repeat split; try tally; try done.
  - match goal with |- context [on_error e err a2 ?tr] =>
      destruct (Hcatch err a2 tr) as (H1 & H2 & H3 & H4 & H5 & H6) end;
      try done; try (rewrite ?Hok2; tally).
    repeat split; try lia.
    + match goal with |- context [on_error e err a2 ?tr] =>
        destruct (on_error_tally e err a2 tr) as (_ & _ & _ & Hc) end.
      rewrite Hc. tally.
    + by apply H6.
Qed.

End TallyFacts.

Section WorkerDeath.
Import Worker.
Variable String_of_number : JS.number → string.

Lemma on_error_steps (e : env) (err : thrown) (a : analytics) (tr : list event) :
  Forall (fun x => is_plain x = true) tr →
  (NotifyCalled ∈ (on_error e err a tr).2 ↔ status err = Some 429)
  ∧ (WorkerDied ∈ (on_error e err a tr).2
     ↔ status err = Some 429 ∧ is_ok (notified e) = false)
  ∧ 0 ≤ count_steps is_notify_called (on_error e err a tr).2 ≤ 1.
Proof.
  intros Htr.
  assert (Hn : (NotifyCalled ∉ tr) ∧ (WorkerDied ∉ tr)
               ∧ count_steps is_notify_called tr = 0).
  { split; [|split].
    - rewrite Forall_forall in Htr. intros Hin. by apply Htr in Hin.
    - rewrite Forall_forall in Htr. intros Hin. by apply Htr in Hin.
    - unfold count_steps. induction Htr as [|x l Hx _ IH]; [done|].
      simpl. destruct x; try done. }
  destruct Hn as (Hn & Hd & Hc).
  unfold on_error. destruct (bool_decide_reflect (status err = Some 429)) as [Hs|Hs].
  - destruct (notified e); cbn [snd is_ok]; rewrite !elem_of_app, !elem_of_cons,
      !elem_of_nil, count_app, Hc; (split; [naive_solver|split; [naive_solver|]]);
      unfold count_steps; simpl; lia.
  - destruct (_ || _); cbn [snd]; rewrite !elem_of_app, !elem_of_cons,
      !elem_of_nil, count_app, Hc; (split; [naive_solver|split; [naive_solver|]]);
      unfold count_steps; simpl; lia.
Qed.

(** A turn ends in its [try] block, with plain steps only, or in the
    [catch] block, entered after plain steps. *)
Lemma turn_ends (e : env) (a : analytics) :
  Forall (fun x => is_plain x = true) (turn String_of_number e a).2
  ∨ ∃ err a' tr,
      turn String_of_number e a = on_error e err a' tr
      ∧ Forall (fun x => is_plain x = true) tr.
Proof.
  unfold turn.
  destruct (brpop e) as [[item|]|err].
  3:{ right. by eexists _, _, _. }
  2:{ left. repeat constructor. }
  destruct (mget e) as [[cycleIdStr startMsStr]|err].
  2:{ right. eexists _, _, _. split; [done|]. repeat constructor. }
  destruct (acquire e) as [[]|err].
  2:{ right. eexists _, _, _. split; [done|]. repeat constructor. }
  destruct (parsed e) as [L|err].
  2:{ right. eexists _, _, _. split; [done|]. repeat constructor. }
  destruct (Fetcher.fetchWeather _ _ _ _) as [payload|ferr].
  2:{ right. eexists _, _, _. split; [done|]. repeat constructor. }
  destruct (xadd e) as [[]|err].
  - left. repeat constructor.
  - right. eexists _, _, _. split; [done|]. repeat constructor.
Qed.

(** X20.  A worker stops for good in one case only: its turn met a 429
    and [notifyThrottled] itself failed.  Every other error leaves the
    loop running; and a turn calls [notifyThrottled] at most once. *)
Theorem worker_dies_only_in_notify (e : env) (a : analytics) :
  let tr := (turn String_of_number e a).2 in
  (WorkerDied ∈ tr ↔ NotifyCalled ∈ tr ∧ is_ok (notified e) = false)
  ∧ 0 ≤ count_steps is_notify_called tr ≤ 1.
Proof.
  cbv zeta.
  destruct (turn_ends e a) as [Hplain|(err & a' & tr & -> & Hplain)].
  - split.
    + rewrite Forall_forall in Hplain.
      split; [intros Hin|intros [Hin _]]; by apply Hplain in Hin.
    + unfold count_steps. induction Hplain as [|x l Hx _ IH]; [done|].
      simpl. destruct x; try done.
  - destruct (on_error_steps e err a' tr Hplain) as (Hn & Hd & Hc).
    split; [|done]. rewrite Hn, Hd. done.
Qed.

End WorkerDeath.

Section ReporterFacts.
Import Worker.

Lemma reporter_tick_second (cycleId startMs now last : Z) (a : analytics) :
  cycleId ≠ 0 → startMs ≠ 0 →
  activeCycleId a = cycleId → cycleStartMs a = startMs →
  let cur := (now - startMs) / 1000 in
  let r := reporter_tick now last a in
  if decide (cur = last ∨ cur < 1) then r.1.1 = None ∧ r.1.2 = last
  else (∃ line, r.1.1 = Some line ∧ r_second line = cur - 1 ∧ r_cycle line = cycleId)
       ∧ r.1.2 = cur.
Proof.
  intros Hc Hs Hca Hsa. cbv zeta. unfold reporter_tick. rewrite Hca, Hsa.
  replace (cycleId =? 0) with false by lia. replace (startMs =? 0) with false by lia.
  cbn [orb].
  destruct (decide _) as [[Heq|Hlt]|Hn].
  - replace ((now - startMs) / 1000 =? last) with true by lia. done.
  - destruct ((now - startMs) / 1000 =? last) eqn:E; [done|].
    replace ((now - startMs) / 1000 - 1 <? 0) with true by lia. done.
  - replace ((now - startMs) / 1000 =? last) with false by lia.
    replace ((now - startMs) / 1000 - 1 <? 0) with false by lia.
    destruct (totals _ _ _ _ _ _) as [totalOk totalFail]. cbn [fst snd].
    split; [|done]. by eexists.
Qed.

Lemma last_cons_default {A} (l : list A) : ∀ x d,
  List.last (x :: l) d = List.last l x.
Proof.
  induction l as [|y l IH]; intros x d; [done|].
  change (List.last (x :: y :: l) d) with (List.last (y :: l) d).
  by rewrite !IH.
Qed.

Lemma paced_last (ts : list Z) : ∀ t, paced t ts → t ≤ List.last ts t.
Proof.
  induction ts as [|x ts IH]; intros t; [simpl; lia|].
  intros [Hx Hp]. rewrite last_cons_default. specialize (IH x Hp). lia.
Qed.

Lemma reporter_run_from (cycleId startMs : Z) (ticks : list (Z * analytics)) :
  cycleId ≠ 0 → startMs ≠ 0 →
  Forall (fun t => activeCycleId t.2 = cycleId ∧ cycleStartMs t.2 = startMs) ticks →
  ∀ (prevTime last : Z),
    let prev := (prevTime - startMs) / 1000 in
    (last = -1 ∧ prev ≤ 0) ∨ (last = prev ∧ 1 ≤ prev) →
    paced prevTime ticks.*1 →
    r_second <$> reporter_run ticks last
    = seqZ (Z.max prev 0)
           ((List.last ticks.*1 prevTime - startMs) / 1000 - Z.max prev 0).
Proof.
  intros Hc Hs Hall. induction Hall as [|[now a] ticks [Hca Hsa] _ IH];
    intros prevTime last prev Hinv Hp.
  - simpl. rewrite seqZ_nil; [done|]. subst prev. lia.
  - cbn [paced fmap list_fmap fst] in Hp. destruct Hp as [Ht Hp].
    cbn [reporter_run].
    pose proof (reporter_tick_second cycleId startMs now last a Hc Hs Hca Hsa) as Htick.
    cbv zeta in Htick.
    set (cur := (now - startMs) / 1000) in *.
    assert (Hcur : prev ≤ cur ≤ prev + 1).
    { subst prev cur. split.
      - apply Z.div_le_mono; lia.
      - replace ((prevTime - startMs) / 1000 + 1)
          with ((prevTime - startMs + 1 * 1000) / 1000)
          by (rewrite Z.div_add by lia; lia).
        apply Z.div_le_mono; lia. }
    assert (Hlast : List.last ((now, a) :: ticks).*1 prevTime
                    = List.last ticks.*1 now).
    { cbn [fmap list_fmap fst]. apply last_cons_default. }
    rewrite Hlast.
    destruct (decide (cur = last ∨ cur < 1)) as [Hskip|Hrep].
    + destruct Htick as [-> ->].
      rewrite (IH now last); [|fold cur; lia|done].
      fold cur. f_equal; lia.
    + destruct Htick as [(line & -> & Hsec & _) ->].
      rewrite fmap_cons, Hsec.
      rewrite (IH now cur); [|fold cur; lia|done]. fold cur.
      assert (Hle : cur ≤ (List.last ticks.*1 now - startMs) / 1000).
      { subst cur. apply Z.div_le_mono; [lia|].
        pose proof (paced_last _ _ Hp). lia. }
      replace (Z.max prev 0) with (cur - 1) by lia.
      replace (Z.max cur 0) with cur by lia.
      rewrite (seqZ_cons (cur - 1)) by lia. f_equal. f_equal; lia.
Qed.

(** X21.  Within a cycle the reporter writes one line per second and
    skips none: started with no second reported, and run at times that
    never go back and are at most one second apart, it reports the
    seconds from the one before its first tick (or second 0) up to the
    one before its last tick, each once and in order. *)
Theorem reporter_each_second_once (cycleId startMs t1 : Z) (a1 : analytics)
    (ticks : list (Z * analytics)) :
  cycleId ≠ 0 → startMs ≠ 0 →
  Forall (fun t => activeCycleId t.2 = cycleId ∧ cycleStartMs t.2 = startMs)
         ((t1, a1) :: ticks) →
  paced t1 ticks.*1 →
  let first := Z.max ((t1 - startMs) / 1000) 1 - 1 in
  let current := (List.last ticks.*1 t1 - startMs) / 1000 in
  r_second <$> reporter_run ((t1, a1) :: ticks) (-1) = seqZ first (current - first).
Proof.
  intros Hc Hs Hall Hp. cbv zeta.
  apply Forall_cons in Hall as [[Hca Hsa] Hall]. simpl in Hca, Hsa.
  cbn [reporter_run].
  pose proof (reporter_tick_second cycleId startMs t1 (-1) a1 Hc Hs Hca Hsa) as Htick.
  cbv zeta in Htick.
  pose proof (paced_last _ _ Hp) as Hlast.
  assert (Hle : (t1 - startMs) / 1000 ≤ (List.last ticks.*1 t1 - startMs) / 1000)
    by (apply Z.div_le_mono; lia).
  set (cur := (t1 - startMs) / 1000) in *.
  destruct (decide (cur = -1 ∨ cur < 1)) as [Hskip|Hrep].
  - destruct Htick as [-> ->].
    rewrite (reporter_run_from cycleId startMs ticks Hc Hs Hall t1 (-1));
      [|fold cur; lia|done].
    fold cur. f_equal; lia.
  - destruct Htick as [(line & -> & Hsec & _) ->].
    rewrite fmap_cons, Hsec.
    rewrite (reporter_run_from cycleId startMs ticks Hc Hs Hall t1 cur);
      [|fold cur; lia|done].
    fold cur.
    replace (Z.max cur 1 - 1) with (cur - 1) by lia.
    replace (Z.max cur 0) with cur by lia.
    rewrite (seqZ_cons (cur - 1)) by lia. f_equal. f_equal; lia.
Qed.

Lemma totals_spec (m : gmap (Z * Z) bucket) (cycleId : Z) (n : nat) :
  ∀ s totalOk totalFail,
    totals m cycleId s n totalOk totalFail
    = (totalOk + foldr Z.add 0
         ((fun i => from_option ok 0 (m !! (cycleId, i))) <$> seqZ s (Z.of_nat n)),
       totalFail + foldr Z.add 0
         ((fun i => from_option (fun b => fail b + timeout b) 0 (m !! (cycleId, i)))
            <$> seqZ s (Z.of_nat n))).
Proof.
  induction n as [|n IH]; intros s totalOk totalFail.
  - simpl. f_equal; lia.
  - rewrite Nat2Z.inj_succ, seqZ_cons by lia.
    replace (Z.pred (Z.succ (Z.of_nat n))) with (Z.of_nat n) by lia.
    cbn [totals fmap list_fmap foldr]. unfold Z.succ.
    destruct (m !! (cycleId, s)) as [b|]; rewrite IH; simpl; f_equal; lia.
Qed.

(** What a tick that writes a line has computed. *)
Lemma reporter_tick_line (now last : Z) (a a' : analytics) (line : report) (last' : Z) :
  reporter_tick now last a = (Some line, last', a') →
  let second := (now - cycleStartMs a) / 1000 - 1 in
  let bucket := analyticsMap a !! (activeCycleId a, second) in
  let lats := from_option latencies [] bucket in
  let sorted := merge_sort Z.le lats in
  let m := match bucket, lats with
           | Some b, _ :: _ =>
               <[(activeCycleId a, second) := Bucket (ok b) (fail b) (timeout b) sorted]>
                 (analyticsMap a)
           | _, _ => analyticsMap a
           end in
  0 ≤ second ∧ second + 1 ≠ last ∧ last' = second + 1
  ∧ a' = Analytics m (activeCycleId a) (cycleStartMs a)
  ∧ line = Report (activeCycleId a) second
             (from_option ok 0 bucket) (from_option fail 0 bucket)
             (from_option timeout 0 bucket)
             (match lats with
              | [] => 0
              | _ => Fetcher.Math_round (inject_Z (foldl Z.add 0 lats)
                                         / inject_Z (Z.of_nat (length lats)))
              end)
             (match lats with
              | [] => Some 0
              | _ => sorted !! Z.to_nat (Qfloor (inject_Z (Z.of_nat (length lats)) * (99 # 100)))
              end)
             (totals m (activeCycleId a) 0 (Z.to_nat (second + 1)) 0 0).1
             (totals m (activeCycleId a) 0 (Z.to_nat (second + 1)) 0 0).2.
Proof.
  unfold reporter_tick. cbv zeta.
  destruct ((activeCycleId a =? 0) || (cycleStartMs a =? 0)); [done|].
  destruct ((now - cycleStartMs a) / 1000 =? last) eqn:E1; [done|].
  destruct ((now - cycleStartMs a) / 1000 - 1 <? 0) eqn:E2; [done|].
  destruct (totals _ _ _ _ _ _) as [totalOk totalFail] eqn:Et.
  intros [= <- <- <-]. cbn [fst snd].
  split; [lia|]. split; [lia|]. split; [lia|]. done.
Qed.

Lemma sorted_counters (a : analytics) (k0 : Z * Z) (k : Z * Z) :
  let bucket := analyticsMap a !! k0 in
  let lats := from_option latencies [] bucket in
  let m := match bucket, lats with
           | Some b, _ :: _ =>
               <[k0 := Bucket (ok b) (fail b) (timeout b) (merge_sort Z.le lats)]>
                 (analyticsMap a)
           | _, _ => analyticsMap a
           end in
  match analyticsMap a !! k, m !! k with
  | Some b, Some b' =>
      ok b' = ok b ∧ fail b' = fail b ∧ timeout b' = timeout b
      ∧ latencies b' ≡ₚ latencies b
  | None, None => True
  | _, _ => False
  end.
Proof.
  cbv zeta. destruct (analyticsMap a !! k0) as [b0|] eqn:E0; simpl.
  - destruct (latencies b0) as [|x l] eqn:El.
    + by destruct (analyticsMap a !! k).
    + destruct (decide (k = k0)) as [->|Hne].
      * rewrite lookup_insert_eq, E0. simpl. rewrite El.
        split; [done|]. split; [done|]. split; [done|]. apply merge_sort_Permutation.
      * rewrite lookup_insert_ne by done. by destruct (analyticsMap a !! k).
  - by destruct (analyticsMap a !! k).
Qed.

(** X22.  A line of the reporter shows the counters of the second before
    the current one and, as totals, the sums of the counters of the
    seconds of the cycle from 0 to that second; a second that has no
    record counts for nothing.  The tick leaves every counter as it
    was and adds or removes no record: at most it changes the order of
    the latencies a record holds. *)
Theorem report_counters (now last : Z) (a a' : analytics) (line : report) (last' : Z) :
  reporter_tick now last a = (Some line, last', a') →
  let counter f i := from_option f 0 (analyticsMap a !! (activeCycleId a, i)) in
  r_cycle line = activeCycleId a
  ∧ r_second line = (now - cycleStartMs a) / 1000 - 1 ∧ 0 ≤ r_second line
  ∧ last' = r_second line + 1 ∧ last' ≠ last
  ∧ r_ok line = counter ok (r_second line)
  ∧ r_fail line = counter fail (r_second line)
  ∧ r_timeout line = counter timeout (r_second line)
  ∧ r_totalOk line = foldr Z.add 0 (counter ok <$> seqZ 0 (r_second line + 1))
  ∧ r_totalFail line
    = foldr Z.add 0 (counter (fun b => fail b + timeout b) <$> seqZ 0 (r_second line + 1))
  ∧ activeCycleId a' = activeCycleId a ∧ cycleStartMs a' = cycleStartMs a
  ∧ ∀ k, match analyticsMap a !! k, analyticsMap a' !! k with
         | Some b, Some b' =>
             ok b' = ok b ∧ fail b' = fail b ∧ timeout b' = timeout b
             ∧ latencies b' ≡ₚ latencies b
         | None, None => True
         | _, _ => False
         end.
Proof.
  intros Ht. apply reporter_tick_line in Ht. cbv zeta in Ht.
  destruct Ht as (H0 & Hne & -> & -> & ->). cbv zeta. cbn [r_cycle r_second r_ok r_fail
    r_timeout r_totalOk r_totalFail activeCycleId cycleStartMs analyticsMap].
  set (second := (now - cycleStartMs a) / 1000 - 1) in *.
  pose proof (sorted_counters a (activeCycleId a, second)) as Hm. cbv zeta in Hm.
  rewrite totals_spec. cbn [fst snd]. rewrite Z2Nat.id by lia.
  repeat split; try done; try lia.
  - rewrite Z.add_0_l. f_equal. apply list_fmap_ext. intros _ i _.
    specialize (Hm (activeCycleId a, i)).
    destruct (analyticsMap a !! (activeCycleId a, i)) as [b|];
      destruct (_ !! (activeCycleId a, i)) as [b'|]; try done. simpl. tauto.
  - rewrite Z.add_0_l. f_equal. apply list_fmap_ext. intros _ i _.
    specialize (Hm (activeCycleId a, i)).
    destruct (analyticsMap a !! (activeCycleId a, i)) as [b|];
      destruct (_ !! (activeCycleId a, i)) as [b'|]; try done. simpl.
    destruct Hm as (_ & -> & -> & _). done.
Qed.

Lemma sorted_below (l : list Z) (i : nat) (p : Z) :
  StronglySorted Z.le l → l !! i = Some p → Forall (fun x => x ≤ p) (take (S i) l).
Proof.
  intros Hs. revert i. induction Hs as [|x l Hs IH Hx]; intros i Hi; [done|].
  destruct i as [|i]; simpl in *.
  - injection Hi as ->. rewrite take_0. by constructor.
  - constructor; [|by apply IH].
    rewrite Forall_forall in Hx. apply Hx. by eapply list_elem_of_lookup_2.
Qed.

(** X23.  With latencies in the reported second, the p99 of the line is
    one of them; no more than one in a hundred of them exceeds it, and
    it is the largest of them when they are at most 100.  The average
    is their mean rounded to the nearest integer.  With no latency both
    figures are 0. *)
Theorem report_latency_figures (now last : Z) (a a' : analytics) (line : report)
    (last' : Z) :
  reporter_tick now last a = (Some line, last', a') →
  let lats :=
    from_option latencies [] (analyticsMap a !! (activeCycleId a, r_second line)) in
  let n := Z.of_nat (length lats) in
  (lats = [] → r_avg line = 0 ∧ r_p99 line = Some 0)
  ∧ (lats ≠ [] →
     2 * Z.abs (r_avg line * n - foldl Z.add 0 lats) ≤ n
     ∧ ∃ p, r_p99 line = Some p ∧ p ∈ lats
        ∧ 100 * Z.of_nat (length (filter (fun x => p < x) lats)) ≤ n
        ∧ (n ≤ 100 → Forall (fun x => x ≤ p) lats)).
Proof.
  intros Ht. apply reporter_tick_line in Ht. cbv zeta in Ht.
  destruct Ht as (H0 & Hne & -> & -> & ->). cbv zeta. cbn [r_second r_avg r_p99].
  set (lats := from_option latencies [] _).
  split; [by intros ->|]. intros Hl.
  destruct lats as [|x0 l0] eqn:El; [done|]. rewrite <- El in *. clear Hl.
  set (n := Z.of_nat (length lats)).
  assert (Hn : 1 ≤ n) by (unfold n; rewrite El; simpl; lia).
  split.
  - unfold Fetcher.Math_round. fold n.
    destruct n as [|pn|pn] eqn:En; [lia| |lia].
    unfold Qfloor, Qplus, Qdiv, Qmult, Qinv, inject_Z. cbn [Qnum Qden].
    rewrite !Z.mul_1_r, Pos.mul_1_l. rewrite Pos2Z.inj_mul.
    generalize (foldl Z.add 0 lats) as S. intros S.
    assert (Hdiv := Z.div_mod (S * 2 + Z.pos pn) (Z.pos pn * 2) ltac:(lia)).
    assert (Hmod := Z.mod_pos_bound (S * 2 + Z.pos pn) (Z.pos pn * 2) ltac:(lia)).
    rewrite Z.mul_1_l.
    set (q := (S * 2 + Z.pos pn) / (Z.pos pn * 2)) in *.
    set (r := (S * 2 + Z.pos pn) mod (Z.pos pn * 2)) in *.
    assert (2 * (q * Z.pos pn - S) = Z.pos pn - r) by lia.
    lia.
  - set (sorted := merge_sort Z.le lats).
    assert (Hperm : sorted ≡ₚ lats) by apply merge_sort_Permutation.
    assert (Hsorted : StronglySorted Z.le sorted).
    { apply (StronglySorted_merge_sort Z.le). }
    assert (Hlen : length sorted = length lats) by (by rewrite Hperm).
    assert (Hidx : Qfloor (inject_Z n * (99 # 100)) = n * 99 / 100).
    { unfold Qfloor, Qmult, inject_Z. cbn [Qnum Qden]. done. }
    fold n. rewrite Hidx.
    set (i := Z.to_nat (n * 99 / 100)).
    assert (Hi : (i < length sorted)%nat).
    { rewrite Hlen. unfold i. fold n in Hn |- *.
      assert (n * 99 / 100 < n) by (apply Z.div_lt_upper_bound; lia).
      assert (0 ≤ n * 99 / 100) by (apply Z.div_pos; lia). unfold n in *. lia. }
    destruct (lookup_lt_is_Some_2 sorted i Hi) as [p Hp].
    exists p. split; [done|]. split.
    { rewrite <- Hperm. by eapply list_elem_of_lookup_2. }
    pose proof (sorted_below sorted i p Hsorted Hp) as Hbelow.
    split.
    + assert (Hcount : length (filter (fun x => p < x) lats)
                       = length (filter (fun x => p < x) sorted)) by (by rewrite Hperm).
      rewrite Hcount. rewrite <- (take_drop (S i) sorted), filter_app, length_app.
      assert (filter (fun x => p < x) (take (S i) sorted) = []) as ->.
      { clear -Hbelow. induction Hbelow as [|x l Hx _ IH]; [done|].
        rewrite filter_cons_False by lia. done. }
      simpl. pose proof (length_filter (fun x => p < x) (drop (S i) sorted)) as Hf.
      rewrite length_drop, Hlen in Hf.
      assert (n * 99 / 100 * 100 > n * 99 - 100).
      { pose proof (Z.mod_pos_bound (n * 99) 100 ltac:(lia)).
        pose proof (Z.div_mod (n * 99) 100 ltac:(lia)). lia. }
      assert (0 ≤ n * 99 / 100) by (apply Z.div_pos; lia).
      unfold i in *. unfold n in *.
      set (d := (Z.of_nat (length lats) * 99) / 100) in *. clearbody d. lia.
    + intros H100.
      assert (S i = length sorted) as Hall.
      { rewrite Hlen. unfold i.
        assert (n * 99 / 100 = n - 1).
        { symmetry. apply Z.div_unique with (r := n * 99 - (n - 1) * 100); lia. }
        unfold n in *. lia. }
      rewrite Hall, firstn_all in Hbelow. by rewrite <- Hperm.
Qed.

End ReporterFacts.

Lemma reporter_each_second_once_witness :
  let start := 1700000040000 in
  let ticks := [(start + 1700, sample_analytics); (start + 2200, sample_analytics);
                (start + 2700, sample_analytics)] in
  42 ≠ 0 ∧ start ≠ 0
  ∧ Forall (fun t => Worker.activeCycleId t.2 = 42 ∧ Worker.cycleStartMs t.2 = start)
           ((start + 1200, sample_analytics) :: ticks)
  ∧ paced (start + 1200) ticks.*1
  ∧ Worker.r_second <$> reporter_run ((start + 1200, sample_analytics) :: ticks) (-1)
    = [0; 1].
Proof.
  intros start ticks.
  assert (H1 : 42 ≠ 0) by lia.
  assert (H2 : start ≠ 0) by (unfold start; lia).
  assert (H3 : Forall (fun t => Worker.activeCycleId t.2 = 42
                                ∧ Worker.cycleStartMs t.2 = start)
                 ((start + 1200, sample_analytics) :: ticks))
    by (repeat constructor).
  assert (H4 : paced (start + 1200) ticks.*1) by (simpl; unfold start; lia).
  split; [exact H1|]. split; [exact H2|]. split; [exact H3|]. split; [exact H4|].
  exact (reporter_each_second_once 42 start (start + 1200) sample_analytics ticks
           H1 H2 H3 H4).
Defined.

Lemma report_counters_witness :
  ∃ line last' a',
    Worker.reporter_tick 1700000041200 (-1) sample_analytics = (Some line, last', a')
    ∧ Worker.r_second line = 0 ∧ last' = 1
    ∧ Worker.r_ok line = 3 ∧ Worker.r_fail line = 1
    ∧ Worker.r_totalOk line = 3 ∧ Worker.r_totalFail line = 1.
Proof.
  destruct (Worker.reporter_tick 1700000041200 (-1) sample_analytics)
    as [[[line|] last'] a'] eqn:E.
  - exists line, last', a'. split; [reflexivity|].
    destruct (report_counters _ _ _ _ _ _ E)
      as (_ & Hs & _ & Hl & _ & Hok & Hf & _ & Hto & Htf & _).
    rewrite Hl, Hok, Hf, Hto, Htf, Hs. repeat split.
  - vm_compute in E. discriminate E.
Defined.

Lemma report_latency_figures_witness :
  ∃ line last' a',
    Worker.reporter_tick 1700000041200 (-1) sample_analytics = (Some line, last', a')
    ∧ Worker.r_p99 line = Some 120
    ∧ 2 * Z.abs (Worker.r_avg line * 3 - 300) ≤ 3.
Proof.
  destruct (Worker.reporter_tick 1700000041200 (-1) sample_analytics)
    as [[[line|] last'] a'] eqn:E.
  - exists line, last', a'. split; [reflexivity|].
    pose proof (report_latency_figures _ _ _ _ _ _ E) as H.
    assert (Hs : Worker.r_second line = 0).
    { vm_compute in E. by injection E as <- _ _. }
    cbv zeta in H. rewrite Hs in H.
    change (from_option Worker.latencies []
              (Worker.analyticsMap sample_analytics
               !! (Worker.activeCycleId sample_analytics, 0)))
      with [120; 80; 100] in H.
    destruct H as [_ H]. destruct (H ltac:(done)) as (Havg & p & Hp & Hin & _ & Hmax).
    split; [|exact Havg].
    rewrite Hp. f_equal.
    specialize (Hmax ltac:(simpl; lia)).
    apply Forall_cons in Hmax as [H120 _].
    repeat (apply elem_of_cons in Hin as [->|Hin]; [lia|]).
    by apply elem_of_nil in Hin.
  - vm_compute in E. discriminate E.
Defined.
